(** * NodeModal: the edit-and-save core of the node dialog

    A shallow embedding of [src/features/modals/NodeModal/index.tsx]:
    [normalizeNodeData], [jsonPathToString], [updateJsonByPath] and the
    part of [handleSave] that turns the edited text into a new document.

    Scope of the model of JavaScript values.
    - A value is a JSON tree: [null], booleans, numbers, strings, arrays
      and plain objects.  Numbers are the integer fragment (carried as
      [Z], printed in decimal, which is how JavaScript prints the integers
      it holds exactly, those below 2^53 in magnitude); number literals
      with a fraction or an exponent are outside the fragment and the
      parser rejects them.
    - A string is a sequence of code units in the range 0..255, one
      [ascii] each; [\uXXXX] escapes above [00ff] are outside the fragment.
    - An object is the ordered list of its own enumerable properties, in
      the order JavaScript enumerates them (array-index keys ascending,
      then the other keys in creation order).  The prototype objects and
      the built-in properties of arrays are not part of a value: [key in
      current], [current[key]] and [current[key] = v] are rendered on own
      properties, which is what they do at every name except the ones
      listed in [builtin_names] (the members of [Object.prototype] and
      [Array.prototype], [__proto__] and [length] among them).  A
      statement that lets a selector or a key miss the own properties
      carries the hypothesis that the name is [plain]; the merge of the
      edited fields renders the one of these names that matters to it,
      [__proto__], as the code treats it ([assign_prop]).
    - The tree produced by [JSON.parse] has no sharing, so in-place
      mutation of a node is rendered as rebuilding the path to it. *)

From Stdlib Require Import List String Ascii Bool Arith ZArith NArith Lia.
From Stdlib Require Import Decimal DecimalFacts DecimalN Sorted.
Import ListNotations.

Local Open Scope list_scope.
Set Warnings "-register-all".

(** ** JavaScript values *)

Inductive jsval : Type :=
| JNull
| JBool (b : bool)
| JNum (z : Z)
| JStr (s : string)
| JArr (elems : list jsval)
| JObj (props : list (string * jsval)).

(** Errors a JavaScript operation can throw in this code. *)
Inductive js_error : Type := TypeError | SyntaxError.

Inductive outcome (A : Type) : Type :=
| Ok (a : A)
| Throw (e : js_error).

Arguments Ok {A} a.

Arguments Throw {A} e.

Definition bind {A B : Type} (m : outcome A) (k : A -> outcome B) : outcome B :=
  match m with
  | Ok a => k a
  | Throw e => Throw e
  end.

Notation "x <- m ;; k" := (bind m (fun x => k))
  (at level 61, m at next level, right associativity).

(** ** Characters and decimal numerals *)

Definition dquote : ascii := "034"%char.

Definition backslash : ascii := "092"%char.

Definition newline : ascii := "010"%char.

Definition digit_of (c : ascii) : option (uint -> uint) :=
  match c with
  | "0"%char => Some D0 | "1"%char => Some D1 | "2"%char => Some D2
  | "3"%char => Some D3 | "4"%char => Some D4 | "5"%char => Some D5
  | "6"%char => Some D6 | "7"%char => Some D7 | "8"%char => Some D8
  | "9"%char => Some D9
  | _ => None
  end.

Definition is_digit (c : ascii) : bool :=
  match digit_of c with Some _ => true | None => false end.

Fixpoint uint_chars (d : uint) : list ascii :=
  match d with
  | Nil => []
  | D0 d => "0"%char :: uint_chars d | D1 d => "1"%char :: uint_chars d
  | D2 d => "2"%char :: uint_chars d | D3 d => "3"%char :: uint_chars d
  | D4 d => "4"%char :: uint_chars d | D5 d => "5"%char :: uint_chars d
  | D6 d => "6"%char :: uint_chars d | D7 d => "7"%char :: uint_chars d
  | D8 d => "8"%char :: uint_chars d | D9 d => "9"%char :: uint_chars d
  end.

(** The longest prefix of decimal digits, and what follows it. *)
Fixpoint read_digits (s : list ascii) : uint * list ascii :=
  match s with
  | [] => (Nil, [])
  | c :: r =>
      match digit_of c with
      | Some D => let (d, r') := read_digits r in (D d, r')
      | None => (Nil, s)
      end
  end.

(** A numeral as JSON and [String(n)] write it: no leading zero. *)
Definition canonical (d : uint) : bool :=
  match d with
  | Nil => false
  | D0 Nil => true
  | D0 _ => false
  | _ => true
  end.

(** [String(n)] for a non-negative integer. *)
Definition N_digits (n : N) : list ascii := uint_chars (N.to_uint n).

Definition N_to_string (n : N) : string := string_of_list_ascii (N_digits n).

(** [String(z)] for an integer. *)
Definition Z_digits (z : Z) : list ascii :=
  match z with
  | Zneg p => "-"%char :: N_digits (Npos p)
  | _ => N_digits (Z.to_N z)
  end.

Definition Z_to_string (z : Z) : string := string_of_list_ascii (Z_digits z).

(** A property name is an array index when it is the canonical numeral of
    an integer below 2^32 - 1. *)
Definition array_index (name : string) : option N :=
  match read_digits (list_ascii_of_string name) with
  | (d, []) =>
      if canonical d && (N.of_uint d <? 4294967295)%N
      then Some (N.of_uint d) else None
  | _ => None
  end.

(** ** Paths *)

(** A path selector: [string | number]; numbers are the non-negative
    integers of the data model. *)
Inductive selector : Type :=
| SKey (s : string)
| SIdx (n : N).

Definition is_number (seg : selector) : bool :=
  match seg with SIdx _ => true | SKey _ => false end.

(** The property name a selector denotes when used as [current[key]]. *)
Definition prop_name (key : selector) : string :=
  match key with
  | SKey s => s
  | SIdx n => N_to_string n
  end.

(** ** Own properties of objects and elements of arrays *)

Definition props := list (string * jsval).

Fixpoint lookup (k : string) (ps : props) : option jsval :=
  match ps with
  | [] => None
  | (k', v) :: r => if String.eqb k k' then Some v else lookup k r
  end.

Fixpoint replace_prop (k : string) (v : jsval) (ps : props) : props :=
  match ps with
  | [] => []
  | (k', v') :: r =>
      if String.eqb k k' then (k', v) :: r else (k', v') :: replace_prop k v r
  end.

(** A new array-index key goes after the smaller index keys and before
    everything else. *)
Fixpoint insert_index (n : N) (k : string) (v : jsval) (ps : props) : props :=
  match ps with
  | [] => [(k, v)]
  | (k', v') :: r =>
      match array_index k' with
      | Some m =>
          if (m <? n)%N then (k', v') :: insert_index n k v r
          else (k, v) :: ps
      | None => (k, v) :: ps
      end
  end.

(** The own property [k] of an object set to [v], as [JSON.parse] and the
    spread [{ ...o }] define it, and as the assignment [o[k] = v] does
    when no prototype answers for [k]: an existing key keeps its place. *)
Definition define_prop (k : string) (v : jsval) (ps : props) : props :=
  match lookup k ps with
  | Some _ => replace_prop k v ps
  | None =>
      match array_index k with
      | Some n => insert_index n k v ps
      | None => ps ++ [(k, v)]
      end
  end.

(** The assignment [o[k] = v] on an object made by a literal or a spread,
    whose prototype is [Object.prototype].  An own key is overwritten.
    The key [__proto__], when [o] does not own it, reaches the setter of
    [Object.prototype]: no own property is created ([null] changes the
    prototype of [o], any other leaf is ignored), and the properties [o]
    owns stay as they are.  Every other name creates an own property. *)
Definition assign_prop (k : string) (v : jsval) (ps : props) : props :=
  match lookup k ps with
  | Some _ => define_prop k v ps
  | None => if String.eqb k "__proto__" then ps else define_prop k v ps
  end.

(** [a[n] = v] on an array: past the end the array grows and the skipped
    positions are holes.  A hole is serialised as [null] and is never read
    back before serialisation, so it is stored as [JNull]. *)
Fixpoint array_store (n : nat) (v : jsval) (l : list jsval) : list jsval :=
  match n, l with
  | O, [] => [v]
  | O, _ :: r => v :: r
  | S n', [] => JNull :: array_store n' v []
  | S n', x :: r => x :: array_store n' v r
  end.

(** [key in current] on the own properties of [current]: a [TypeError]
    unless [current] is an object or an array.  (The operator also
    answers [true] at the names of [builtin_names], which a prototype or
    the array itself defines.) *)
Definition has_prop (key : selector) (current : jsval) : outcome bool :=
  match current with
  | JObj ps =>
      Ok (match lookup (prop_name key) ps with Some _ => true | None => false end)
  | JArr l =>
      Ok (match array_index (prop_name key) with
          | Some n => N.to_nat n <? List.length l
          | None => false
          end)
  | _ => Throw TypeError
  end.

(** [current[key]] on the own properties, elements and characters of
    [current]; [None] is [undefined].  (At the names of [builtin_names]
    the code reads a method, a prototype or a length instead.) *)
Definition get_prop (current : jsval) (key : selector) : outcome (option jsval) :=
  match current with
  | JObj ps => Ok (lookup (prop_name key) ps)
  | JArr l =>
      Ok (match array_index (prop_name key) with
          | Some n => nth_error l (N.to_nat n)
          | None => None
          end)
  | JStr s =>
      Ok (match array_index (prop_name key) with
          | Some n =>
              match String.get (N.to_nat n) s with
              | Some c => Some (JStr (String c EmptyString))
              | None => None
              end
          | None => None
          end)
  | JNum _ | JBool _ => Ok None
  | JNull => Throw TypeError
  end.

(** [current[key] = v] in strict mode (the file is an ES module), at a
    name that is not in [builtin_names].  A property stored on an array
    under a name that is not an index is not part of the JSON tree and
    never serialised: the array is unchanged.  (The names [length] on an
    array and [__proto__] do something else in the code.) *)
Definition set_prop (current : jsval) (key : selector) (v : jsval) : outcome jsval :=
  match current with
  | JObj ps => Ok (JObj (define_prop (prop_name key) v ps))
  | JArr l =>
      Ok (match array_index (prop_name key) with
          | Some n => JArr (array_store (N.to_nat n) v l)
          | None => JArr l
          end)
  | _ => Throw TypeError
  end.

(** ** [JSON.stringify(v, null, 2)] *)

Definition chars (s : string) : list ascii := list_ascii_of_string s.

Module JSON.

Definition hex_digit (n : nat) : ascii :=
  nth n (chars "0123456789abcdef") "0"%char.

(** One code unit inside a JSON string literal. *)
Definition quote_char (c : ascii) : list ascii :=
  let n := nat_of_ascii c in
  if Ascii.eqb c dquote then [backslash; dquote]
  else if Ascii.eqb c backslash then [backslash; backslash]
  else if n =? 8 then [backslash; "b"%char]
  else if n =? 9 then [backslash; "t"%char]
  else if n =? 10 then [backslash; "n"%char]
  else if n =? 12 then [backslash; "f"%char]
  else if n =? 13 then [backslash; "r"%char]
  else if n <? 32 then
    [backslash; "u"%char; "0"%char; "0"%char; hex_digit (n / 16); hex_digit (n mod 16)]
  else [c].

Definition quote (s : string) : list ascii :=
  dquote :: flat_map quote_char (chars s) ++ [dquote].

Definition indent (depth : nat) : list ascii := repeat " "%char (2 * depth).

Fixpoint join (sep : list ascii) (items : list (list ascii)) : list ascii :=
  match items with
  | [] => []
  | [x] => x
  | x :: rest => x ++ sep ++ join sep rest
  end.

Definition separator (depth : nat) : list ascii :=
  ","%char :: newline :: indent depth.

Fixpoint ser (depth : nat) (v : jsval) : list ascii :=
  match v with
  | JNull => chars "null"
  | JBool true => chars "true"
  | JBool false => chars "false"
  | JNum z => Z_digits z
  | JStr s => quote s
  | JArr [] => chars "[]"
  | JArr elems =>
      "["%char :: newline :: indent (S depth)
        ++ join (separator (S depth)) (map (ser (S depth)) elems)
        ++ newline :: indent depth ++ ["]"%char]
  | JObj [] => chars "{}"
  | JObj ps =>
      "{"%char :: newline :: indent (S depth)
        ++ join (separator (S depth))
             (map (fun kv => quote (fst kv) ++ ":"%char :: " "%char :: ser (S depth) (snd kv)) ps)
        ++ newline :: indent depth ++ ["}"%char]
  end.

Definition stringify (v : jsval) : string :=
  string_of_list_ascii (ser 0 v).

(** ** [JSON.parse] *)

Definition is_ws (c : ascii) : bool :=
  let n := nat_of_ascii c in
  (n =? 32) || (n =? 9) || (n =? 10) || (n =? 13).

Fixpoint skip_ws (s : list ascii) : list ascii :=
  match s with
  | c :: r => if is_ws c then skip_ws r else s
  | [] => []
  end.

Definition hex_value (c : ascii) : option nat :=
  let n := nat_of_ascii c in
  if (48 <=? n) && (n <=? 57) then Some (n - 48)
  else if (97 <=? n) && (n <=? 102) then Some (n - 87)
  else if (65 <=? n) && (n <=? 70) then Some (n - 55)
  else None.

(** The code unit of [\uXXXX], when it lies in the modelled range. *)
Definition hex4 (a b c d : ascii) : option ascii :=
  match hex_value a, hex_value b, hex_value c, hex_value d with
  | Some x, Some y, Some z, Some w =>
      if (x =? 0) && (y =? 0) then Some (ascii_of_nat (16 * z + w)) else None
  | _, _, _, _ => None
  end.

(** The character a one-letter escape stands for. *)
Definition unescape (e : ascii) : option ascii :=
  if Ascii.eqb e dquote then Some dquote
  else if Ascii.eqb e backslash then Some backslash
  else if Ascii.eqb e "/"%char then Some "/"%char
  else if Ascii.eqb e "b"%char then Some "008"%char
  else if Ascii.eqb e "t"%char then Some "009"%char
  else if Ascii.eqb e "n"%char then Some "010"%char
  else if Ascii.eqb e "f"%char then Some "012"%char
  else if Ascii.eqb e "r"%char then Some "013"%char
  else None.

Definition prepend (c : ascii) (r : option (list ascii * list ascii))
  : option (list ascii * list ascii) :=
  match r with
  | Some (cs, rest) => Some (c :: cs, rest)
  | None => None
  end.

(** The body of a string literal, after its opening quote. *)
Fixpoint parse_string_body (s : list ascii) : option (list ascii * list ascii) :=
  match s with
  | [] => None
  | c :: r =>
      if Ascii.eqb c dquote then Some ([], r)
      else if Ascii.eqb c backslash then
        match r with
        | [] => None
        | e :: r' =>
            match unescape e with
            | Some c' => prepend c' (parse_string_body r')
            | None =>
                if Ascii.eqb e "u"%char then
                  match r' with
                  | h1 :: h2 :: h3 :: h4 :: r'' =>
                      match hex4 h1 h2 h3 h4 with
                      | Some c' => prepend c' (parse_string_body r'')
                      | None => None
                      end
                  | _ => None
                  end
                else None
            end
        end
      else if nat_of_ascii c <? 32 then None
      else prepend c (parse_string_body r)
  end.

(** An unsigned integer literal. *)
Definition parse_nat (s : list ascii) : option (N * list ascii) :=
  let (d, r) := read_digits s in
  if canonical d then Some (N.of_uint d, r) else None.

Definition build_object (members : props) : jsval :=
  JObj (fold_left (fun acc kv => define_prop (fst kv) (snd kv) acc) members []).

(** The text after the character [ch], when [ch] is the next character
    that is not white space. *)
Definition expect (ch : ascii) (s : list ascii) : option (list ascii) :=
  match skip_ws s with
  | c :: r => if Ascii.eqb c ch then Some r else None
  | [] => None
  end.

(** The text after the keyword [kw], when the text starts with it. *)
Fixpoint strip_prefix (kw s : list ascii) : option (list ascii) :=
  match kw, s with
  | [], _ => Some s
  | k :: kw', c :: s' => if Ascii.eqb c k then strip_prefix kw' s' else None
  | _ :: _, [] => None
  end.

Definition parse_keyword (s : list ascii) : option (jsval * list ascii) :=
  match strip_prefix (chars "null") s with
  | Some r => Some (JNull, r)
  | None =>
      match strip_prefix (chars "true") s with
      | Some r => Some (JBool true, r)
      | None =>
          match strip_prefix (chars "false") s with
          | Some r => Some (JBool false, r)
          | None => None
          end
      end
  end.

Fixpoint parse_value (fuel : nat) (s : list ascii) {struct fuel}
  : option (jsval * list ascii) :=
  match fuel with
  | O => None
  | S fuel' =>
      match skip_ws s with
      | [] => None
      | c :: r =>
          if Ascii.eqb c "{"%char then
            match expect "}"%char r with
            | Some r' => Some (JObj [], r')
            | None =>
                match parse_members fuel' r with
                | Some (ms, r') => Some (build_object ms, r')
                | None => None
                end
            end
          else if Ascii.eqb c "["%char then
            match expect "]"%char r with
            | Some r' => Some (JArr [], r')
            | None =>
                match parse_elems fuel' r with
                | Some (vs, r') => Some (JArr vs, r')
                | None => None
                end
            end
          else if Ascii.eqb c dquote then
            match parse_string_body r with
            | Some (cs, r') => Some (JStr (string_of_list_ascii cs), r')
            | None => None
            end
          else if Ascii.eqb c "-"%char then
            match parse_nat r with
            | Some (n, r') => Some (JNum (- Z.of_N n), r')
            | None => None
            end
          else if is_digit c then
            match parse_nat (c :: r) with
            | Some (n, r') => Some (JNum (Z.of_N n), r')
            | None => None
            end
          else parse_keyword (c :: r)
      end
  end

with parse_elems (fuel : nat) (s : list ascii) {struct fuel}
  : option (list jsval * list ascii) :=
  match fuel with
  | O => None
  | S fuel' =>
      match parse_value fuel' s with
      | Some (v, r) =>
          match expect ","%char r with
          | Some r' =>
              match parse_elems fuel' r' with
              | Some (vs, r'') => Some (v :: vs, r'')
              | None => None
              end
          | None =>
              match expect "]"%char r with
              | Some r' => Some ([v], r')
              | None => None
              end
          end
      | None => None
      end
  end

with parse_members (fuel : nat) (s : list ascii) {struct fuel}
  : option (props * list ascii) :=
  match fuel with
  | O => None
  | S fuel' =>
      match expect dquote s with
      | Some r =>
          match parse_string_body r with
          | Some (k, r1) =>
              match expect ":"%char r1 with
              | Some r2 =>
                  match parse_value fuel' r2 with
                  | Some (v, r3) =>
                      match expect ","%char r3 with
                      | Some r4 =>
                          match parse_members fuel' r4 with
                          | Some (ms, r5) =>
                              Some ((string_of_list_ascii k, v) :: ms, r5)
                          | None => None
                          end
                      | None =>
                          match expect "}"%char r3 with
                          | Some r4 => Some ([(string_of_list_ascii k, v)], r4)
                          | None => None
                          end
                      end
                  | None => None
                  end
              | None => None
              end
          | None => None
          end
      | None => None
      end
  end.

(** [JSON.parse(text)]; [None] is a [SyntaxError] (or a text outside the
    modelled fragment, see the head of the file).  A value consumes a
    character before it descends and an element list calls the value
    parser once per character consumed, so two units of fuel per character
    are enough. *)
Definition parse (text : string) : option jsval :=
  let s := chars text in
  match parse_value (2 * List.length s + 2) s with
  | Some (v, r) =>
      match skip_ws r with
      | [] => Some v
      | _ => None
      end
  | None => None
  end.

End JSON.

Import JSON.

(** JSON text for examples: written with ['] where JSON has the double
    quote. *)
Definition js (s : string) : string :=
  string_of_list_ascii
    (map (fun c => if Ascii.eqb c "'"%char then dquote else c) (chars s)).

(** ** The data of a graph node *)

(** Modelled from the spec: the declaration of [NodeData] ([types/graph])
    is not under src/.  A row of [NodeData["text"]]: [key] is absent for
    the single row of a scalar node, [value] is a scalar or the marker of
    an array or object child, [type] is the JSON type name of the child. *)
Record NodeRow : Type := mkRow {
  key : option string;
  value : jsval;
  type : string
}.

(** Modelled from the spec: a selected node, its rows and its path. *)
Record NodeData : Type := mkNode {
  text : list NodeRow;
  path : option (list selector)
}.

(** Truthiness of [row.key]: absent and the empty string are falsy. *)
Definition truthy_key (k : option string) : bool :=
  match k with
  | Some (String _ _) => true
  | _ => false
  end.

(** [String(v)], as a template literal renders a value. *)
Fixpoint to_display (v : jsval) : string :=
  match v with
  | JNull => "null"
  | JBool true => "true"
  | JBool false => "false"
  | JNum z => Z_to_string z
  | JStr s => s
  | JArr elems =>
      String.concat ","
        (map (fun e => match e with JNull => EmptyString | _ => to_display e end) elems)
  | JObj _ => "[object Object]"
  end.

(** ** [normalizeNodeData] *)

(** The body of the [forEach]: one row added to [obj], where the key of
    the row is not [__proto__] (that key reaches the setter of
    [Object.prototype] instead of becoming a property of [obj]). *)
Definition add_row (obj : props) (row : NodeRow) : props :=
  if negb (String.eqb (type row) "array") && negb (String.eqb (type row) "object")
  then
    match key row with
    | Some k => if truthy_key (key row) then define_prop k (value row) obj else obj
    | None => obj
    end
  else obj.

Definition normalizeNodeData (nodeRows : list NodeRow) : string :=
  match nodeRows with
  | [] => "{}"
  | row0 :: _ =>
      if (List.length nodeRows =? 1) && negb (truthy_key (key row0))
      then to_display (value row0)
      else JSON.stringify (JObj (fold_left add_row nodeRows []))
  end.

(** ** [jsonPathToString] *)

Definition dq : string := String dquote EmptyString.

Definition segment (seg : selector) : string :=
  match seg with
  | SIdx n => N_to_string n
  | SKey s => (dq ++ s ++ dq)%string
  end.

Definition jsonPathToString (path : option (list selector)) : string :=
  match path with
  | None | Some [] => "$"
  | Some p => ("$[" ++ String.concat "][" (map segment p) ++ "]")%string
  end.

(** ** [updateJsonByPath] *)

(** [typeof value !== "object" || value === null] *)
Definition is_leaf (v : jsval) : bool :=
  match v with
  | JArr _ | JObj _ => false
  | _ => true
  end.

Fixpoint indexed {A : Type} (i : N) (l : list A) : list (string * A) :=
  match l with
  | [] => []
  | x :: r => (N_to_string i, x) :: indexed (N.succ i) r
  end.

(** [Object.keys(editedFields)] with the value under each key.  An array
    and a string enumerate their indices, a number and a boolean have no
    keys, [null] throws. *)
Definition own_entries (editedFields : jsval) : outcome props :=
  match editedFields with
  | JObj ps => Ok ps
  | JArr elems => Ok (indexed 0 elems)
  | JStr s =>
      Ok (indexed 0 (map (fun c => JStr (String c EmptyString)) (chars s)))
  | JNum _ | JBool _ => Ok []
  | JNull => Throw TypeError
  end.

(** The [forEach] over the edited keys: only leaf values are written into
    [mergedNode], the spread copy of the target, by the assignment
    [mergedNode[key] = value].  The keys [Object.keys] gives are distinct,
    so the prototype an assignment to [__proto__] may have changed is
    never met again. *)
Definition merge_fields (targetNode : props) (entries : props) : props :=
  fold_left
    (fun mergedNode kv =>
       if is_leaf (snd kv) then assign_prop (fst kv) (snd kv) mergedNode
       else mergedNode)
    entries targetNode.

(** The container synthesized for a missing key. *)
Definition fresh (nextKey : selector) : jsval :=
  if is_number nextKey then JArr [] else JObj [].

(** The update of the slot [current[lastKey]] (lines 58-82). *)
Definition write_slot (current : jsval) (lastKey : selector) (editedFields : jsval)
  : outcome jsval :=
  match current with
  | JNull => Ok JNull
  | _ =>
      targetNode <- get_prop current lastKey ;;
      match targetNode with
      | Some (JObj ps) =>
          entries <- own_entries editedFields ;;
          set_prop current lastKey (JObj (merge_fields ps entries))
      | _ => set_prop current lastKey editedFields
      end
  end.

(** The walk along [pathArray] from [current] (lines 49-82), [key] being
    the selector at the current position and [rest] the ones after it.
    The loop moves [current] down and mutates in place; here each level
    returns its updated container and the level above stores it back
    under the same key.  [key in current] holds exactly when
    [current[key]] is defined, so the [undefined] case does not arise. *)
Fixpoint navigate (current : jsval) (key : selector) (rest : list selector)
  (editedFields : jsval) {struct rest} : outcome jsval :=
  match rest with
  | [] => write_slot current key editedFields
  | nextKey :: rest' =>
      present <- has_prop key current ;;
      child <- (if present
                then (found <- get_prop current key ;;
                      match found with
                      | Some c => Ok c
                      | None => Throw TypeError
                      end)
                else Ok (fresh nextKey)) ;;
      child' <- navigate child nextKey rest' editedFields ;;
      set_prop current key child'
  end.

(** The [path] argument: [string | (string | number)[]]. *)
Inductive path_arg : Type :=
| PathString (s : string)
| PathArray (l : list selector).

(** The body of the [try]. *)
Definition updateJsonByPath_try (json : string) (path : path_arg)
  (editedFields : jsval) : outcome string :=
  obj <- (match JSON.parse json with
          | Some o => Ok o
          | None => Throw SyntaxError
          end) ;;
  let pathArray :=
    match path with
    | PathArray l => l
    | PathString EmptyString => []
    | PathString s => [SKey s]
    end in
  match pathArray with
  | [] => Ok (JSON.stringify editedFields)
  | key0 :: rest =>
      obj' <- navigate obj key0 rest editedFields ;;
      Ok (JSON.stringify obj')
  end.

Definition updateJsonByPath (json : string) (path : path_arg)
  (editedFields : jsval) (originalNode : option NodeData) : string :=
  match updateJsonByPath_try json path editedFields with
  | Ok updated => updated
  | Throw _ => json
  end.

(** ** [handleSave] *)

(** The inner [try]: the edited text as JSON, or else as a string. *)
Definition parse_edited (editedValue : string) : jsval :=
  match JSON.parse editedValue with
  | Some fields => fields
  | None => JStr editedValue
  end.

(** The text [handleSave] computes from the stored document, the selected
    node and the text in the editor. *)
Definition save_text (currentJson : string) (nodeData : option NodeData)
  (editedValue : string) : string :=
  let pathArray :=
    match nodeData with
    | Some node => match path node with Some p => p | None => [] end
    | None => []
    end in
  updateJsonByPath currentJson (PathArray pathArray) (parse_edited editedValue) nodeData.

(** [handleSave]: the new content of the document store, or [None] when
    the validation of the updated text fails and nothing is stored. *)
Definition handleSave (currentJson : string) (nodeData : option NodeData)
  (editedValue : string) : option string :=
  let updatedJson := save_text currentJson nodeData editedValue in
  match JSON.parse updatedJson with
  | Some _ => Some updatedJson
  | None => None
  end.

(** ** Reading and replacing a node of the document tree *)

(** The child of a container under a selector. *)
Definition child (v : jsval) (k : selector) : option jsval :=
  match v with
  | JObj ps => lookup (prop_name k) ps
  | JArr l =>
      match array_index (prop_name k) with
      | Some n => nth_error l (N.to_nat n)
      | None => None
      end
  | _ => None
  end.

(** The node a path addresses: every step descends into an object or an
    array. *)
Fixpoint get_path (v : jsval) (p : list selector) : option jsval :=
  match p with
  | [] => Some v
  | k :: r =>
      match child v k with
      | Some c => get_path c r
      | None => None
      end
  end.

(** The tree in which the node addressed by [p] is replaced by [x]. *)
Fixpoint put_path (v : jsval) (p : list selector) (x : jsval) : jsval :=
  match p with
  | [] => x
  | k :: r =>
      match child v k with
      | Some c =>
          match set_prop v k (put_path c r x) with
          | Ok v' => v'
          | Throw _ => v
          end
      | None => v
      end
  end.

Definition is_container (v : jsval) : bool :=
  match v with
  | JObj _ | JArr _ => true
  | _ => false
  end.

(** * Notions of the statements and of the proofs *)

(** ** Decimal numerals *)

Definition no_digit_ahead (rest : list ascii) : Prop :=
  match rest with
  | [] => True
  | c :: _ => is_digit c = false
  end.

(** ** Objects as JavaScript holds them *)

(** The enumeration order of own keys. *)
Definition key_before (a b : string) : Prop :=
  match array_index a, array_index b with
  | Some m, Some n => (m < n)%N
  | Some _, None => True
  | None, Some _ => False
  | None, None => True
  end.

Definition wf_keys (ks : list string) : Prop :=
  NoDup ks /\ StronglySorted key_before ks.

(** A value as [JSON.parse] and property assignment build it: the keys of
    every object are distinct and in enumeration order. *)
Fixpoint wf (v : jsval) : Prop :=
  match v with
  | JArr elems =>
      (fix all (l : list jsval) : Prop :=
         match l with
         | [] => True
         | x :: r => wf x /\ all r
         end) elems
  | JObj ps =>
      wf_keys (map fst ps) /\
      (fix all (l : props) : Prop :=
         match l with
         | [] => True
         | kv :: r => wf (snd kv) /\ all r
         end) ps
  | _ => True
  end.

Definition starts_value (c : ascii) : bool :=
  Ascii.eqb c "{"%char || Ascii.eqb c "["%char || Ascii.eqb c dquote
  || Ascii.eqb c "-"%char || is_digit c
  || Ascii.eqb c "n"%char || Ascii.eqb c "t"%char || Ascii.eqb c "f"%char.

(** What follows the last value inside an array or an object. *)
Definition closing (d : nat) (ch : ascii) (rest : list ascii) : list ascii :=
  newline :: indent d ++ ch :: rest.

Definition member (d : nat) (kv : string * jsval) : list ascii :=
  quote (fst kv) ++ ":"%char :: " "%char :: ser d (snd kv).

Definition value_ahead (t : list ascii) : Prop :=
  match t with
  | c :: _ => starts_value c = true
  | [] => False
  end.

Definition walk (v : jsval) (p : list selector) (ef : jsval) : outcome jsval :=
  match p with
  | [] => Ok v
  | k :: r => navigate v k r ef
  end.

(** ** Statements about paths and merged fields *)

(** One selector in brackets, as the path is displayed. *)
Definition bracketed (seg : selector) : string :=
  match seg with
  | SIdx n => ("[" ++ N_to_string n ++ "]")%string
  | SKey s => ("[" ++ dq ++ s ++ dq ++ "]")%string
  end.

(** The value the edited fields give a key, when that value is a leaf
    (the last one, should a key occur twice). *)
Fixpoint edited_leaf (name : string) (edits : props) : option jsval :=
  match edits with
  | [] => None
  | (k, v) :: r =>
      match edited_leaf name r with
      | Some v' => Some v'
      | None => if String.eqb name k && is_leaf v then Some v else None
      end
  end.

(** A selector that names a slot of a container: any key of an object, an
    index of an array. *)
Definition addressable (cur : jsval) (k : selector) : bool :=
  match cur with
  | JObj _ => true
  | JArr _ => match array_index (prop_name k) with Some _ => true | None => false end
  | _ => false
  end.

Definition is_array (v : jsval) : bool :=
  match v with JArr _ => true | _ => false end.

Definition is_object (v : jsval) : bool :=
  match v with JObj _ => true | _ => false end.

(** ** Statements about rows *)

(** The key and value of a row that has a key and is neither an array
    nor an object row. *)
Definition scalar_entry (row : NodeRow) : option (string * jsval) :=
  match key row with
  | Some k =>
      if negb (String.eqb k "") && negb (String.eqb (type row) "array")
         && negb (String.eqb (type row) "object")
      then Some (k, value row) else None
  | None => None
  end.

(** The value of the last such row with a given key. *)
Fixpoint last_value (name : string) (rows : list NodeRow) : option jsval :=
  match rows with
  | [] => None
  | row :: r =>
      match last_value name r with
      | Some v => Some v
      | None =>
          match scalar_entry row with
          | Some (k, v) => if String.eqb name k then Some v else None
          | None => None
          end
      end
  end.

(** A row whose key is the empty string, taken as a row without key. *)
Definition without_empty_key (row : NodeRow) : NodeRow :=
  match key row with
  | Some EmptyString => mkRow None (value row) (type row)
  | _ => row
  end.

Definition has_empty_key (row : NodeRow) : bool :=
  match key row with
  | Some EmptyString => true
  | _ => false
  end.

(** ** Statements about the stored document *)

(** What the document holds at a path once [handleSave] has stored its
    result ([None] when nothing was stored or the path leads nowhere). *)
Definition stored_at (currentJson : string) (nodeData : option NodeData)
  (editedValue : string) (p : list selector) : option jsval :=
  match handleSave currentJson nodeData editedValue with
  | Some updated =>
      match JSON.parse updated with
      | Some doc => get_path doc p
      | None => None
      end
  | None => None
  end.

(** The walk ends on a slot it can write and that holds no object: every
    selector before the last finds, or creates, an object or an array,
    arrays being addressed by index. *)
Fixpoint replaces (cur : jsval) (k : selector) (rest : list selector) : bool :=
  match rest with
  | [] =>
      addressable cur k
      && negb (match child cur k with Some (JObj _) => true | _ => false end)
  | next :: rest' =>
      match child cur k with
      | Some c => replaces c next rest'
      | None => addressable cur k && replaces (fresh next) next rest'
      end
  end.

(** ** The round trip of a node *)

(** The [type] of a row. *)
Definition type_name (v : jsval) : string :=
  match v with
  | JNull => "null"
  | JBool _ => "boolean"
  | JNum _ => "number"
  | JStr _ => "string"
  | JArr _ => "array"
  | JObj _ => "object"
  end.

(** Modelled from the spec: the rows under which the graph shows the node
    at a slot (the graph parser is not under src/).  A scalar is a single
    row without key; an object has one row per property, in order, with
    the property's key and type, and with its value when it is a scalar
    (an array or object row is only a marker). *)
Inductive node_rows : jsval -> list NodeRow -> Prop :=
| rows_of_scalar (v : jsval) :
    is_leaf v = true -> node_rows v [mkRow None v (type_name v)]
| rows_of_object (ps : props) (rows : list NodeRow) :
    Forall2 (fun kv row =>
               key row = Some (fst kv) /\ type row = type_name (snd kv) /\
               (is_leaf (snd kv) = true -> value row = snd kv))
            ps rows ->
    node_rows (JObj ps) rows.

(** The nodes whose unedited text reads back as the node: a string that
    is not itself JSON text, any other scalar, an object other than the
    one whose only key is the empty string. *)
Definition reads_back (target : jsval) : bool :=
  match target with
  | JStr s => match JSON.parse s with Some _ => false | None => true end
  | JObj [(k, _)] => negb (String.eqb k "")
  | _ => true
  end.

(** ** Further notions *)

(** The selectors a path argument stands for. *)
Definition selectors (path : path_arg) : list selector :=
  match path with
  | PathArray l => l
  | PathString EmptyString => []
  | PathString s => [SKey s]
  end.

(** The keys and values of the rows that have a key and are neither array
    nor object rows, in the order of the rows. *)
Definition scalar_entries (rows : list NodeRow) : props :=
  flat_map (fun row => match scalar_entry row with
                       | Some kv => [kv]
                       | None => []
                       end) rows.

(** Modelled from the spec: the document store keeps the text last given
    to [setJson] and [getJson] returns it.  One run of [handleSave] on the
    stored text: the new text on success, the store untouched when the
    save is refused. *)
Definition save_into (stored : string) (save : option NodeData * string) : string :=
  match handleSave stored (fst save) (snd save) with
  | Some updatedJson => updatedJson
  | None => stored
  end.

(** The stored text after a sequence of saves, each on some selected node
    with some text in the editor. *)
Definition document_after (stored : string) (saves : list (option NodeData * string))
  : string :=
  fold_left save_into saves stored.

(** ** Names the language answers for *)

(** The property names at which an object or an array answers without
    owning the property as data: the members of [Object.prototype] and of
    [Array.prototype] (ECMAScript 2025, Annex B included) and the
    [length] of an array.  At these names [in] holds and a read gives a
    method, a prototype or a length, whatever the document holds; at any
    other name the own properties decide, the prototypes holding what the
    standard gives them and nothing more. *)
Definition builtin_names : list string :=
  ["__proto__"; "constructor"; "hasOwnProperty"; "isPrototypeOf";
   "propertyIsEnumerable"; "toLocaleString"; "toString"; "valueOf";
   "__defineGetter__"; "__defineSetter__"; "__lookupGetter__";
   "__lookupSetter__"; "length"; "at"; "concat"; "copyWithin"; "entries";
   "every"; "fill"; "filter"; "find"; "findIndex"; "findLast";
   "findLastIndex"; "flat"; "flatMap"; "forEach"; "includes"; "indexOf";
   "join"; "keys"; "lastIndexOf"; "map"; "pop"; "push"; "reduce";
   "reduceRight"; "reverse"; "shift"; "slice"; "some"; "sort"; "splice";
   "toReversed"; "toSorted"; "toSpliced"; "unshift"; "values"; "with"]%string.

Definition builtin_name (name : string) : bool :=
  existsb (String.eqb name) builtin_names.

(** A selector whose name only own properties answer for. *)
Definition plain (seg : selector) : bool :=
  negb (builtin_name (prop_name seg)).

(** The value the merge leaves under a key: the leaf the edited fields
    give it, unless the key is [__proto__] and the object at the slot
    does not own it; the value the object had otherwise. *)
Definition merged_value (name : string) (fields edits : props) : option jsval :=
  match edited_leaf name edits with
  | Some v =>
      match lookup name fields with
      | None => if String.eqb name "__proto__" then None else Some v
      | Some _ => Some v
      end
  | None => lookup name fields
  end.

(** * Properties *)

(** ** Decimal numerals and array indices *)

Lemma read_digits_uint_chars (d : uint) (rest : list ascii) :
  no_digit_ahead rest -> read_digits (uint_chars d ++ rest) = (d, rest).
Proof.
  intros Hrest.
  induction d; simpl; try (rewrite IHd; reflexivity).
  destruct rest as [|c rest]; [reflexivity|].
  simpl in *. unfold is_digit in Hrest.
  destruct (digit_of c); [discriminate|reflexivity].
Qed.

Lemma nzhead_shape (d : uint) :
  match nzhead d with D0 _ => False | _ => True end.
Proof. induction d; simpl; auto. Qed.

Lemma canonical_unorm (d : uint) : canonical (unorm d) = true.
Proof.
  unfold unorm. pose proof (nzhead_shape d) as H.
  destruct (nzhead d); try reflexivity. contradiction.
Qed.

Lemma canonical_to_uint (n : N) : canonical (N.to_uint n) = true.
Proof.
  rewrite <- (DecimalN.Unsigned.of_to n) at 1.
  rewrite DecimalN.Unsigned.to_of. apply canonical_unorm.
Qed.

Lemma parse_nat_N_digits (n : N) (rest : list ascii) :
  no_digit_ahead rest -> parse_nat (N_digits n ++ rest) = Some (n, rest).
Proof.
  intros Hrest. unfold parse_nat, N_digits.
  rewrite read_digits_uint_chars by assumption.
  rewrite canonical_to_uint, DecimalN.Unsigned.of_to. reflexivity.
Qed.

Lemma array_index_N_to_string (n : N) :
  (n < 4294967295)%N -> array_index (N_to_string n) = Some n.
Proof.
  intros Hn. unfold array_index, N_to_string, N_digits.
  rewrite list_ascii_of_string_of_list_ascii.
  rewrite <- (List.app_nil_r (uint_chars _)).
  rewrite read_digits_uint_chars by exact I.
  rewrite canonical_to_uint, DecimalN.Unsigned.of_to.
  apply N.ltb_lt in Hn. rewrite Hn. reflexivity.
Qed.

(** ** Own properties *)

Lemma lookup_replace_same (k : string) (v : jsval) (ps : props) :
  lookup k ps <> None -> lookup k (replace_prop k v ps) = Some v.
Proof.
  induction ps as [|[k' v'] r IH]; simpl; [congruence|].
  destruct (String.eqb k k') eqn:E; simpl; rewrite E; auto.
Qed.

Lemma lookup_replace_other (k k' : string) (v : jsval) (ps : props) :
  k <> k' -> lookup k' (replace_prop k v ps) = lookup k' ps.
Proof.
  intros Hne.
  induction ps as [|[k0 v0] r IH]; simpl; [reflexivity|].
  destruct (String.eqb k k0) eqn:E; simpl.
  - apply String.eqb_eq in E. subst k0.
    destruct (String.eqb k' k) eqn:E'; [|reflexivity].
    apply String.eqb_eq in E'. congruence.
  - rewrite IH. reflexivity.
Qed.

Lemma lookup_insert_index_same (n : N) (k : string) (v : jsval) (ps : props) :
  lookup k ps = None -> lookup k (insert_index n k v ps) = Some v.
Proof.
  induction ps as [|[k' v'] r IH]; simpl; intros H.
  - rewrite String.eqb_refl. reflexivity.
  - destruct (String.eqb k k') eqn:E; [discriminate|].
    destruct (array_index k') as [m|]; [destruct (m <? n)%N|]; simpl;
      rewrite ?E, ?String.eqb_refl; auto.
Qed.

Lemma lookup_insert_index_other (n : N) (k k' : string) (v : jsval) (ps : props) :
  k <> k' -> lookup k' (insert_index n k v ps) = lookup k' ps.
Proof.
  intros Hne. apply not_eq_sym in Hne. apply String.eqb_neq in Hne.
  induction ps as [|[k0 v0] r IH]; simpl.
  - rewrite Hne. reflexivity.
  - destruct (array_index k0) as [m|]; [destruct (m <? n)%N|]; simpl;
      rewrite ?Hne, ?IH; reflexivity.
Qed.

Lemma lookup_app (k : string) (ps qs : props) :
  lookup k (ps ++ qs) =
  match lookup k ps with Some v => Some v | None => lookup k qs end.
Proof.
  induction ps as [|[k' v'] r IH]; simpl; [reflexivity|].
  destruct (String.eqb k k'); auto.
Qed.

Lemma lookup_define_same (k : string) (v : jsval) (ps : props) :
  lookup k (define_prop k v ps) = Some v.
Proof.
  unfold define_prop. destruct (lookup k ps) eqn:E.
  - apply lookup_replace_same. congruence.
  - destruct (array_index k).
    + apply lookup_insert_index_same. assumption.
    + rewrite lookup_app, E. simpl. rewrite String.eqb_refl. reflexivity.
Qed.

Lemma lookup_define_other (k k' : string) (v : jsval) (ps : props) :
  k <> k' -> lookup k' (define_prop k v ps) = lookup k' ps.
Proof.
  intros Hne. unfold define_prop. destruct (lookup k ps).
  - apply lookup_replace_other. assumption.
  - destruct (array_index k).
    + apply lookup_insert_index_other. assumption.
    + rewrite lookup_app. simpl.
      apply not_eq_sym in Hne. apply String.eqb_neq in Hne. rewrite Hne.
      destruct (lookup k' ps); reflexivity.
Qed.

Lemma lookup_define (k k' : string) (v : jsval) (ps : props) :
  lookup k' (define_prop k v ps) =
  if String.eqb k' k then Some v else lookup k' ps.
Proof.
  destruct (String.eqb k' k) eqn:E.
  - apply String.eqb_eq in E. subst. apply lookup_define_same.
  - apply String.eqb_neq in E. apply lookup_define_other. congruence.
Qed.

(** Writing back the value a key already has changes nothing. *)
Lemma replace_prop_same_value (k : string) (v : jsval) (ps : props) :
  lookup k ps = Some v -> replace_prop k v ps = ps.
Proof.
  induction ps as [|[k' v'] r IH]; simpl; [reflexivity|].
  destruct (String.eqb k k') eqn:E; intros H.
  - congruence.
  - rewrite IH by assumption. reflexivity.
Qed.

Lemma define_prop_same_value (k : string) (v : jsval) (ps : props) :
  lookup k ps = Some v -> define_prop k v ps = ps.
Proof.
  intros H. unfold define_prop. rewrite H. apply replace_prop_same_value, H.
Qed.

(** ** Array elements *)

Lemma nth_error_array_store (n : nat) (v : jsval) (l : list jsval) :
  nth_error (array_store n v l) n = Some v.
Proof.
  revert l. induction n as [|n IH]; intros [|x r]; simpl; auto.
Qed.

Lemma array_store_same_value (n : nat) (v : jsval) (l : list jsval) :
  nth_error l n = Some v -> array_store n v l = l.
Proof.
  revert l. induction n as [|n IH]; intros [|x r]; simpl; try discriminate.
  - congruence.
  - intros H. rewrite IH by assumption. reflexivity.
Qed.

Lemma wf_JArr (l : list jsval) : wf (JArr l) <-> Forall wf l.
Proof.
  induction l as [|x r IH]; simpl.
  - split; auto.
  - simpl in IH. rewrite IH. split.
    + intros [H1 H2]. constructor; assumption.
    + intros H. inversion H; subst. split; assumption.
Qed.

Lemma wf_JObj (ps : props) :
  wf (JObj ps) <-> wf_keys (map fst ps) /\ Forall (fun kv => wf (snd kv)) ps.
Proof.
  simpl. apply and_iff_compat_l.
  induction ps as [|kv r IH]; simpl.
  - split; auto.
  - rewrite IH. split.
    + intros [H1 H2]. constructor; assumption.
    + intros H. inversion H; subst. split; assumption.
Qed.

Lemma read_digits_all (l : list ascii) (d : uint) :
  read_digits l = (d, []) -> l = uint_chars d.
Proof.
  revert d. induction l as [|c r IH]; simpl; intros d H.
  - inversion H. reflexivity.
  - destruct (digit_of c) as [D|] eqn:E; [|discriminate].
    destruct (read_digits r) as [d' r'] eqn:E'.
    inversion H; subst. rewrite (IH d' eq_refl).
    destruct c as [[] [] [] [] [] [] [] []]; simpl in E; try discriminate;
      inversion E; reflexivity.
Qed.

Lemma canonical_unorm_id (d : uint) : canonical d = true -> unorm d = d.
Proof.
  destruct d as [|d| | | | | | | | |]; simpl; try discriminate; try reflexivity.
  destruct d; simpl; try discriminate. reflexivity.
Qed.

(** An array index is the numeral of exactly one property name. *)
Lemma array_index_Some (s : string) (n : N) :
  array_index s = Some n -> s = N_to_string n.
Proof.
  unfold array_index. destruct (read_digits (list_ascii_of_string s)) as [d r] eqn:E.
  destruct r; [|discriminate].
  destruct (canonical d) eqn:C; simpl; [|discriminate].
  destruct (N.of_uint d <? 4294967295)%N; [|discriminate].
  intros H. inversion H; subst. unfold N_to_string, N_digits.
  rewrite DecimalN.Unsigned.to_of, canonical_unorm_id by assumption.
  rewrite <- (read_digits_all _ _ E). symmetry. apply string_of_list_ascii_of_string.
Qed.

Lemma lookup_None (k : string) (ps : props) :
  lookup k ps = None <-> ~ In k (map fst ps).
Proof.
  induction ps as [|[k' v'] r IH]; simpl.
  - tauto.
  - destruct (String.eqb k k') eqn:E.
    + apply String.eqb_eq in E. subst. split; [discriminate|tauto].
    + apply String.eqb_neq in E. rewrite IH. split; intros H.
      * intros [H'|H']; [congruence|tauto].
      * tauto.
Qed.

Lemma keys_replace_prop (k : string) (v : jsval) (ps : props) :
  map fst (replace_prop k v ps) = map fst ps.
Proof.
  induction ps as [|[k' v'] r IH]; simpl; [reflexivity|].
  destruct (String.eqb k k'); simpl; congruence.
Qed.

Lemma keys_insert_index (n : N) (k : string) (v : jsval) (ps : props) :
  exists l1 l2, map fst ps = l1 ++ l2 /\
                map fst (insert_index n k v ps) = l1 ++ k :: l2.
Proof.
  induction ps as [|[k' v'] r (l1 & l2 & H1 & H2)]; simpl.
  - exists [], []. auto.
  - destruct (array_index k') as [m|]; [destruct (m <? n)%N|].
    + exists (k' :: l1), l2. simpl. rewrite H1, H2. auto.
    + exists [], (k' :: map fst r). auto.
    + exists [], (k' :: map fst r). auto.
Qed.

Lemma sorted_insert_index (n : N) (k : string) (v : jsval) (ps : props) :
  array_index k = Some n -> ~ In k (map fst ps) ->
  StronglySorted key_before (map fst ps) ->
  StronglySorted key_before (map fst (insert_index n k v ps)).
Proof.
  intros Hk.
  induction ps as [|[k' v'] r IH]; simpl; intros Hnin Hs.
  - repeat constructor.
  - inversion Hs as [|? ? Hs' Hall]; subst.
    assert (Hne : k' <> k) by tauto.
    destruct (array_index k') as [m|] eqn:Ek'.
    + destruct (m <? n)%N eqn:Lt.
      * simpl. constructor; [apply IH; tauto|].
        destruct (keys_insert_index n k v r) as (l1 & l2 & H1 & H2).
        rewrite H2. rewrite H1 in Hall.
        apply Forall_app in Hall as [Ha Hb].
        apply Forall_app. split; [assumption|]. constructor; [|assumption].
        unfold key_before. rewrite Ek', Hk. apply N.ltb_lt. assumption.
      * simpl. constructor; [assumption|].
        assert (Hlt : (n < m)%N).
        { apply N.ltb_ge in Lt. destruct (N.eq_dec n m) as [->|]; [|lia].
          apply array_index_Some in Ek', Hk. congruence. }
        constructor.
        -- unfold key_before. rewrite Ek', Hk. assumption.
        -- eapply Forall_impl; [|exact Hall]. intros a.
           unfold key_before. rewrite Ek', Hk.
           destruct (array_index a); [lia|tauto].
    + simpl. constructor; [assumption|]. constructor.
      * unfold key_before. rewrite Ek', Hk. exact I.
      * eapply Forall_impl; [|exact Hall]. intros a.
        unfold key_before. rewrite Ek', Hk.
        destruct (array_index a); tauto.
Qed.

Lemma sorted_app_last (k : string) (ks : list string) :
  array_index k = None ->
  StronglySorted key_before ks -> StronglySorted key_before (ks ++ [k]).
Proof.
  intros Hk. induction ks as [|a r IH]; simpl; intros Hs.
  - repeat constructor.
  - inversion Hs; subst. constructor; [auto|].
    apply Forall_app. split; [assumption|]. constructor; [|constructor].
    unfold key_before. rewrite Hk. destruct (array_index a); exact I.
Qed.

Lemma wf_keys_define_prop (k : string) (v : jsval) (ps : props) :
  wf_keys (map fst ps) -> wf_keys (map fst (define_prop k v ps)).
Proof.
  intros [Hnd Hs]. unfold define_prop.
  destruct (lookup k ps) eqn:E.
  - rewrite keys_replace_prop. split; assumption.
  - apply lookup_None in E. destruct (array_index k) as [n|] eqn:Ek.
    + split; [|apply sorted_insert_index; assumption].
      destruct (keys_insert_index n k v ps) as (l1 & l2 & H1 & H2).
      rewrite H2. rewrite H1 in Hnd, E.
      apply NoDup_Add with (a := k) (l := l1 ++ l2); [apply Add_app|].
      split; assumption.
    + rewrite map_app. simpl. split; [|apply sorted_app_last; assumption].
      apply NoDup_Add with (a := k) (l := map fst ps ++ []).
      * apply Add_app.
      * rewrite List.app_nil_r. split; assumption.
Qed.

Lemma Forall_define_prop (P : string * jsval -> Prop) (k : string) (v : jsval)
  (ps : props) :
  P (k, v) -> (forall v', P (k, v') -> P (k, v)) ->
  Forall P ps -> Forall P (define_prop k v ps).
Proof.
  intros Hkv _ Hall. unfold define_prop. destruct (lookup k ps).
  - clear -Hkv Hall. induction ps as [|[k' v'] r IH]; simpl; [constructor|].
    inversion Hall; subst.
    destruct (String.eqb k k') eqn:E.
    + apply String.eqb_eq in E. subst. constructor; assumption.
    + constructor; auto.
  - destruct (array_index k) as [n|].
    + clear -Hkv Hall. induction ps as [|[k' v'] r IH]; simpl.
      * constructor; auto.
      * inversion Hall; subst.
        destruct (array_index k') as [m|]; [destruct (m <? n)%N|];
          repeat (constructor; auto).
    + apply Forall_app. split; [assumption|]. constructor; auto.
Qed.

Lemma wf_define_prop (k : string) (v : jsval) (ps : props) :
  wf v -> wf (JObj ps) -> wf (JObj (define_prop k v ps)).
Proof.
  rewrite !wf_JObj. intros Hv [Hk Hall]. split.
  - apply wf_keys_define_prop. assumption.
  - apply (Forall_define_prop (fun kv => wf (snd kv))); auto.
Qed.

Lemma sorted_before_middle (x : string) (l1 l2 : list string) :
  StronglySorted key_before (l1 ++ x :: l2) ->
  Forall (fun a => key_before a x) l1.
Proof.
  induction l1 as [|a r IH]; simpl; intros H; [constructor|].
  inversion H as [|? ? Hs Hall]; subst. constructor; [|auto].
  apply Forall_app in Hall as [_ Hall]. inversion Hall; assumption.
Qed.

Lemma insert_index_last (n : N) (k : string) (v : jsval) (ps : props) :
  array_index k = Some n ->
  Forall (fun a => key_before a k) (map fst ps) ->
  insert_index n k v ps = ps ++ [(k, v)].
Proof.
  intros Hk. induction ps as [|[k' v'] r IH]; simpl; intros H; [reflexivity|].
  inversion H as [|? ? Hb Hr]; subst. unfold key_before in Hb. rewrite Hk in Hb.
  destruct (array_index k') as [m|]; [|contradiction].
  apply N.ltb_lt in Hb. rewrite Hb, IH by assumption. reflexivity.
Qed.

(** Defining the properties of a well-formed object one after the other,
    in their order, rebuilds the object. *)
Lemma rebuild_props (suf pre : props) :
  wf_keys (map fst (pre ++ suf)) ->
  fold_left (fun acc kv => define_prop (fst kv) (snd kv) acc) suf pre = pre ++ suf.
Proof.
  revert pre. induction suf as [|[k v] suf IH]; intros pre Hwf; simpl.
  - rewrite List.app_nil_r. reflexivity.
  - assert (Hstep : define_prop k v pre = pre ++ [(k, v)]).
    { destruct Hwf as [Hnd Hs]. rewrite map_app in Hnd, Hs. simpl in Hnd, Hs.
      apply NoDup_remove_2 in Hnd.
      assert (Hnin : ~ In k (map fst pre)).
      { intros Hin. apply Hnd. apply in_or_app. left. assumption. }
      apply lookup_None in Hnin. unfold define_prop. rewrite Hnin.
      destruct (array_index k) as [n|] eqn:Ek; [|reflexivity].
      apply insert_index_last; [assumption|].
      eapply sorted_before_middle. eassumption. }
    rewrite Hstep, IH.
    + rewrite <- app_assoc. reflexivity.
    + rewrite <- app_assoc. assumption.
Qed.

Lemma build_object_wf (ps : props) :
  wf_keys (map fst ps) -> build_object ps = JObj ps.
Proof.
  intros H. unfold build_object. rewrite rebuild_props; auto.
Qed.

(** ** [JSON.parse] reads back what [JSON.stringify] writes *)

Lemma skip_ws_length (s : list ascii) : List.length (skip_ws s) <= List.length s.
Proof.
  induction s as [|c r IH]; simpl; [lia|].
  destruct (is_ws c); simpl; lia.
Qed.

Lemma skip_ws_indent (d : nat) (t : list ascii) :
  skip_ws (indent d ++ t) = skip_ws t.
Proof.
  unfold indent. induction (2 * d) as [|n IH]; simpl; auto.
Qed.

Lemma starts_value_facts (c : ascii) :
  starts_value c = true ->
  is_ws c = false /\ Ascii.eqb c "]"%char = false /\ Ascii.eqb c "}"%char = false.
Proof.
  destruct c as [[] [] [] [] [] [] [] []]; vm_compute; intros H;
    try discriminate; repeat split.
Qed.

Lemma is_digit_facts (c : ascii) :
  is_digit c = true ->
  Ascii.eqb c "{"%char = false /\ Ascii.eqb c "["%char = false /\
  Ascii.eqb c dquote = false /\ Ascii.eqb c "-"%char = false.
Proof.
  destruct c as [[] [] [] [] [] [] [] []]; vm_compute; intros H;
    try discriminate; repeat split.
Qed.

Lemma quote_char_body (c : ascii) (t : list ascii) :
  parse_string_body (quote_char c ++ t) = prepend c (parse_string_body t).
Proof.
  destruct c as [[] [] [] [] [] [] [] []]; reflexivity.
Qed.

Lemma string_body_roundtrip (cs rest : list ascii) :
  parse_string_body (flat_map quote_char cs ++ dquote :: rest) = Some (cs, rest).
Proof.
  induction cs as [|c r IH]; simpl.
  - reflexivity.
  - rewrite <- app_assoc, quote_char_body, IH. reflexivity.
Qed.

Lemma N_digits_head (n : N) :
  exists c cs, N_digits n = c :: cs /\ is_digit c = true.
Proof.
  unfold N_digits. pose proof (canonical_to_uint n) as H.
  destruct (N.to_uint n); simpl in *; try discriminate; eauto.
Qed.

Lemma starts_value_digit (c : ascii) : is_digit c = true -> starts_value c = true.
Proof.
  intros H. unfold starts_value. rewrite H, !orb_true_r. reflexivity.
Qed.

Lemma ser_head (d : nat) (v : jsval) :
  exists c cs, ser d v = c :: cs /\ starts_value c = true.
Proof.
  destruct v as [|[]|z|s|[|x l]|[|kv l]]; simpl; eauto.
  - destruct z as [|p|p]; unfold Z_digits.
    + destruct (N_digits_head (Z.to_N 0)) as (c & cs & H1 & H2).
      rewrite H1. eauto using starts_value_digit.
    + destruct (N_digits_head (Z.to_N (Zpos p))) as (c & cs & H1 & H2).
      rewrite H1. eauto using starts_value_digit.
    + eauto.
  - unfold quote. eauto.
Qed.

Lemma skip_ws_head (c : ascii) (t : list ascii) :
  starts_value c = true -> skip_ws (c :: t) = c :: t.
Proof.
  intros H. apply starts_value_facts in H as (H & _). simpl. rewrite H. reflexivity.
Qed.

Lemma join_one (sep a : list ascii) : join sep [a] = a.
Proof. reflexivity. Qed.

Lemma join_more (sep a b : list ascii) (l : list (list ascii)) :
  join sep (a :: b :: l) = a ++ sep ++ join sep (b :: l).
Proof. reflexivity. Qed.

Lemma parse_value_eq (fuel : nat) (s : list ascii) :
  parse_value (S fuel) s =
  match skip_ws s with
  | [] => None
  | c :: r =>
      if Ascii.eqb c "{"%char then
        match expect "}"%char r with
        | Some r' => Some (JObj [], r')
        | None =>
            match parse_members fuel r with
            | Some (ms, r') => Some (build_object ms, r')
            | None => None
            end
        end
      else if Ascii.eqb c "["%char then
        match expect "]"%char r with
        | Some r' => Some (JArr [], r')
        | None =>
            match parse_elems fuel r with
            | Some (vs, r') => Some (JArr vs, r')
            | None => None
            end
        end
      else if Ascii.eqb c dquote then
        match parse_string_body r with
        | Some (cs, r') => Some (JStr (string_of_list_ascii cs), r')
        | None => None
        end
      else if Ascii.eqb c "-"%char then
        match parse_nat r with
        | Some (n, r') => Some (JNum (- Z.of_N n), r')
        | None => None
        end
      else if is_digit c then
        match parse_nat (c :: r) with
        | Some (n, r') => Some (JNum (Z.of_N n), r')
        | None => None
        end
      else parse_keyword (c :: r)
  end.
Proof. reflexivity. Qed.

Lemma parse_elems_eq (fuel : nat) (s : list ascii) :
  parse_elems (S fuel) s =
  match parse_value fuel s with
  | Some (v, r) =>
      match expect ","%char r with
      | Some r1 =>
          match parse_elems fuel r1 with
          | Some (vs, r2) => Some (v :: vs, r2)
          | None => None
          end
      | None =>
          match expect "]"%char r with
          | Some r1 => Some ([v], r1)
          | None => None
          end
      end
  | None => None
  end.
Proof. reflexivity. Qed.

Lemma parse_members_eq (fuel : nat) (s : list ascii) :
  parse_members (S fuel) s =
  match expect dquote s with
  | Some r =>
      match parse_string_body r with
      | Some (k, r1) =>
          match expect ":"%char r1 with
          | Some r2 =>
              match parse_value fuel r2 with
              | Some (v, r3) =>
                  match expect ","%char r3 with
                  | Some r4 =>
                      match parse_members fuel r4 with
                      | Some (ms, r5) => Some ((string_of_list_ascii k, v) :: ms, r5)
                      | None => None
                      end
                  | None =>
                      match expect "}"%char r3 with
                      | Some r4 => Some ([(string_of_list_ascii k, v)], r4)
                      | None => None
                      end
                  end
              | None => None
              end
          | None => None
          end
      | None => None
      end
  | None => None
  end.
Proof. reflexivity. Qed.

Lemma expect_closing (d : nat) (ch : ascii) (rest : list ascii) :
  is_ws ch = false -> expect ch (closing d ch rest) = Some rest.
Proof.
  intros H. unfold expect, closing. simpl. rewrite skip_ws_indent. simpl.
  rewrite H, Ascii.eqb_refl. reflexivity.
Qed.

Lemma expect_closing_other (d : nat) (ch ch' : ascii) (rest : list ascii) :
  is_ws ch = false -> Ascii.eqb ch ch' = false ->
  expect ch' (closing d ch rest) = None.
Proof.
  intros H H'. unfold expect, closing. simpl. rewrite skip_ws_indent. simpl.
  rewrite H, H'. reflexivity.
Qed.

Lemma skip_ws_value (d : nat) (c : ascii) (t : list ascii) :
  starts_value c = true ->
  skip_ws (newline :: indent d ++ c :: t) = c :: t.
Proof.
  intros H. simpl. rewrite skip_ws_indent. apply skip_ws_head, H.
Qed.

Lemma member_app (d : nat) (k : string) (v : jsval) (t : list ascii) :
  member d (k, v) ++ t =
  dquote :: flat_map quote_char (chars k)
    ++ dquote :: ":"%char :: " "%char :: ser d v ++ t.
Proof.
  unfold member, quote. cbn [fst snd].
  rewrite <- !app_comm_cons, <- !app_assoc. reflexivity.
Qed.

Lemma ser_JArr_app (d : nat) (x : jsval) (l : list jsval) (rest : list ascii) :
  ser d (JArr (x :: l)) ++ rest =
  "["%char :: newline :: indent (S d)
    ++ join (separator (S d)) (map (ser (S d)) (x :: l)) ++ closing d "]"%char rest.
Proof.
  change (ser d (JArr (x :: l))) with
    ("["%char :: newline :: indent (S d)
       ++ join (separator (S d)) (map (ser (S d)) (x :: l))
       ++ newline :: indent d ++ ["]"%char]).
  unfold closing. simpl. rewrite <- !app_assoc. simpl.
  rewrite <- !app_assoc. reflexivity.
Qed.

Lemma ser_JObj_app (d : nat) (kv : string * jsval) (l : props) (rest : list ascii) :
  ser d (JObj (kv :: l)) ++ rest =
  "{"%char :: newline :: indent (S d)
    ++ join (separator (S d)) (map (member (S d)) (kv :: l)) ++ closing d "}"%char rest.
Proof.
  change (ser d (JObj (kv :: l))) with
    ("{"%char :: newline :: indent (S d)
       ++ join (separator (S d)) (map (member (S d)) (kv :: l))
       ++ newline :: indent d ++ ["}"%char]).
  unfold closing. simpl. rewrite <- !app_assoc. simpl.
  rewrite <- !app_assoc. reflexivity.
Qed.

Lemma join_head (sep : list ascii) (c : ascii) (cs : list ascii)
  (l : list (list ascii)) (t : list ascii) :
  exists t', join sep ((c :: cs) :: l) ++ t = c :: t'.
Proof.
  destruct l; simpl; eauto.
Qed.

Lemma expect_here (ch : ascii) (t : list ascii) :
  is_ws ch = false -> expect ch (ch :: t) = Some t.
Proof.
  intros H. unfold expect. simpl. rewrite H, Ascii.eqb_refl. reflexivity.
Qed.

Lemma expect_value (ch c : ascii) (d : nat) (t : list ascii) :
  starts_value c = true -> Ascii.eqb c ch = false ->
  expect ch (newline :: indent d ++ c :: t) = None.
Proof.
  intros H H'. unfold expect. rewrite skip_ws_value by assumption.
  rewrite H'. reflexivity.
Qed.

Lemma no_digit_closing (d : nat) (ch : ascii) (rest : list ascii) :
  no_digit_ahead (closing d ch rest).
Proof. reflexivity. Qed.

Lemma no_digit_separator (d : nat) (t : list ascii) :
  no_digit_ahead (separator d ++ t).
Proof. reflexivity. Qed.

Lemma parse_number_text (fuel : nat) (s rest : list ascii) (z : Z) :
  no_digit_ahead rest -> skip_ws s = Z_digits z ++ rest ->
  parse_value (S fuel) s = Some (JNum z, rest).
Proof.
  intros Hrest Hs. rewrite parse_value_eq.
  assert (Hnat : forall n, exists c cs,
             N_digits n ++ rest = c :: cs /\ is_digit c = true /\
             parse_nat (c :: cs) = Some (n, rest)).
  { intros n. destruct (N_digits_head n) as (c & cs & H1 & H2).
    exists c, (cs ++ rest). rewrite app_comm_cons, <- H1.
    auto using parse_nat_N_digits. }
  destruct z as [|p|p]; unfold Z_digits in Hs.
  - destruct (Hnat (Z.to_N 0)) as (c & cs & H1 & H2 & H3).
    rewrite Hs, H1.
    destruct (is_digit_facts c H2) as (-> & -> & -> & ->).
    rewrite H2, H3. reflexivity.
  - destruct (Hnat (Z.to_N (Zpos p))) as (c & cs & H1 & H2 & H3).
    rewrite Hs, H1.
    destruct (is_digit_facts c H2) as (-> & -> & -> & ->).
    rewrite H2, H3. reflexivity.
  - rewrite Hs, <- app_comm_cons.
    change (Ascii.eqb "-"%char "{"%char) with false.
    change (Ascii.eqb "-"%char "["%char) with false.
    change (Ascii.eqb "-"%char dquote) with false.
    change (Ascii.eqb "-"%char "-"%char) with true.
    cbv iota. rewrite parse_nat_N_digits by assumption. reflexivity.
Qed.

Lemma parse_string_text (fuel : nat) (s rest : list ascii) (str : string) :
  skip_ws s = quote str ++ rest ->
  parse_value (S fuel) s = Some (JStr str, rest).
Proof.
  intros Hs. rewrite parse_value_eq, Hs. unfold quote.
  rewrite <- app_comm_cons, <- app_assoc.
  change (Ascii.eqb dquote "{"%char) with false.
  change (Ascii.eqb dquote "["%char) with false.
  rewrite Ascii.eqb_refl. cbv iota.
  change ([dquote] ++ rest) with (dquote :: rest).
  rewrite string_body_roundtrip. unfold chars.
  rewrite string_of_list_ascii_of_string. reflexivity.
Qed.

Lemma parse_keyword_text (fuel : nat) (s rest : list ascii) (v : jsval) :
  match v with JNull | JBool _ => True | _ => False end ->
  skip_ws s = ser 0 v ++ rest ->
  parse_value (S fuel) s = Some (v, rest).
Proof.
  intros Hv Hs. rewrite parse_value_eq, Hs.
  destruct v as [|[]| | | |]; try contradiction; reflexivity.
Qed.

Lemma value_ahead_app (a t : list ascii) : value_ahead a -> value_ahead (a ++ t).
Proof. destruct a; simpl; [contradiction|auto]. Qed.

Lemma value_ahead_ser (d : nat) (v : jsval) : value_ahead (ser d v).
Proof.
  destruct (ser_head d v) as (c & cs & -> & H). exact H.
Qed.

Lemma value_ahead_join (sep a : list ascii) (l : list (list ascii)) (t : list ascii) :
  value_ahead a -> value_ahead (join sep (a :: l) ++ t).
Proof.
  intros H. destruct l as [|b l].
  - rewrite join_one. apply value_ahead_app, H.
  - rewrite join_more, <- app_assoc. apply value_ahead_app, H.
Qed.

Lemma value_ahead_elems (d : nat) (x : jsval) (l : list jsval) (t : list ascii) :
  value_ahead (join (separator d) (map (ser d) (x :: l)) ++ t).
Proof.
  rewrite map_cons. apply value_ahead_join, value_ahead_ser.
Qed.

Lemma value_ahead_members (d : nat) (kv : string * jsval) (l : props) (t : list ascii) :
  value_ahead (join (separator d) (map (member d) (kv :: l)) ++ t).
Proof.
  rewrite map_cons. apply value_ahead_join. reflexivity.
Qed.

Lemma skip_ws_ahead (t : list ascii) : value_ahead t -> skip_ws t = t.
Proof.
  destruct t as [|c t]; [contradiction|]. apply skip_ws_head.
Qed.

Lemma skip_ws_line (d : nat) (t : list ascii) :
  value_ahead t -> skip_ws (newline :: indent d ++ t) = t.
Proof.
  intros H. simpl. rewrite skip_ws_indent. apply skip_ws_ahead, H.
Qed.

Lemma expect_line (ch : ascii) (d : nat) (t : list ascii) :
  value_ahead t -> starts_value ch = false ->
  expect ch (newline :: indent d ++ t) = None.
Proof.
  intros H Hch. unfold expect. rewrite skip_ws_line by assumption.
  destruct t as [|c t]; [reflexivity|]. simpl in H.
  destruct (Ascii.eqb_spec c ch); [congruence|reflexivity].
Qed.

Lemma length_line (d : nat) (t : list ascii) :
  List.length t <= List.length (newline :: indent d ++ t).
Proof. simpl. rewrite length_app. lia. Qed.

Lemma parse_roundtrip_fuel (fuel : nat) :
  (forall v d rest s,
      wf v -> no_digit_ahead rest -> skip_ws s = ser d v ++ rest ->
      2 * List.length s < fuel -> parse_value fuel s = Some (v, rest)) /\
  (forall x l d d0 rest s,
      Forall wf (x :: l) ->
      skip_ws s = join (separator d) (map (ser d) (x :: l)) ++ closing d0 "]"%char rest ->
      2 * List.length s + 1 < fuel -> parse_elems fuel s = Some (x :: l, rest)) /\
  (forall kv l d d0 rest s,
      Forall (fun kv => wf (snd kv)) (kv :: l) ->
      skip_ws s = join (separator d) (map (member d) (kv :: l)) ++ closing d0 "}"%char rest ->
      2 * List.length s + 1 < fuel -> parse_members fuel s = Some (kv :: l, rest)).
Proof.
  induction fuel as [|f (IHv & IHe & IHm)].
  { repeat split; intros; lia. }
  repeat split.
  - (* values *)
    intros v d rest s Hwf Hrest Hs Hlen.
    pose proof (skip_ws_length s) as Hle. rewrite Hs in Hle.
    destruct v as [|b|z|str|[|x l]|[|kv l]].
    + rewrite parse_value_eq, Hs. reflexivity.
    + rewrite parse_value_eq, Hs. destruct b; reflexivity.
    + apply parse_number_text; assumption.
    + apply parse_string_text; assumption.
    + rewrite parse_value_eq, Hs. reflexivity.
    + rewrite ser_JArr_app in Hs, Hle. rewrite parse_value_eq, Hs.
      change (Ascii.eqb "["%char "{"%char) with false.
      change (Ascii.eqb "["%char "["%char) with true. cbv iota.
      rewrite expect_line by (apply value_ahead_elems || reflexivity).
      rewrite (IHe x l (S d) d rest).
      * reflexivity.
      * apply wf_JArr. assumption.
      * apply skip_ws_line, value_ahead_elems.
      * simpl List.length in Hle. simpl List.length. lia.
    + rewrite parse_value_eq, Hs. reflexivity.
    + rewrite ser_JObj_app in Hs, Hle. rewrite parse_value_eq, Hs.
      change (Ascii.eqb "{"%char "{"%char) with true. cbv iota.
      rewrite expect_line by (apply value_ahead_members || reflexivity).
      apply wf_JObj in Hwf as [Hk Hall].
      rewrite (IHm kv l (S d) d rest).
      * rewrite build_object_wf by assumption. reflexivity.
      * assumption.
      * apply skip_ws_line, value_ahead_members.
      * simpl List.length in Hle. simpl List.length. lia.
  - (* elements *)
    intros x l d d0 rest s Hwf Hs Hlen.
    pose proof (skip_ws_length s) as Hle. rewrite Hs in Hle.
    inversion Hwf as [|? ? Hx Hl]; subst.
    rewrite parse_elems_eq. destruct l as [|y l].
    + rewrite map_cons, join_one in Hs.
      rewrite (IHv x d (closing d0 "]"%char rest)); auto using no_digit_closing; [|lia].
      rewrite expect_closing_other, expect_closing by reflexivity. reflexivity.
    + rewrite map_cons, map_cons, join_more, <- map_cons in Hs, Hle.
      rewrite <- !app_assoc in Hs, Hle.
      rewrite (IHv x d _ s Hx (no_digit_separator _ _) Hs) by lia.
      unfold separator at 1. rewrite <- !app_comm_cons.
      rewrite expect_here by reflexivity.
      rewrite (IHe y l d d0 rest).
      * reflexivity.
      * assumption.
      * apply skip_ws_line, value_ahead_elems.
      * unfold separator in Hle at 1. rewrite length_app in Hle.
        simpl List.length in Hle. simpl List.length. lia.
  - (* members *)
    intros [k v] l d d0 rest s Hwf Hs Hlen.
    pose proof (skip_ws_length s) as Hle. rewrite Hs in Hle.
    inversion Hwf as [|? ? Hx Hl]; subst. simpl in Hx.
    assert (Hstep : forall T, no_digit_ahead T ->
              skip_ws s = member d (k, v) ++ T ->
              parse_members (S f) s =
              match expect ","%char T with
              | Some r4 =>
                  match parse_members f r4 with
                  | Some (ms, r5) => Some ((k, v) :: ms, r5)
                  | None => None
                  end
              | None =>
                  match expect "}"%char T with
                  | Some r4 => Some ([(k, v)], r4)
                  | None => None
                  end
              end).
    { intros T HT HsT.
      pose proof (skip_ws_length s) as HleT. rewrite HsT, member_app in HleT.
      rewrite parse_members_eq. unfold expect at 1.
      rewrite HsT, member_app, Ascii.eqb_refl, string_body_roundtrip.
      rewrite expect_here by reflexivity.
      rewrite (IHv v d T (" "%char :: ser d v ++ T)); auto.
      - unfold chars. rewrite string_of_list_ascii_of_string. reflexivity.
      - change (skip_ws (ser d v ++ T) = ser d v ++ T).
        apply skip_ws_ahead, value_ahead_app, value_ahead_ser.
      - simpl List.length in HleT. rewrite length_app in HleT.
        simpl List.length in HleT. simpl List.length. lia. }
    destruct l as [|kv l].
    + rewrite map_cons, join_one in Hs.
      rewrite (Hstep _ (no_digit_closing _ _ _) Hs).
      rewrite expect_closing_other, expect_closing by reflexivity. reflexivity.
    + rewrite map_cons, map_cons, join_more, <- map_cons in Hs, Hle.
      rewrite <- !app_assoc in Hs, Hle.
      rewrite (Hstep _ (no_digit_separator _ _) Hs).
      unfold separator at 1. rewrite <- !app_comm_cons.
      rewrite expect_here by reflexivity.
      rewrite (IHm kv l d d0 rest).
      * reflexivity.
      * assumption.
      * apply skip_ws_line, value_ahead_members.
      * unfold separator in Hle at 1. rewrite length_app in Hle.
        simpl List.length in Hle. simpl List.length. lia.
Qed.

(** Parsing the serialisation of a well-formed value gives the value. *)
Lemma parse_of_stringify (v : jsval) :
  wf v -> JSON.parse (JSON.stringify v) = Some v.
Proof.
  intros Hwf. unfold JSON.parse, JSON.stringify, chars.
  rewrite list_ascii_of_string_of_list_ascii.
  destruct (parse_roundtrip_fuel (2 * List.length (ser 0 v) + 2)) as (Hv & _).
  rewrite (Hv v 0 []).
  - reflexivity.
  - assumption.
  - exact I.
  - rewrite List.app_nil_r. apply skip_ws_ahead, value_ahead_ser.
  - lia.
Qed.

Lemma wf_build_object (ms : props) :
  Forall (fun kv => wf (snd kv)) ms -> wf (build_object ms).
Proof.
  unfold build_object. intros H.
  assert (Hacc : wf (JObj [])) by (simpl; repeat constructor).
  revert Hacc. generalize (@nil (string * jsval)).
  induction H as [|[k v] ms Hv Hms IH]; intros acc Hacc; simpl.
  - assumption.
  - apply IH. apply wf_define_prop; assumption.
Qed.

Lemma parse_wf_fuel (fuel : nat) :
  (forall s v r, parse_value fuel s = Some (v, r) -> wf v) /\
  (forall s vs r, parse_elems fuel s = Some (vs, r) -> Forall wf vs) /\
  (forall s ms r, parse_members fuel s = Some (ms, r) ->
                  Forall (fun kv => wf (snd kv)) ms).
Proof.
  induction fuel as [|f (IHv & IHe & IHm)].
  { repeat split; intros; discriminate. }
  repeat split.
  - intros s v r. rewrite parse_value_eq.
    destruct (skip_ws s) as [|c t]; [discriminate|].
    destruct (Ascii.eqb c "{"%char).
    { destruct (expect "}"%char t).
      - intros H. inversion H. simpl. repeat constructor.
      - destruct (parse_members f t) as [[ms r']|] eqn:E; [|discriminate].
        intros H. inversion H; subst. eapply wf_build_object, IHm, E. }
    destruct (Ascii.eqb c "["%char).
    { destruct (expect "]"%char t).
      - intros H. inversion H. exact I.
      - destruct (parse_elems f t) as [[vs r']|] eqn:E; [|discriminate].
        intros H. inversion H; subst. eapply wf_JArr, IHe, E. }
    destruct (Ascii.eqb c dquote).
    { destruct (parse_string_body t) as [[cs r']|]; [|discriminate].
      intros H. inversion H. exact I. }
    destruct (Ascii.eqb c "-"%char).
    { destruct (parse_nat t) as [[n r']|]; [|discriminate].
      intros H. inversion H. exact I. }
    destruct (is_digit c).
    { destruct (parse_nat (c :: t)) as [[n r']|]; [|discriminate].
      intros H. inversion H. exact I. }
    unfold parse_keyword.
    destruct (strip_prefix (chars "null") (c :: t));
      [intros H; inversion H; exact I|].
    destruct (strip_prefix (chars "true") (c :: t));
      [intros H; inversion H; exact I|].
    destruct (strip_prefix (chars "false") (c :: t));
      [intros H; inversion H; exact I|discriminate].
  - intros s vs r. rewrite parse_elems_eq.
    destruct (parse_value f s) as [[v t]|] eqn:E; [|discriminate].
    apply IHv in E.
    destruct (expect ","%char t).
    + destruct (parse_elems f l) as [[vs' r']|] eqn:E'; [|discriminate].
      intros H. inversion H; subst. constructor; eauto.
    + destruct (expect "]"%char t); [|discriminate].
      intros H. inversion H; subst. constructor; auto.
  - intros s ms r. rewrite parse_members_eq.
    destruct (expect dquote s) as [t|]; [|discriminate].
    destruct (parse_string_body t) as [[k t1]|]; [|discriminate].
    destruct (expect ":"%char t1) as [t2|]; [|discriminate].
    destruct (parse_value f t2) as [[v t3]|] eqn:E; [|discriminate].
    apply IHv in E.
    destruct (expect ","%char t3) as [t4|].
    + destruct (parse_members f t4) as [[ms' r']|] eqn:E'; [|discriminate].
      intros H. inversion H; subst. constructor; eauto.
    + destruct (expect "}"%char t3); [|discriminate].
      intros H. inversion H; subst. constructor; auto.
Qed.

(** Every value [JSON.parse] returns is well formed. *)
Lemma parse_is_wf (text : string) (v : jsval) :
  JSON.parse text = Some v -> wf v.
Proof.
  unfold JSON.parse.
  destruct (parse_value _ _) as [[v' r]|] eqn:E; [|discriminate].
  destruct (skip_ws r); [|discriminate].
  intros H. inversion H; subst.
  destruct (parse_wf_fuel (2 * List.length (chars text) + 2)) as (Hv & _).
  eapply Hv, E.
Qed.

(** ** The fuel of the parser *)

Lemma expect_shorter (ch : ascii) (s r : list ascii) :
  expect ch s = Some r -> List.length r < List.length s.
Proof.
  unfold expect. pose proof (skip_ws_length s) as H.
  destruct (skip_ws s) as [|c t]; [discriminate|].
  destruct (Ascii.eqb c ch); [|discriminate].
  intros E. inversion E; subst. simpl in H. lia.
Qed.

Lemma prepend_Some (c : ascii) (x : option (list ascii * list ascii))
  (cs r : list ascii) :
  prepend c x = Some (cs, r) -> exists cs', x = Some (cs', r).
Proof.
  destruct x as [[cs' r']|]; simpl; [|discriminate].
  intros E. inversion E; subst. eauto.
Qed.

Lemma parse_string_body_shorter (s cs r : list ascii) :
  parse_string_body s = Some (cs, r) -> List.length r < List.length s.
Proof.
  remember (List.length s) as n eqn:Hn. revert s cs r Hn.
  induction n as [n IH] using lt_wf_ind. intros s cs r Hn.
  destruct s as [|c t]; simpl; [discriminate|].
  destruct (Ascii.eqb c dquote).
  { intros E. inversion E; subst. simpl. lia. }
  destruct (Ascii.eqb c backslash).
  { destruct t as [|e t']; [discriminate|].
    destruct (unescape e).
    - intros E. apply prepend_Some in E as (cs' & E).
      apply (IH (List.length t')) in E; simpl in *; lia.
    - destruct (Ascii.eqb e "u"%char); [|discriminate].
      destruct t' as [|h1 [|h2 [|h3 [|h4 t'']]]]; try discriminate.
      destruct (hex4 h1 h2 h3 h4); [|discriminate].
      intros E. apply prepend_Some in E as (cs' & E).
      apply (IH (List.length t'')) in E; simpl in *; lia. }
  destruct (nat_of_ascii c <? 32); [discriminate|].
  intros E. apply prepend_Some in E as (cs' & E).
  apply (IH (List.length t)) in E; simpl in *; lia.
Qed.

Lemma read_digits_shorter (s : list ascii) :
  List.length (snd (read_digits s)) <= List.length s.
Proof.
  induction s as [|c r IH]; simpl; [lia|].
  destruct (digit_of c); [|simpl; lia].
  destruct (read_digits r). simpl in *. lia.
Qed.

Lemma parse_nat_shorter (s r : list ascii) (n : N) :
  parse_nat s = Some (n, r) -> List.length r <= List.length s.
Proof.
  unfold parse_nat. pose proof (read_digits_shorter s) as H.
  destruct (read_digits s) as [d r']. destruct (canonical d); [|discriminate].
  intros E. inversion E; subst. exact H.
Qed.

Lemma strip_prefix_shorter (kw s r : list ascii) :
  strip_prefix kw s = Some r -> List.length r <= List.length s.
Proof.
  revert s. induction kw as [|k kw IH]; intros s; simpl.
  - intros E. inversion E. lia.
  - destruct s as [|c s']; [discriminate|].
    destruct (Ascii.eqb c k); [|discriminate].
    intros E. apply IH in E. simpl. lia.
Qed.

Lemma parse_keyword_shorter (s r : list ascii) (v : jsval) :
  parse_keyword s = Some (v, r) -> List.length r <= List.length s.
Proof.
  unfold parse_keyword.
  destruct (strip_prefix (chars "null") s) eqn:E1.
  { intros E. inversion E; subst. eapply strip_prefix_shorter, E1. }
  destruct (strip_prefix (chars "true") s) eqn:E2.
  { intros E. inversion E; subst. eapply strip_prefix_shorter, E2. }
  destruct (strip_prefix (chars "false") s) eqn:E3; [|discriminate].
  intros E. inversion E; subst. eapply strip_prefix_shorter, E3.
Qed.

(** What a parser leaves is no longer than what it was given. *)
Lemma parse_shorter (fuel : nat) :
  (forall s v r, parse_value fuel s = Some (v, r) -> List.length r <= List.length s) /\
  (forall s vs r, parse_elems fuel s = Some (vs, r) -> List.length r <= List.length s) /\
  (forall s ms r, parse_members fuel s = Some (ms, r) -> List.length r <= List.length s).
Proof.
  induction fuel as [|f (IHv & IHe & IHm)].
  { repeat split; intros; discriminate. }
  repeat split.
  - intros s v r. rewrite parse_value_eq.
    pose proof (skip_ws_length s) as Hs.
    destruct (skip_ws s) as [|c t]; [discriminate|]. simpl in Hs.
    destruct (Ascii.eqb c "{"%char).
    { destruct (expect "}"%char t) eqn:E.
      - intros H. inversion H; subst. apply expect_shorter in E. lia.
      - destruct (parse_members f t) as [[ms r']|] eqn:E'; [|discriminate].
        intros H. inversion H; subst. apply IHm in E'. lia. }
    destruct (Ascii.eqb c "["%char).
    { destruct (expect "]"%char t) eqn:E.
      - intros H. inversion H; subst. apply expect_shorter in E. lia.
      - destruct (parse_elems f t) as [[vs r']|] eqn:E'; [|discriminate].
        intros H. inversion H; subst. apply IHe in E'. lia. }
    destruct (Ascii.eqb c dquote).
    { destruct (parse_string_body t) as [[cs r']|] eqn:E; [|discriminate].
      intros H. inversion H; subst. apply parse_string_body_shorter in E. lia. }
    destruct (Ascii.eqb c "-"%char).
    { destruct (parse_nat t) as [[n r']|] eqn:E; [|discriminate].
      intros H. inversion H; subst. apply parse_nat_shorter in E. lia. }
    destruct (is_digit c).
    { destruct (parse_nat (c :: t)) as [[n r']|] eqn:E; [|discriminate].
      intros H. inversion H; subst. apply parse_nat_shorter in E. simpl in E. lia. }
    intros H. apply parse_keyword_shorter in H. simpl in H. lia.
  - intros s vs r. rewrite parse_elems_eq.
    destruct (parse_value f s) as [[v t]|] eqn:E; [|discriminate].
    apply IHv in E.
    destruct (expect ","%char t) as [t'|] eqn:Ec.
    + apply expect_shorter in Ec.
      destruct (parse_elems f t') as [[vs' r']|] eqn:E'; [|discriminate].
      intros H. inversion H; subst. apply IHe in E'. lia.
    + destruct (expect "]"%char t) as [t'|] eqn:Eb; [|discriminate].
      intros H. inversion H; subst. apply expect_shorter in Eb. lia.
  - intros s ms r. rewrite parse_members_eq.
    destruct (expect dquote s) as [t|] eqn:E0; [|discriminate].
    apply expect_shorter in E0.
    destruct (parse_string_body t) as [[k t1]|] eqn:E1; [|discriminate].
    apply parse_string_body_shorter in E1.
    destruct (expect ":"%char t1) as [t2|] eqn:E2; [|discriminate].
    apply expect_shorter in E2.
    destruct (parse_value f t2) as [[v t3]|] eqn:E3; [|discriminate].
    apply IHv in E3.
    destruct (expect ","%char t3) as [t4|] eqn:E4.
    + apply expect_shorter in E4.
      destruct (parse_members f t4) as [[ms' r']|] eqn:E5; [|discriminate].
      intros H. inversion H; subst. apply IHm in E5. lia.
    + destruct (expect "}"%char t3) as [t4|] eqn:E5; [|discriminate].
      intros H. inversion H; subst. apply expect_shorter in E5. lia.
Qed.

(** Two units of fuel per character are enough: more fuel gives the same
    result. *)
Lemma parse_fuel_stable (fuel : nat) :
  (forall s fuel', 2 * List.length s < fuel -> fuel <= fuel' ->
                   parse_value fuel' s = parse_value fuel s) /\
  (forall s fuel', 2 * List.length s + 1 < fuel -> fuel <= fuel' ->
                   parse_elems fuel' s = parse_elems fuel s) /\
  (forall s fuel', 2 * List.length s + 1 < fuel -> fuel <= fuel' ->
                   parse_members fuel' s = parse_members fuel s).
Proof.
  induction fuel as [|f (IHv & IHe & IHm)].
  { repeat split; intros; lia. }
  repeat split.
  - intros s [|f'] Hlen Hle; [lia|]. rewrite !parse_value_eq.
    pose proof (skip_ws_length s) as Hs.
    destruct (skip_ws s) as [|c t]; [reflexivity|]. simpl in Hs.
    rewrite (IHm t f'), (IHe t f') by lia. reflexivity.
  - intros s [|f'] Hlen Hle; [lia|]. rewrite !parse_elems_eq.
    rewrite (IHv s f') by lia.
    destruct (parse_value f s) as [[v t]|] eqn:E; [|reflexivity].
    apply (proj1 (parse_shorter f)) in E.
    destruct (expect ","%char t) as [t'|] eqn:Ec; [|reflexivity].
    apply expect_shorter in Ec. rewrite (IHe t' f') by lia. reflexivity.
  - intros s [|f'] Hlen Hle; [lia|]. rewrite !parse_members_eq.
    destruct (expect dquote s) as [t|] eqn:E0; [|reflexivity].
    apply expect_shorter in E0.
    destruct (parse_string_body t) as [[k t1]|] eqn:E1; [|reflexivity].
    apply parse_string_body_shorter in E1.
    destruct (expect ":"%char t1) as [t2|] eqn:E2; [|reflexivity].
    apply expect_shorter in E2.
    rewrite (IHv t2 f') by lia.
    destruct (parse_value f t2) as [[v t3]|] eqn:E3; [|reflexivity].
    apply (proj1 (parse_shorter f)) in E3.
    destruct (expect ","%char t3) as [t4|] eqn:E4; [|reflexivity].
    apply expect_shorter in E4. rewrite (IHm t4 f') by lia. reflexivity.
Qed.

(** The outcome of [JSON.parse] does not depend on the fuel: a text that
    does not parse is one no amount of fuel parses. *)
Lemma parse_fuel_enough (text : string) (fuel : nat) :
  2 * List.length (chars text) + 2 <= fuel ->
  parse_value fuel (chars text) =
  parse_value (2 * List.length (chars text) + 2) (chars text).
Proof.
  intros H. apply (proj1 (parse_fuel_stable _)); lia.
Qed.

(** ** The walk along a path *)

Lemma child_container (cur : jsval) (k : selector) (c : jsval) :
  child cur k = Some c -> is_container cur = true.
Proof. destruct cur; simpl; congruence. Qed.

Lemma has_prop_child (cur : jsval) (k : selector) :
  is_container cur = true ->
  has_prop k cur = Ok (match child cur k with Some _ => true | None => false end).
Proof.
  destruct cur as [| | | |l|ps]; simpl; try discriminate; intros _; [|reflexivity].
  destruct (array_index (prop_name k)) as [n|]; [|reflexivity].
  f_equal. destruct (nth_error l (N.to_nat n)) eqn:E.
  - apply Nat.ltb_lt. apply nth_error_Some. congruence.
  - apply Nat.ltb_ge. apply nth_error_None. assumption.
Qed.

Lemma get_prop_child (cur : jsval) (k : selector) :
  is_container cur = true -> get_prop cur k = Ok (child cur k).
Proof. destruct cur; simpl; try discriminate; reflexivity. Qed.

Lemma set_prop_container (cur : jsval) (k : selector) (x : jsval) :
  is_container cur = true ->
  exists cur', set_prop cur k x = Ok cur' /\ is_container cur' = true.
Proof.
  destruct cur; simpl; try discriminate; intros _.
  - destruct (array_index (prop_name k)); eauto.
  - eauto.
Qed.

Lemma child_set_prop (cur : jsval) (k : selector) (c x cur' : jsval) :
  child cur k = Some c -> set_prop cur k x = Ok cur' -> child cur' k = Some x.
Proof.
  destruct cur as [| | | |l|ps]; simpl; try discriminate.
  - destruct (array_index (prop_name k)) as [n|] eqn:E; [|discriminate].
    intros _ H. inversion H; subst. simpl. rewrite E.
    apply nth_error_array_store.
  - intros _ H. inversion H; subst. simpl. apply lookup_define_same.
Qed.

Lemma set_prop_same (cur : jsval) (k : selector) (c : jsval) :
  child cur k = Some c -> set_prop cur k c = Ok cur.
Proof.
  destruct cur as [| | | |l|ps]; simpl; try discriminate.
  - destruct (array_index (prop_name k)) as [n|]; [|discriminate].
    intros H. rewrite array_store_same_value by assumption. reflexivity.
  - intros H. rewrite define_prop_same_value by assumption. reflexivity.
Qed.

Lemma bind_assoc {A B C : Type} (m : outcome A) (f : A -> outcome B)
  (g : B -> outcome C) :
  bind (bind m f) g = bind m (fun a => bind (f a) g).
Proof. destruct m; reflexivity. Qed.

(** One turn of the loop when the key is present. *)
Lemma navigate_present (cur : jsval) (k next : selector) (rest : list selector)
  (c ef : jsval) :
  child cur k = Some c ->
  navigate cur k (next :: rest) ef =
  (c' <- navigate c next rest ef ;; set_prop cur k c').
Proof.
  intros H. pose proof (child_container _ _ _ H) as Hc.
  simpl. rewrite has_prop_child, get_prop_child, H by assumption. reflexivity.
Qed.

(** One turn of the loop when the key is missing. *)
Lemma navigate_missing (cur : jsval) (k next : selector) (rest : list selector)
  (ef : jsval) :
  is_container cur = true -> child cur k = None ->
  navigate cur k (next :: rest) ef =
  (c' <- navigate (fresh next) next rest ef ;; set_prop cur k c').
Proof.
  intros Hc H. simpl. rewrite has_prop_child, H by assumption. reflexivity.
Qed.

(** Along the part of the path that exists the loop only descends: the
    result is the tree with the node reached replaced by what the rest of
    the walk makes of it. *)
Lemma navigate_along (pre : list selector) (obj cur : jsval) (k : selector)
  (rest : list selector) (ef : jsval) :
  get_path obj pre = Some cur ->
  walk obj (pre ++ k :: rest) ef =
  (x <- navigate cur k rest ef ;; Ok (put_path obj pre x)).
Proof.
  revert obj. induction pre as [|k0 pre IH]; intros obj Hget; simpl in Hget.
  - inversion Hget; subst. simpl. destruct (navigate cur k rest ef); reflexivity.
  - destruct (child obj k0) as [c|] eqn:Hc; [|discriminate].
    specialize (IH c Hget).
    change (walk obj ((k0 :: pre) ++ k :: rest) ef)
      with (navigate obj k0 (pre ++ k :: rest) ef).
    destruct (pre ++ k :: rest) as [|next more] eqn:Hp.
    { destruct pre; discriminate. }
    rewrite (navigate_present _ _ _ _ _ _ Hc).
    change (navigate c next more ef) with (walk c (next :: more) ef).
    rewrite IH, bind_assoc.
    destruct (navigate cur k rest ef) as [x|e]; [|reflexivity].
    simpl. rewrite Hc.
    destruct (set_prop_container obj k0 (put_path c pre x)
                (child_container _ _ _ Hc)) as (o & -> & _).
    reflexivity.
Qed.

Lemma get_put_path (pre : list selector) (obj cur x : jsval) :
  get_path obj pre = Some cur -> get_path (put_path obj pre x) pre = Some x.
Proof.
  revert obj. induction pre as [|k pre IH]; intros obj H; simpl in *.
  - reflexivity.
  - destruct (child obj k) as [c|] eqn:Hc; [|discriminate].
    destruct (set_prop_container obj k (put_path c pre x)
                (child_container _ _ _ Hc)) as (o & Ho & _).
    rewrite Ho. rewrite (child_set_prop _ _ _ _ _ Hc Ho). eauto.
Qed.

Lemma put_path_same (pre : list selector) (obj cur : jsval) :
  get_path obj pre = Some cur -> put_path obj pre cur = obj.
Proof.
  revert obj. induction pre as [|k pre IH]; intros obj H; simpl in *.
  - congruence.
  - destruct (child obj k) as [c|] eqn:Hc; [|discriminate].
    rewrite (IH c H), (set_prop_same _ _ _ Hc). reflexivity.
Qed.

Lemma get_path_app (p q : list selector) (obj : jsval) :
  get_path obj (p ++ q) =
  match get_path obj p with
  | Some c => get_path c q
  | None => None
  end.
Proof.
  revert obj. induction p as [|k p IH]; intros obj; simpl; [reflexivity|].
  destruct (child obj k); auto.
Qed.

Lemma put_path_app (p q : list selector) (obj c x : jsval) :
  get_path obj p = Some c ->
  put_path obj (p ++ q) x = put_path obj p (put_path c q x).
Proof.
  revert obj. induction p as [|k p IH]; intros obj H; simpl in *.
  - congruence.
  - destruct (child obj k) as [c0|]; [|discriminate].
    rewrite (IH c0 H). reflexivity.
Qed.

(** The text [updateJsonByPath] returns for a document that parses and a
    path that is not empty. *)
Lemma update_walk (json : string) (obj : jsval) (p : list selector)
  (ef : jsval) (node : option NodeData) :
  JSON.parse json = Some obj -> p <> [] ->
  updateJsonByPath json (PathArray p) ef node =
  match walk obj p ef with
  | Ok obj' => JSON.stringify obj'
  | Throw _ => json
  end.
Proof.
  intros Hp Hne. unfold updateJsonByPath, updateJsonByPath_try. rewrite Hp. simpl.
  destruct p as [|k r]; [congruence|]. simpl.
  destruct (navigate obj k r ef); reflexivity.
Qed.

(** ** Well-formedness is kept by every operation *)

Lemma wf_leaf (v : jsval) : is_leaf v = true -> wf v.
Proof. destruct v; simpl; try discriminate; auto. Qed.

Lemma wf_lookup (k : string) (ps : props) (v : jsval) :
  wf (JObj ps) -> lookup k ps = Some v -> wf v.
Proof.
  rewrite wf_JObj. intros [_ H]. induction H as [|[k' v'] r Hv Hr IH]; simpl.
  - discriminate.
  - destruct (String.eqb k k'); [|assumption].
    intros E. inversion E; subst. assumption.
Qed.

Lemma wf_child (cur : jsval) (k : selector) (c : jsval) :
  wf cur -> child cur k = Some c -> wf c.
Proof.
  destruct cur as [| | | |l|ps]; simpl child; try discriminate.
  - rewrite wf_JArr. intros H.
    destruct (array_index (prop_name k)) as [n|]; [|discriminate].
    intros E. apply nth_error_In in E. rewrite Forall_forall in H. auto.
  - intros H E. eapply wf_lookup; eassumption.
Qed.

Lemma wf_get_path (p : list selector) (obj c : jsval) :
  wf obj -> get_path obj p = Some c -> wf c.
Proof.
  revert obj. induction p as [|k p IH]; simpl; intros obj Hwf H.
  - congruence.
  - destruct (child obj k) as [c0|] eqn:E; [|discriminate].
    eapply IH; [|eassumption]. apply (wf_child obj k c0); assumption.
Qed.

Lemma wf_array_store (n : nat) (x : jsval) (l : list jsval) :
  wf x -> Forall wf l -> Forall wf (array_store n x l).
Proof.
  intros Hx. revert l. induction n as [|n IH]; intros l Hl.
  - destruct l; simpl; inversion Hl; subst; constructor; auto.
  - destruct l; simpl.
    + constructor; [exact I|]. apply IH. constructor.
    + inversion Hl; subst. constructor; auto.
Qed.

Lemma wf_set_prop (cur : jsval) (k : selector) (x cur' : jsval) :
  wf cur -> wf x -> set_prop cur k x = Ok cur' -> wf cur'.
Proof.
  destruct cur as [| | | |l|ps]; simpl set_prop; try discriminate.
  - intros Hl Hx H. destruct (array_index (prop_name k)); inversion H; subst.
    + apply wf_JArr, wf_array_store; [assumption|]. apply wf_JArr. assumption.
    + assumption.
  - intros Hps Hx H. inversion H; subst. apply wf_define_prop; assumption.
Qed.

Lemma wf_put_path (p : list selector) (obj x : jsval) :
  wf obj -> wf x -> wf (put_path obj p x).
Proof.
  revert obj. induction p as [|k p IH]; simpl; intros obj Hobj Hx.
  - assumption.
  - destruct (child obj k) as [c|] eqn:E; [|assumption].
    destruct (set_prop obj k (put_path c p x)) as [o|] eqn:Es; [|assumption].
    eapply wf_set_prop; [exact Hobj| |exact Es].
    apply IH; [|assumption]. apply (wf_child obj k c); assumption.
Qed.

Lemma assign_prop_cases (k : string) (v : jsval) (ps : props) :
  (assign_prop k v ps = ps /\ k = "__proto__"%string /\ lookup k ps = None) \/
  (assign_prop k v ps = define_prop k v ps /\
   (k <> "__proto__"%string \/ lookup k ps <> None)).
Proof.
  unfold assign_prop. destruct (lookup k ps) eqn:E.
  - right. split; [reflexivity|]. right. discriminate.
  - destruct (String.eqb_spec k "__proto__").
    + left. auto.
    + right. auto.
Qed.

Lemma assign_prop_present (k : string) (v : jsval) (ps : props) :
  lookup k ps <> None -> assign_prop k v ps = define_prop k v ps.
Proof.
  intros H. unfold assign_prop. destruct (lookup k ps); [reflexivity|congruence].
Qed.

Lemma assign_prop_plain (k : string) (v : jsval) (ps : props) :
  k <> "__proto__"%string -> assign_prop k v ps = define_prop k v ps.
Proof.
  intros H. unfold assign_prop. destruct (lookup k ps); [reflexivity|].
  apply String.eqb_neq in H. rewrite H. reflexivity.
Qed.

Lemma wf_assign_prop (k : string) (v : jsval) (ps : props) :
  wf v -> wf (JObj ps) -> wf (JObj (assign_prop k v ps)).
Proof.
  intros Hv Hps.
  destruct (assign_prop_cases k v ps) as [(-> & _)|(-> & _)];
    [assumption|apply wf_define_prop; assumption].
Qed.

Lemma wf_merge_fields (entries fields : props) :
  wf (JObj fields) -> wf (JObj (merge_fields fields entries)).
Proof.
  unfold merge_fields. revert fields.
  induction entries as [|[k v] r IH]; simpl; intros fields H; [assumption|].
  apply IH. destruct (is_leaf v) eqn:E; [|assumption].
  apply wf_assign_prop; [apply wf_leaf|]; assumption.
Qed.

Lemma wf_fresh (next : selector) : wf (fresh next).
Proof. unfold fresh. destruct (is_number next); simpl; repeat constructor. Qed.

Lemma wf_write_slot (cur : jsval) (k : selector) (ef cur' : jsval) :
  wf cur -> wf ef -> write_slot cur k ef = Ok cur' -> wf cur'.
Proof.
  intros Hcur Hef. unfold write_slot.
  destruct (is_container cur) eqn:Hc.
  - replace (match cur with JNull => Ok JNull | _ => _ end)
      with (bind (get_prop cur k) (fun targetNode =>
              match targetNode with
              | Some (JObj ps) =>
                  entries <- own_entries ef ;;
                  set_prop cur k (JObj (merge_fields ps entries))
              | _ => set_prop cur k ef
              end)) by (destruct cur; try discriminate; reflexivity).
    rewrite get_prop_child by assumption. simpl.
    destruct (child cur k) as [[| | | | |ps]|] eqn:E;
      try (intros H; eapply wf_set_prop; [exact Hcur|exact Hef|exact H]).
    destruct (own_entries ef) as [es|]; simpl; [|discriminate].
    intros H. eapply wf_set_prop; [exact Hcur| |exact H].
    apply wf_merge_fields. apply (wf_child cur k (JObj ps)); assumption.
  - destruct cur as [|b|z|s| |]; try discriminate Hc; cbn.
    + intros H. inversion H. exact I.
    + discriminate.
    + discriminate.
    + destruct (array_index (prop_name k)) as [n|]; [|discriminate].
      destruct (String.get (N.to_nat n) s); discriminate.
Qed.

Lemma wf_navigate (rest : list selector) (cur : jsval) (k : selector)
  (ef cur' : jsval) :
  wf cur -> wf ef -> navigate cur k rest ef = Ok cur' -> wf cur'.
Proof.
  revert cur k cur'. induction rest as [|next rest IH]; intros cur k cur' Hcur Hef.
  - apply wf_write_slot; assumption.
  - destruct (is_container cur) eqn:Hc.
    + destruct (child cur k) as [c|] eqn:E.
      * rewrite (navigate_present _ _ _ _ _ _ E).
        destruct (navigate c next rest ef) as [c'|] eqn:En; [|discriminate].
        simpl. intros H. eapply wf_set_prop; [exact Hcur| |exact H].
        eapply IH; [|exact Hef|exact En]. apply (wf_child cur k c); assumption.
      * rewrite (navigate_missing _ _ _ _ _ Hc E).
        destruct (navigate (fresh next) next rest ef) as [c'|] eqn:En; [|discriminate].
        simpl. intros H. eapply wf_set_prop; [exact Hcur| |exact H].
        eapply IH; [apply wf_fresh|exact Hef|exact En].
    + simpl. destruct cur; try discriminate; simpl; discriminate.
Qed.

Lemma wf_parse_edited (editedValue : string) : wf (parse_edited editedValue).
Proof.
  unfold parse_edited. destruct (JSON.parse editedValue) eqn:E.
  - eapply parse_is_wf, E.
  - exact I.
Qed.

(** The updated text of a document that parses is again a document: it
    parses, to the tree the walk built or, when the walk threw, to the
    tree of the input. *)
Lemma update_parses (json : string) (obj : jsval) (p : list selector)
  (ef : jsval) (node : option NodeData) :
  JSON.parse json = Some obj -> wf ef ->
  JSON.parse (updateJsonByPath json (PathArray p) ef node) =
  Some (match p with
        | [] => ef
        | k :: rest =>
            match navigate obj k rest ef with
            | Ok obj' => obj'
            | Throw _ => obj
            end
        end).
Proof.
  intros Hp Hef. unfold updateJsonByPath, updateJsonByPath_try. rewrite Hp. simpl.
  destruct p as [|k rest]; simpl.
  - apply parse_of_stringify, Hef.
  - destruct (navigate obj k rest ef) as [obj'|] eqn:E; simpl.
    + apply parse_of_stringify. eapply wf_navigate; [|exact Hef|exact E].
      eapply parse_is_wf, Hp.
    + assumption.
Qed.

Lemma string_app_assoc (a b c : string) :
  ((a ++ b) ++ c = a ++ (b ++ c))%string.
Proof. induction a as [|x a IH]; simpl; congruence. Qed.

Lemma bracketed_segment (seg : selector) :
  bracketed seg = ("[" ++ segment seg ++ "]")%string.
Proof.
  destruct seg; simpl; [|reflexivity].
  unfold dq. simpl. rewrite string_app_assoc. reflexivity.
Qed.

Lemma concat_brackets (x : string) (l : list string) :
  ("[" ++ String.concat "][" (x :: l) ++ "]")%string =
  String.concat "" (map (fun y => ("[" ++ y ++ "]")%string) (x :: l)).
Proof.
  revert x. induction l as [|y l IH]; intros x.
  - simpl. destruct (x ++ "]")%string; reflexivity.
  - change (String.concat "][" (x :: y :: l))
      with (x ++ "][" ++ String.concat "][" (y :: l))%string.
    change (String.concat "" (map (fun y => ("[" ++ y ++ "]")%string) (x :: y :: l)))
      with (("[" ++ x ++ "]") ++ "" ++
            String.concat "" (map (fun y => ("[" ++ y ++ "]")%string) (y :: l)))%string.
    rewrite <- IH. simpl. f_equal.
    rewrite !string_app_assoc. reflexivity.
Qed.

Lemma uint_chars_digits (d : uint) : forallb is_digit (uint_chars d) = true.
Proof. induction d; simpl; auto. Qed.

(** C8. [jsonPathToString] of an absent or empty path is ["$"]; of a
    path with at least one selector it is ["$"] followed by one bracketed
    segment per selector, in order: a number as its decimal digits, a
    string between double quotes. *)
Theorem jsonPathToString_format :
  jsonPathToString None = "$"%string /\
  jsonPathToString (Some []) = "$"%string /\
  (forall seg rest,
      jsonPathToString (Some (seg :: rest)) =
      ("$" ++ String.concat "" (map bracketed (seg :: rest)))%string) /\
  (forall n, forallb is_digit (chars (N_to_string n)) = true) /\
  jsonPathToString (Some [SKey "customer"; SIdx 0; SKey "id"]) =
  js "$['customer'][0]['id']".
Proof.
  split; [reflexivity|]. split; [reflexivity|]. split; [|split].
  - intros seg rest. unfold jsonPathToString.
    change ("$[" ++ String.concat "][" (map segment (seg :: rest)) ++ "]")%string
      with ("$" ++ ("[" ++ String.concat "][" (segment seg :: map segment rest) ++ "]"))%string.
    rewrite concat_brackets, <- map_cons, map_map. f_equal. f_equal.
    apply map_ext. intros a. symmetry. apply bracketed_segment.
  - intros n. unfold N_to_string, N_digits, chars.
    rewrite list_ascii_of_string_of_list_ascii. apply uint_chars_digits.
  - reflexivity.
Qed.

(** ** [updateJsonByPath] *)

(** C2. A document text that does not parse is returned unchanged,
    whatever the path and the edited fields: the [SyntaxError] of
    [JSON.parse] is thrown inside the [try] and caught. *)
Theorem unparseable_document_unchanged (json : string) (path : path_arg)
  (editedFields : jsval) (node : option NodeData) :
  JSON.parse json = None ->
  updateJsonByPath_try json path editedFields = Throw SyntaxError /\
  updateJsonByPath json path editedFields node = json.
Proof.
  intros H. unfold updateJsonByPath, updateJsonByPath_try. rewrite H. auto.
Qed.

Lemma unparseable_document_unchanged_witness :
  JSON.parse (js "{'a': 1") = None /\
  updateJsonByPath_try (js "{'a': 1") (PathArray [SKey "a"]) (JNum 2) = Throw SyntaxError /\
  updateJsonByPath (js "{'a': 1") (PathArray [SKey "a"]) (JNum 2) None = js "{'a': 1".
Proof.
  split; [reflexivity|].
  apply (unparseable_document_unchanged (js "{'a': 1") (PathArray [SKey "a"]) (JNum 2) None).
  reflexivity.
Defined.

(** C6. With an empty path (an empty array, an empty string, or a node
    without a path in [handleSave]) the text returned for a document that
    parses is the serialisation of the edited fields alone. *)
Theorem empty_path_replaces_document (json : string) (obj editedFields : jsval)
  (node : option NodeData) :
  JSON.parse json = Some obj ->
  updateJsonByPath json (PathArray []) editedFields node = JSON.stringify editedFields /\
  updateJsonByPath json (PathString "") editedFields node = JSON.stringify editedFields /\
  (forall rows editedValue,
      save_text json (Some (mkNode rows None)) editedValue =
      JSON.stringify (parse_edited editedValue)) /\
  (forall editedValue,
      save_text json None editedValue = JSON.stringify (parse_edited editedValue)).
Proof.
  intros H. unfold save_text, updateJsonByPath, updateJsonByPath_try. simpl.
  rewrite H. simpl. auto.
Qed.

Lemma empty_path_replaces_document_witness :
  JSON.parse (js "{'a':1}") = Some (JObj [("a"%string, JNum 1)]) /\
  updateJsonByPath (js "{'a':1}") (PathArray []) (JObj [("b"%string, JNum 2)]) None =
  JSON.stringify (JObj [("b"%string, JNum 2)]).
Proof.
  split; [reflexivity|].
  apply (empty_path_replaces_document (js "{'a':1}") (JObj [("a"%string, JNum 1)])
           (JObj [("b"%string, JNum 2)]) None).
  reflexivity.
Defined.

(** C9. When a prefix of the path leads to [null] in the document and at
    least one selector follows, nothing is written: with exactly one
    selector after the [null] the unchanged tree is serialised again, with
    more the input text is returned; either way the result parses to the
    tree of the input. *)
Theorem null_on_the_way (json : string) (obj : jsval) (pre : list selector)
  (k : selector) (rest : list selector) (editedFields : jsval)
  (node : option NodeData) :
  JSON.parse json = Some obj ->
  get_path obj pre = Some JNull ->
  updateJsonByPath json (PathArray (pre ++ k :: rest)) editedFields node =
    match rest with
    | [] => JSON.stringify obj
    | _ :: _ => json
    end /\
  JSON.parse (updateJsonByPath json (PathArray (pre ++ k :: rest)) editedFields node)
    = Some obj.
Proof.
  intros Hp Hget.
  assert (Hu : updateJsonByPath json (PathArray (pre ++ k :: rest)) editedFields node =
               match rest with [] => JSON.stringify obj | _ :: _ => json end).
  { rewrite (update_walk json obj) by (assumption || destruct pre; discriminate).
    rewrite (navigate_along pre obj JNull) by assumption.
    destruct rest as [|next rest]; simpl.
    - rewrite (put_path_same pre obj JNull) by assumption. reflexivity.
    - reflexivity. }
  split; [exact Hu|]. rewrite Hu. destruct rest.
  - apply parse_of_stringify. eapply parse_is_wf, Hp.
  - assumption.
Qed.

Lemma null_on_the_way_witness :
  JSON.parse (js "{'a':null}") = Some (JObj [("a"%string, JNull)]) /\
  get_path (JObj [("a"%string, JNull)]) [SKey "a"] = Some JNull /\
  updateJsonByPath (js "{'a':null}") (PathArray ([SKey "a"] ++ [SKey "b"; SKey "c"]))
    (JNum 1) None = js "{'a':null}" /\
  JSON.parse (updateJsonByPath (js "{'a':null}")
                (PathArray ([SKey "a"] ++ [SKey "b"; SKey "c"])) (JNum 1) None)
    = Some (JObj [("a"%string, JNull)]).
Proof.
  split; [reflexivity|]. split; [reflexivity|].
  apply (null_on_the_way (js "{'a':null}") (JObj [("a"%string, JNull)])
           [SKey "a"] (SKey "b") [SKey "c"] (JNum 1) None); reflexivity.
Defined.

Lemma lookup_assign (name k : string) (v : jsval) (ps : props) :
  lookup name (assign_prop k v ps) =
  if String.eqb name k
  then match lookup k ps with
       | None => if String.eqb k "__proto__" then None else Some v
       | Some _ => Some v
       end
  else lookup name ps.
Proof.
  unfold assign_prop. destruct (String.eqb_spec name k) as [->|Hne].
  - destruct (lookup k ps) eqn:E.
    + apply lookup_define_same.
    + destruct (String.eqb k "__proto__"); [exact E|apply lookup_define_same].
  - destruct (lookup k ps).
    + apply lookup_define_other. congruence.
    + destruct (String.eqb k "__proto__");
        [reflexivity|apply lookup_define_other; congruence].
Qed.

Lemma lookup_merge_fields (name : string) (edits fields : props) :
  lookup name (merge_fields fields edits) = merged_value name fields edits.
Proof.
  unfold merge_fields, merged_value. revert fields.
  induction edits as [|[k v] r IH]; intros fields; simpl; [reflexivity|].
  rewrite IH. clear IH.
  destruct (is_leaf v); simpl; rewrite ?andb_true_r, ?andb_false_r;
    [|destruct (edited_leaf name r); reflexivity].
  rewrite lookup_assign.
  destruct (String.eqb_spec name k) as [->|Hne];
    [|destruct (edited_leaf name r); reflexivity].
  destruct (edited_leaf k r); destruct (lookup k fields);
    destruct (String.eqb k "__proto__"); reflexivity.
Qed.

Lemma write_slot_container (cur : jsval) (k : selector) (ef : jsval) :
  is_container cur = true ->
  write_slot cur k ef =
  match child cur k with
  | Some (JObj ps) =>
      entries <- own_entries ef ;;
      set_prop cur k (JObj (merge_fields ps entries))
  | _ => set_prop cur k ef
  end.
Proof.
  intros Hc. unfold write_slot.
  destruct cur; try discriminate; simpl; reflexivity.
Qed.

Lemma split_last (p : list selector) :
  p <> [] -> exists pre k, p = pre ++ [k].
Proof.
  intros H. destruct (exists_last H) as (pre & k & E). eauto.
Qed.

(** C1, at the input on which the code departs from it.  The edited
    fields [{"__proto__": 5, "a": 2}] give both of their keys a scalar
    value and the object at [x] owns only [a]: the assignment
    [mergedNode["__proto__"] = 5] reaches the setter of
    [Object.prototype] in place of creating a property, so the object
    written back has [a] overwritten and no key [__proto__]. *)
Lemma proto_key_not_merged :
  let json := js "{'x': {'a': 1}}" in
  let edits := [("__proto__"%string, JNum 5); ("a"%string, JNum 2)] in
  let updated := updateJsonByPath json (PathArray [SKey "x"]) (JObj edits) None in
  JSON.parse json = Some (JObj [("x"%string, JObj [("a"%string, JNum 1)])]) /\
  JSON.parse (js "{'__proto__': 5, 'a': 2}") = Some (JObj edits) /\
  edited_leaf "__proto__" edits = Some (JNum 5) /\
  updated = JSON.stringify (JObj [("x"%string, JObj [("a"%string, JNum 2)])]) /\
  exists doc,
    JSON.parse updated = Some doc /\
    get_path doc [SKey "x"; SKey "a"] = Some (JNum 2) /\
    get_path doc [SKey "x"; SKey "__proto__"] = None.
Proof.
  intros json edits updated.
  split; [reflexivity|]. split; [reflexivity|]. split; [reflexivity|].
  split; [reflexivity|].
  exists (JObj [("x"%string, JObj [("a"%string, JNum 2)])]).
  split; [vm_compute; reflexivity|]. split; reflexivity.
Qed.

(** X18. When the path leads to a slot that holds an object, the edited
    fields being an object too, the text returned is the serialisation of
    the document in which the slot holds a copy of that object where the
    keys the edited fields give a leaf value carry that value, and every
    other key, nested objects and arrays included, keeps the value it
    had.  One key is treated apart: [__proto__] is overwritten when the
    object owns it and is not created when it does not.  The rest of the
    document is the tree of the input. *)
Theorem merge_at_object_slot (json : string) (obj : jsval) (p : list selector)
  (fields edits : props) (node : option NodeData) :
  JSON.parse json = Some obj ->
  p <> [] ->
  get_path obj p = Some (JObj fields) ->
  exists merged,
    updateJsonByPath json (PathArray p) (JObj edits) node =
      JSON.stringify (put_path obj p (JObj merged)) /\
    JSON.parse (updateJsonByPath json (PathArray p) (JObj edits) node) =
      Some (put_path obj p (JObj merged)) /\
    get_path (put_path obj p (JObj merged)) p = Some (JObj merged) /\
    forall name, lookup name merged = merged_value name fields edits.
Proof.
  intros Hp Hne Hget. exists (merge_fields fields edits).
  destruct (split_last p Hne) as (pre & k & ->).
  rewrite get_path_app in Hget.
  destruct (get_path obj pre) as [parent|] eqn:Hpre; [|discriminate].
  simpl in Hget. destruct (child parent k) as [c|] eqn:Hc; [|discriminate].
  inversion Hget; subst c.
  pose proof (child_container _ _ _ Hc) as Hcont.
  assert (Hu : updateJsonByPath json (PathArray (pre ++ [k])) (JObj edits) node =
               JSON.stringify (put_path obj (pre ++ [k]) (JObj (merge_fields fields edits)))).
  { rewrite (update_walk json obj) by (assumption || destruct pre; discriminate).
    rewrite (navigate_along pre obj parent) by assumption.
    simpl navigate. rewrite write_slot_container, Hc by assumption. simpl.
    destruct (set_prop_container parent k (JObj (merge_fields fields edits)) Hcont)
      as (parent' & Hs & _).
    rewrite Hs. simpl.
    rewrite (put_path_app pre [k] obj parent) by assumption.
    simpl. rewrite Hc, Hs. reflexivity. }
  assert (Hwf : wf obj) by (eapply parse_is_wf, Hp).
  repeat split.
  - exact Hu.
  - rewrite Hu. apply parse_of_stringify. apply wf_put_path; [assumption|].
    apply wf_merge_fields.
    apply (wf_get_path (pre ++ [k]) obj); [assumption|].
    rewrite get_path_app, Hpre. simpl. rewrite Hc. reflexivity.
  - apply (get_put_path _ _ (JObj fields)).
    rewrite get_path_app, Hpre. simpl. rewrite Hc. reflexivity.
  - intros name. apply lookup_merge_fields.
Qed.

Lemma merge_at_object_slot_witness :
  let json := js "{'x': {'a': 1, 'nested': {'z': 9}}}" in
  let fields := [("a"%string, JNum 1); ("nested"%string, JObj [("z"%string, JNum 9)])] in
  let obj := JObj [("x"%string, JObj fields)] in
  JSON.parse json = Some obj /\
  [SKey "x"] <> [] /\
  get_path obj [SKey "x"] = Some (JObj fields) /\
  exists merged,
    updateJsonByPath json (PathArray [SKey "x"]) (JObj [("a"%string, JNum 2)]) None =
      JSON.stringify (put_path obj [SKey "x"] (JObj merged)) /\
    JSON.parse (updateJsonByPath json (PathArray [SKey "x"])
                  (JObj [("a"%string, JNum 2)]) None) =
      Some (put_path obj [SKey "x"] (JObj merged)) /\
    get_path (put_path obj [SKey "x"] (JObj merged)) [SKey "x"] = Some (JObj merged) /\
    forall name, lookup name merged = merged_value name fields [("a"%string, JNum 2)].
Proof.
  intros json fields obj.
  split; [reflexivity|]. split; [discriminate|]. split; [reflexivity|].
  apply (merge_at_object_slot json obj [SKey "x"] fields [("a"%string, JNum 2)] None).
  - reflexivity.
  - discriminate.
  - reflexivity.
Defined.

(** The example of the specification for the merge: [x.a] becomes [2] and
    [x.nested.z] is still [9]. *)
Example merge_keeps_nested :
  let updated :=
    updateJsonByPath (js "{'x': {'a': 1, 'nested': {'z': 9}}}")
      (PathArray [SKey "x"]) (JObj [("a"%string, JNum 2)]) None in
  exists doc,
    JSON.parse updated = Some doc /\
    get_path doc [SKey "x"; SKey "a"] = Some (JNum 2) /\
    get_path doc [SKey "x"; SKey "nested"; SKey "z"] = Some (JNum 9).
Proof.
  eexists. split; [vm_compute; reflexivity|]. split; reflexivity.
Qed.

Lemma set_prop_kind (cur : jsval) (k : selector) (x cur' : jsval) :
  set_prop cur k x = Ok cur' ->
  is_array cur' = is_array cur /\ is_object cur' = is_object cur.
Proof.
  destruct cur; simpl; try discriminate.
  - destruct (array_index (prop_name k)); intros H; inversion H; auto.
  - intros H; inversion H; auto.
Qed.

Lemma bind_Ok {A B : Type} (m : outcome A) (f : A -> outcome B) (b : B) :
  bind m f = Ok b -> exists a, m = Ok a /\ f a = Ok b.
Proof. destruct m; simpl; [eauto|discriminate]. Qed.

(** The walk keeps the kind of the container it starts from. *)
Lemma navigate_kind (cur : jsval) (k : selector) (rest : list selector)
  (ef cur' : jsval) :
  is_container cur = true -> navigate cur k rest ef = Ok cur' ->
  is_array cur' = is_array cur /\ is_object cur' = is_object cur.
Proof.
  intros Hc. destruct rest as [|next rest].
  - simpl. rewrite write_slot_container by assumption.
    destruct (child cur k) as [[| | | | |ps]|]; try apply set_prop_kind.
    intros H. apply bind_Ok in H as (es & _ & H). eapply set_prop_kind, H.
  - destruct (child cur k) as [c|] eqn:E.
    + rewrite (navigate_present _ _ _ _ _ _ E).
      intros H. apply bind_Ok in H as (c' & _ & H). eapply set_prop_kind, H.
    + rewrite (navigate_missing _ _ _ _ _ Hc E).
      intros H. apply bind_Ok in H as (c' & _ & H). eapply set_prop_kind, H.
Qed.

Lemma child_fresh (next k : selector) : child (fresh next) k = None.
Proof.
  unfold fresh. destruct (is_number next); simpl; [|reflexivity].
  destruct (array_index (prop_name k)) as [n|]; [|reflexivity].
  destruct (N.to_nat n); reflexivity.
Qed.

Lemma is_container_fresh (next : selector) : is_container (fresh next) = true.
Proof. unfold fresh. destruct (is_number next); reflexivity. Qed.

(** Inside a container that was just created no key is present and
    nothing throws. *)
Lemma navigate_fresh (rest : list selector) (next k : selector) (ef : jsval) :
  exists sub, navigate (fresh next) k rest ef = Ok sub.
Proof.
  revert next k. induction rest as [|n rest IH]; intros next k.
  - simpl. rewrite write_slot_container, child_fresh by apply is_container_fresh.
    destruct (set_prop_container (fresh next) k ef (is_container_fresh next))
      as (c & H & _). eauto.
  - rewrite navigate_missing by (apply is_container_fresh || apply child_fresh).
    destruct (IH n n) as (sub & ->). simpl.
    destruct (set_prop_container (fresh next) k sub (is_container_fresh next))
      as (c & H & _). eauto.
Qed.

Lemma has_prop_false (cur : jsval) (k : selector) :
  has_prop k cur = Ok false -> is_container cur = true /\ child cur k = None.
Proof.
  intros H. assert (Hc : is_container cur = true).
  { destruct cur; simpl in *; try discriminate; reflexivity. }
  split; [assumption|]. rewrite has_prop_child in H by assumption.
  destruct (child cur k); [discriminate|reflexivity].
Qed.

Lemma child_set_prop_addressable (cur : jsval) (k : selector) (x cur' : jsval) :
  addressable cur k = true -> set_prop cur k x = Ok cur' -> child cur' k = Some x.
Proof.
  destruct cur as [| | | |l|ps]; simpl; try discriminate.
  - destruct (array_index (prop_name k)) as [n|] eqn:E; [|discriminate].
    intros _ H. inversion H; subst. simpl. rewrite E. apply nth_error_array_store.
  - intros _ H. inversion H; subst. simpl. apply lookup_define_same.
Qed.

(** X19. Where the walk meets a container that lacks the selector's key
    and the selector is not the last, it creates a container there, an
    array when the next selector is a number and an object otherwise,
    continues inside it without ever failing, and stores what the rest of
    the walk made of it under the key (an array given a key that is not
    an index keeps its elements: such a property is not serialised); the
    text returned is the serialisation of the document so extended.  The
    missing selector and the ones after it are plain names: at a name
    such as [__proto__] or [constructor] the test [key in current] holds
    on every container and nothing is created.  On the document [{}] the
    path [p, q] and the fields [{v: 1}] give [{p: {q: {v: 1}}}]. *)
Theorem missing_key_synthesized (json : string) (obj : jsval)
  (pre : list selector) (cur : jsval) (k next : selector) (rest : list selector)
  (editedFields : jsval) (node : option NodeData) :
  JSON.parse json = Some obj ->
  get_path obj pre = Some cur ->
  has_prop k cur = Ok false ->
  forallb plain (k :: next :: rest) = true ->
  (exists sub cur',
      fresh next = (if is_number next then JArr [] else JObj []) /\
      navigate (fresh next) next rest editedFields = Ok sub /\
      navigate cur k (next :: rest) editedFields = Ok cur' /\
      is_array sub = is_number next /\
      is_object sub = negb (is_number next) /\
      set_prop cur k sub = Ok cur' /\
      (if addressable cur k then child cur' k = Some sub else cur' = cur) /\
      updateJsonByPath json (PathArray (pre ++ k :: next :: rest)) editedFields node =
        JSON.stringify (put_path obj pre cur')) /\
  updateJsonByPath (js "{}") (PathArray [SKey "p"; SKey "q"])
    (JObj [("v"%string, JNum 1)]) None =
  JSON.stringify (JObj [("p"%string, JObj [("q"%string, JObj [("v"%string, JNum 1)])])]).
Proof.
  intros Hp Hget Hhas _. split; [|reflexivity].
  apply has_prop_false in Hhas as [Hc Hnone].
  destruct (navigate_fresh rest next next editedFields) as (sub & Hsub).
  destruct (set_prop_container cur k sub Hc) as (cur' & Hset & _).
  exists sub, cur'.
  destruct (navigate_kind _ _ _ _ _ (is_container_fresh next) Hsub) as [Ha Ho].
  repeat split.
  - assumption.
  - rewrite (navigate_missing _ _ _ _ _ Hc Hnone), Hsub. exact Hset.
  - rewrite Ha. unfold fresh. destruct (is_number next); reflexivity.
  - rewrite Ho. unfold fresh. destruct (is_number next); reflexivity.
  - assumption.
  - destruct (addressable cur k) eqn:Haddr.
    + eapply child_set_prop_addressable; eassumption.
    + destruct cur as [| | | |l|ps]; try discriminate. simpl in Haddr, Hset.
      destruct (array_index (prop_name k)); [discriminate|].
      inversion Hset. reflexivity.
  - rewrite (update_walk json obj) by (assumption || destruct pre; discriminate).
    rewrite (navigate_along pre obj cur) by assumption.
    rewrite (navigate_missing _ _ _ _ _ Hc Hnone), Hsub. simpl.
    rewrite Hset. reflexivity.
Qed.

Lemma missing_key_synthesized_witness :
  let json := js "{'a': {}}" in
  let obj := JObj [("a"%string, JObj [])] in
  JSON.parse json = Some obj /\
  get_path obj [SKey "a"] = Some (JObj []) /\
  has_prop (SKey "p") (JObj []) = Ok false /\
  forallb plain (SKey "p" :: SIdx 1 :: [SKey "q"]) = true /\
  (exists sub cur',
      fresh (SIdx 1) = (if is_number (SIdx 1) then JArr [] else JObj []) /\
      navigate (fresh (SIdx 1)) (SIdx 1) [SKey "q"] (JNum 7) = Ok sub /\
      navigate (JObj []) (SKey "p") (SIdx 1 :: [SKey "q"]) (JNum 7) = Ok cur' /\
      is_array sub = is_number (SIdx 1) /\
      is_object sub = negb (is_number (SIdx 1)) /\
      set_prop (JObj []) (SKey "p") sub = Ok cur' /\
      (if addressable (JObj []) (SKey "p") then child cur' (SKey "p") = Some sub
       else cur' = JObj []) /\
      updateJsonByPath json (PathArray ([SKey "a"] ++ SKey "p" :: SIdx 1 :: [SKey "q"]))
        (JNum 7) None =
        JSON.stringify (put_path obj [SKey "a"] cur')) /\
  updateJsonByPath (js "{}") (PathArray [SKey "p"; SKey "q"])
    (JObj [("v"%string, JNum 1)]) None =
  JSON.stringify (JObj [("p"%string, JObj [("q"%string, JObj [("v"%string, JNum 1)])])]).
Proof.
  intros json obj.
  split; [reflexivity|]. split; [reflexivity|]. split; [reflexivity|].
  split; [reflexivity|].
  apply (missing_key_synthesized json obj [SKey "a"] (JObj []) (SKey "p") (SIdx 1)
           [SKey "q"] (JNum 7) None); reflexivity.
Defined.

Lemma add_row_entry (obj : props) (row : NodeRow) :
  add_row obj row =
  match scalar_entry row with
  | Some (k, v) => define_prop k v obj
  | None => obj
  end.
Proof.
  unfold add_row, scalar_entry.
  destruct (key row) as [[|c k]|]; simpl;
    destruct (negb (String.eqb (type row) "array")
              && negb (String.eqb (type row) "object")); reflexivity.
Qed.

Lemma lookup_fold_add_row (name : string) (rows : list NodeRow) (acc : props) :
  lookup name (fold_left add_row rows acc) =
  match last_value name rows with
  | Some v => Some v
  | None => lookup name acc
  end.
Proof.
  revert acc. induction rows as [|row r IH]; intros acc; simpl; [reflexivity|].
  rewrite IH. destruct (last_value name r); [reflexivity|].
  rewrite add_row_entry. destruct (scalar_entry row) as [[k v]|]; [|reflexivity].
  rewrite lookup_define. destruct (String.eqb name k); reflexivity.
Qed.

Lemma last_value_In (name : string) (rows : list NodeRow) :
  last_value name rows <> None <->
  exists row v, In row rows /\ scalar_entry row = Some (name, v).
Proof.
  induction rows as [|row r IH]; simpl.
  - split; [congruence|]. intros (row & v & [] & _).
  - destruct (last_value name r) as [v0|].
    + split; [|congruence]. intros _.
      destruct (proj1 IH) as (row' & v & Hin & E); [congruence|]. eauto.
    + destruct (scalar_entry row) as [[k v]|] eqn:E.
      * destruct (String.eqb_spec name k) as [->|Hne].
        -- split; [|congruence]. intros _. exists row, v. auto.
        -- split; [congruence|]. intros (row' & v' & [<-|Hin] & E').
           ++ congruence.
           ++ apply IH. eauto.
      * split; [congruence|]. intros (row' & v' & [<-|Hin] & E').
        -- congruence.
        -- apply IH. eauto.
Qed.

Lemma wf_fold_add_row (rows : list NodeRow) (acc : props) :
  Forall (fun row => wf (value row)) rows -> wf (JObj acc) ->
  wf (JObj (fold_left add_row rows acc)).
Proof.
  intros H. revert acc. induction H as [|row r Hrow Hr IH]; intros acc Hacc; simpl.
  - assumption.
  - apply IH. rewrite add_row_entry.
    destruct (scalar_entry row) as [[k v]|] eqn:E; [|assumption].
    apply wf_define_prop; [|assumption].
    unfold scalar_entry in E. destruct (key row); [|discriminate].
    destruct (_ && _); inversion E; subst. assumption.
Qed.

Lemma normalize_object (rows : list NodeRow) :
  rows <> [] ->
  ~ (exists row, rows = [row] /\ truthy_key (key row) = false) ->
  normalizeNodeData rows = JSON.stringify (JObj (fold_left add_row rows [])).
Proof.
  intros Hne Hlone. unfold normalizeNodeData.
  destruct rows as [|row0 r]; [congruence|].
  destruct r as [|row1 r].
  - simpl List.length. simpl andb.
    destruct (truthy_key (key row0)) eqn:E; [reflexivity|].
    exfalso. apply Hlone. eauto.
  - reflexivity.
Qed.

(** C7, as the claim states it, fails on rows whose key is the empty
    string.  Such a row has a key and is neither an array nor an object
    row, yet the mapping does not contain it; and a single such row, which
    is not a row without key, is rendered as its bare value, here a text
    that is not JSON at all. *)
Lemma empty_key_row_not_in_mapping :
  let rows := [mkRow (Some ""%string) (JNum 1) "number";
               mkRow (Some "a"%string) (JNum 2) "number"] in
  let lone := [mkRow (Some ""%string) (JStr "x") "string"] in
  (rows <> [] /\
   (forall row, rows <> [row]) /\
   (exists row, In row rows /\ key row = Some ""%string /\ value row = JNum 1 /\
                type row <> "array"%string /\ type row <> "object"%string) /\
   normalizeNodeData rows = JSON.stringify (JObj [("a"%string, JNum 2)]) /\
   JSON.parse (normalizeNodeData rows) = Some (JObj [("a"%string, JNum 2)]) /\
   lookup ""%string [("a"%string, JNum 2)] = None) /\
  (lone <> [] /\
   (forall row, lone = [row] -> key row <> None) /\
   normalizeNodeData lone = "x"%string /\
   JSON.parse (normalizeNodeData lone) = None).
Proof.
  intros rows lone. split.
  - split; [discriminate|]. split; [intros row; discriminate|]. split.
    + exists (mkRow (Some ""%string) (JNum 1) "number"). simpl.
      repeat split; try discriminate. left. reflexivity.
    + repeat split; reflexivity.
  - split; [discriminate|]. split.
    + intros row E. inversion E. discriminate.
    + split; reflexivity.
Qed.

(** C7, amended.  For a sequence of rows that is not empty and is not a
    single row whose key is missing or empty, [normalizeNodeData] gives
    the 2-space-indented serialisation of an object, and that text parses
    back to the object: its keys are exactly the keys of the rows whose
    key is a non-empty string and that are neither array nor object rows,
    each with the value of its row (of the last one, should two rows
    share a key).  None of these rows has the key [__proto__], and the
    values of the rows are JavaScript values, that is, well formed. *)
Theorem normalize_reparses (rows : list NodeRow) :
  rows <> [] ->
  ~ (exists row, rows = [row] /\ truthy_key (key row) = false) ->
  ~ In "__proto__"%string (map fst (scalar_entries rows)) ->
  Forall (fun row => wf (value row)) rows ->
  exists m,
    normalizeNodeData rows = JSON.stringify (JObj m) /\
    JSON.parse (normalizeNodeData rows) = Some (JObj m) /\
    (forall name, lookup name m = last_value name rows) /\
    (forall name,
        lookup name m <> None <->
        exists row v, In row rows /\ scalar_entry row = Some (name, v)).
Proof.
  intros Hne Hlone _ Hwf. exists (fold_left add_row rows []).
  rewrite normalize_object by assumption.
  assert (Hl : forall name, lookup name (fold_left add_row rows []) = last_value name rows).
  { intros name. rewrite lookup_fold_add_row. destruct (last_value name rows); reflexivity. }
  repeat split.
  - apply parse_of_stringify, wf_fold_add_row; [assumption|].
    simpl. repeat constructor.
  - exact Hl.
  - rewrite Hl. apply last_value_In.
  - rewrite Hl. apply last_value_In.
Qed.

Lemma normalize_reparses_witness :
  let rows := [mkRow (Some "a"%string) (JNum 1) "number";
               mkRow (Some "list"%string) JNull "array";
               mkRow None (JStr "x") "string";
               mkRow (Some "b"%string) (JStr "y") "string"] in
  rows <> [] /\
  ~ (exists row, rows = [row] /\ truthy_key (key row) = false) /\
  ~ In "__proto__"%string (map fst (scalar_entries rows)) /\
  Forall (fun row => wf (value row)) rows /\
  exists m,
    normalizeNodeData rows = JSON.stringify (JObj m) /\
    JSON.parse (normalizeNodeData rows) = Some (JObj m) /\
    (forall name, lookup name m = last_value name rows) /\
    (forall name,
        lookup name m <> None <->
        exists row v, In row rows /\ scalar_entry row = Some (name, v)).
Proof.
  intros rows.
  assert (H1 : rows <> []) by discriminate.
  assert (H2 : ~ (exists row, rows = [row] /\ truthy_key (key row) = false)).
  { intros (row & E & _). discriminate E. }
  assert (H3 : Forall (fun row => wf (value row)) rows).
  { repeat constructor. }
  assert (H4 : ~ In "__proto__"%string (map fst (scalar_entries rows))).
  { simpl. intuition discriminate. }
  split; [exact H1|]. split; [exact H2|]. split; [exact H4|]. split; [exact H3|].
  exact (normalize_reparses rows H1 H2 H4 H3).
Defined.

Lemma fold_add_row_without_empty_key (rows : list NodeRow) (acc : props) :
  fold_left add_row (map without_empty_key rows) acc = fold_left add_row rows acc.
Proof.
  revert acc. induction rows as [|row r IH]; intros acc; simpl; [reflexivity|].
  rewrite IH. f_equal. unfold add_row, without_empty_key.
  destruct row as [[[|c k]|] v t]; simpl;
    destruct (negb (String.eqb t "array") && negb (String.eqb t "object"));
    reflexivity.
Qed.

Lemma fold_add_row_filter (rows : list NodeRow) (acc : props) :
  fold_left add_row (filter (fun row => negb (has_empty_key row)) rows) acc =
  fold_left add_row rows acc.
Proof.
  revert acc. induction rows as [|row r IH]; intros acc; simpl; [reflexivity|].
  unfold has_empty_key at 1. destruct row as [[[|c k]|] v t]; simpl; rewrite IH.
  - f_equal. unfold add_row. simpl.
    destruct (negb (String.eqb t "array") && negb (String.eqb t "object"));
      reflexivity.
  - reflexivity.
  - reflexivity.
Qed.

(** C10. [normalizeNodeData] takes a key that is the empty string for a
    missing key: a single row with the key [""] is rendered as the bare
    text of its value, the result for any rows is the one for the same
    rows with every empty key removed, and for two rows or more the
    object serialised has no key [""] and is the one built from the rows
    whose key is not empty. *)
Theorem empty_key_is_no_key :
  (forall v t, normalizeNodeData [mkRow (Some ""%string) v t] = to_display v) /\
  (forall rows,
      normalizeNodeData rows = normalizeNodeData (map without_empty_key rows)) /\
  (forall row1 row2 rows,
      exists m,
        normalizeNodeData (row1 :: row2 :: rows) = JSON.stringify (JObj m) /\
        lookup ""%string m = None /\
        m = fold_left add_row
              (filter (fun row => negb (has_empty_key row)) (row1 :: row2 :: rows)) []).
Proof.
  split; [reflexivity|]. split.
  - intros rows. unfold normalizeNodeData.
    destruct rows as [|row0 r]; [reflexivity|].
    rewrite fold_add_row_without_empty_key, length_map, map_cons. cbv iota.
    replace (truthy_key (key (without_empty_key row0))) with (truthy_key (key row0))
      by (destruct row0 as [[[|]|] v t]; reflexivity).
    replace (value (without_empty_key row0)) with (value row0)
      by (destruct row0 as [[[|]|] v t]; reflexivity).
    reflexivity.
  - intros row1 row2 rows. exists (fold_left add_row (row1 :: row2 :: rows) []).
    split; [reflexivity|]. split.
    + rewrite lookup_fold_add_row.
      destruct (last_value "" (row1 :: row2 :: rows)) eqn:E; [|reflexivity].
      exfalso. assert (H : last_value "" (row1 :: row2 :: rows) <> None) by congruence.
      apply last_value_In in H as (row & v & _ & H).
      unfold scalar_entry in H. destruct (key row) as [k|]; [|discriminate].
      destruct (String.eqb_spec k ""); simpl in H; [discriminate|].
      destruct (_ && _); inversion H. congruence.
    + symmetry. apply fold_add_row_filter.
Qed.

Lemma addressable_container (cur : jsval) (k : selector) :
  addressable cur k = true -> is_container cur = true.
Proof. destruct cur; simpl; congruence. Qed.

Lemma navigate_replaces (rest : list selector) (cur : jsval) (k : selector)
  (ef : jsval) :
  replaces cur k rest = true ->
  exists cur', navigate cur k rest ef = Ok cur' /\ get_path cur' (k :: rest) = Some ef.
Proof.
  revert cur k. induction rest as [|next rest IH]; intros cur k H; simpl in H.
  - apply andb_true_iff in H as [Ha Hno].
    pose proof (addressable_container _ _ Ha) as Hc.
    destruct (set_prop_container cur k ef Hc) as (cur' & Hs & _).
    exists cur'. split.
    + simpl. rewrite write_slot_container by assumption.
      destruct (child cur k) as [[| | | | |ps]|]; try assumption. discriminate.
    + simpl. rewrite (child_set_prop_addressable _ _ _ _ Ha Hs). reflexivity.
  - destruct (child cur k) as [c|] eqn:Hc.
    + destruct (IH c next H) as (c' & Hn & Hg).
      destruct (set_prop_container cur k c' (child_container _ _ _ Hc))
        as (cur' & Hs & _).
      exists cur'. split.
      * rewrite (navigate_present _ _ _ _ _ _ Hc), Hn. exact Hs.
      * change (get_path cur' (k :: next :: rest))
          with (match child cur' k with
                | Some c0 => get_path c0 (next :: rest)
                | None => None
                end).
        rewrite (child_set_prop _ _ _ _ _ Hc Hs). exact Hg.
    + apply andb_true_iff in H as [Ha H].
      pose proof (addressable_container _ _ Ha) as Hcont.
      destruct (IH (fresh next) next H) as (c' & Hn & Hg).
      destruct (set_prop_container cur k c' Hcont) as (cur' & Hs & _).
      exists cur'. split.
      * rewrite (navigate_missing _ _ _ _ _ Hcont Hc), Hn. exact Hs.
      * change (get_path cur' (k :: next :: rest))
          with (match child cur' k with
                | Some c0 => get_path c0 (next :: rest)
                | None => None
                end).
        rewrite (child_set_prop_addressable _ _ _ _ Ha Hs). exact Hg.
Qed.

Lemma handleSave_parses (json : string) (obj : jsval) (rows : list NodeRow)
  (p : list selector) (editedValue : string) :
  JSON.parse json = Some obj ->
  handleSave json (Some (mkNode rows (Some p))) editedValue =
  Some (updateJsonByPath json (PathArray p) (parse_edited editedValue)
          (Some (mkNode rows (Some p)))).
Proof.
  intros Hp. unfold handleSave, save_text. simpl.
  rewrite (update_parses json obj) by (assumption || apply wf_parse_edited).
  reflexivity.
Qed.




Lemma fold_add_row_Forall (P : string * jsval -> Prop) (rows : list NodeRow)
  (acc : props) :
  Forall P acc ->
  Forall (fun row => forall k v, scalar_entry row = Some (k, v) -> P (k, v)) rows ->
  Forall P (fold_left add_row rows acc).
Proof.
  intros Hacc H. revert acc Hacc.
  induction H as [|row r Hrow Hr IH]; intros acc Hacc; simpl; [assumption|].
  apply IH. rewrite add_row_entry.
  destruct (scalar_entry row) as [[k v]|]; [|assumption].
  apply Forall_define_prop; auto.
Qed.

Lemma wf_keys_fold_add_row (rows : list NodeRow) (acc : props) :
  wf_keys (map fst acc) -> wf_keys (map fst (fold_left add_row rows acc)).
Proof.
  revert acc. induction rows as [|row r IH]; intros acc H; simpl; [assumption|].
  apply IH. rewrite add_row_entry.
  destruct (scalar_entry row) as [[k v]|]; [|assumption].
  apply wf_keys_define_prop. assumption.
Qed.

Lemma In_lookup (k : string) (v : jsval) (ps : props) :
  NoDup (map fst ps) -> In (k, v) ps -> lookup k ps = Some v.
Proof.
  induction ps as [|[k' v'] r IH]; simpl; intros Hnd Hin; [contradiction|].
  inversion Hnd as [|? ? Hnin Hnd']; subst.
  destruct Hin as [E|Hin].
  - inversion E; subst. rewrite String.eqb_refl. reflexivity.
  - destruct (String.eqb_spec k k') as [->|_]; [|auto].
    exfalso. apply Hnin. apply (in_map fst) in Hin. exact Hin.
Qed.

Lemma merge_fields_same (ps entries : props) :
  Forall (fun kv => lookup (fst kv) ps = Some (snd kv) /\ is_leaf (snd kv) = true)
         entries ->
  merge_fields ps entries = ps.
Proof.
  unfold merge_fields. induction 1 as [|[k v] r [Hl Hleaf] Hr IH]; simpl in *.
  - reflexivity.
  - rewrite Hleaf, assign_prop_present by congruence.
    rewrite define_prop_same_value by assumption. exact IH.
Qed.

Lemma is_leaf_type_name (v : jsval) :
  negb (String.eqb (type_name v) "array") && negb (String.eqb (type_name v) "object")
  = is_leaf v.
Proof. destruct v; reflexivity. Qed.

Lemma object_rows_entries (ps : props) (rows : list NodeRow) :
  NoDup (map fst ps) ->
  Forall2 (fun kv row =>
             key row = Some (fst kv) /\ type row = type_name (snd kv) /\
             (is_leaf (snd kv) = true -> value row = snd kv))
          ps rows ->
  Forall (fun row => forall k v, scalar_entry row = Some (k, v) ->
                     lookup k ps = Some v /\ is_leaf v = true) rows.
Proof.
  intros Hnd H.
  assert (Hin : Forall (fun row => exists kv, In kv ps /\
                   key row = Some (fst kv) /\ type row = type_name (snd kv) /\
                   (is_leaf (snd kv) = true -> value row = snd kv)) rows).
  { clear Hnd. induction H as [|kv row ps' rows' Hr H2 IH]; constructor.
    - exists kv. split; [left; reflexivity|exact Hr].
    - eapply Forall_impl; [|exact IH].
      intros row' (kv' & Hin & Hrest). exists kv'. split; [right; assumption|exact Hrest]. }
  eapply Forall_impl; [|exact Hin].
  intros row ([k0 v0] & Hk & Hkey & Htype & Hval) k v E. simpl in *.
  unfold scalar_entry in E. rewrite Hkey, Htype in E.
  rewrite <- andb_assoc, is_leaf_type_name in E.
  destruct (negb (String.eqb k0 "") && is_leaf v0) eqn:C; [|discriminate].
  apply andb_true_iff in C as [_ Hleaf]. inversion E; subst.
  rewrite (Hval Hleaf). split; [|assumption]. apply In_lookup; assumption.
Qed.

(** The unedited text of a node that reads back, taken as the edited
    fields, changes nothing at the node's slot. *)
Lemma write_slot_unedited (parent : jsval) (k : selector) (target : jsval)
  (rows : list NodeRow) :
  wf parent ->
  child parent k = Some target ->
  node_rows target rows ->
  reads_back target = true ->
  write_slot parent k (parse_edited (normalizeNodeData rows)) = Ok parent.
Proof.
  intros Hwf Hc Hrows Hrb.
  pose proof (child_container _ _ _ Hc) as Hcont.
  rewrite write_slot_container, Hc by assumption.
  destruct Hrows as [v Hleaf|ps rows H2].
  - assert (He : parse_edited (normalizeNodeData [mkRow None v (type_name v)]) = v).
    { change (normalizeNodeData [mkRow None v (type_name v)]) with (to_display v).
      unfold parse_edited.
      destruct v as [|[]|z|s| |]; try discriminate; try reflexivity.
      - change (to_display (JNum z)) with (JSON.stringify (JNum z)).
        rewrite parse_of_stringify by exact I. reflexivity.
      - change (to_display (JStr s)) with s.
        simpl in Hrb. destruct (JSON.parse s); [discriminate|reflexivity]. }
    rewrite He. destruct v; try discriminate; apply set_prop_same; assumption.
  - assert (Hps : wf (JObj ps)) by (apply (wf_child parent k); assumption).
    apply wf_JObj in Hps as [[Hnd _] Hvals].
    pose proof (object_rows_entries ps rows Hnd H2) as Hent.
    assert (He : exists m, parse_edited (normalizeNodeData rows) = JObj m /\
                   Forall (fun kv => lookup (fst kv) ps = Some (snd kv) /\
                                     is_leaf (snd kv) = true) m).
    { destruct rows as [|row0 rows'].
      - exists []. split; [reflexivity|constructor].
      - exists (fold_left add_row (row0 :: rows') []).
        assert (Hall : Forall (fun kv => lookup (fst kv) ps = Some (snd kv) /\
                                is_leaf (snd kv) = true)
                         (fold_left add_row (row0 :: rows') [])).
        { apply fold_add_row_Forall; [constructor|].
          eapply Forall_impl; [|exact Hent]. intros row Hrow k0 v0 E. simpl.
          auto. }
        split; [|exact Hall].
        rewrite normalize_object.
        + unfold parse_edited. rewrite parse_of_stringify; [reflexivity|].
          apply wf_JObj. split.
          * apply wf_keys_fold_add_row. simpl. split; constructor.
          * eapply Forall_impl; [|exact Hall].
            intros kv [_ Hl]. apply wf_leaf, Hl.
        + discriminate.
        + intros (row & E & Hfalsy). inversion E; subst.
          inversion H2 as [|[k0 v0] ? ps' ? Hr Hrest]; subst.
          inversion Hrest; subst. destruct Hr as (Hkey & _). simpl in *.
          rewrite Hkey in Hfalsy. destruct k0; simpl in *; discriminate. }
    destruct He as (m & -> & Hm). simpl.
    rewrite merge_fields_same by assumption. apply set_prop_same. assumption.
Qed.

(** C4, as the claim states it, fails on three inputs.  The document
    [[1]] is edited at [0] to the string ["123"]; the node re-read from the
    merged document is shown as the bare text [123], and saving that text
    unchanged stores the number [123]: the document after the second save
    differs from the one before it, and from the first.  At the empty
    path the unedited text of the root object replaces the whole
    document, and the nested child is lost.  An object whose only key is
    the empty string is shown as the bare text of its value, which is
    then merged into the object character by character. *)
Lemma round_trip_changes_document :
  (let node rows := Some (mkNode rows (Some [SIdx 0])) in
   let rows1 := [mkRow None (JStr "123") "string"] in
   exists merged resaved,
     handleSave (js "[1]") (node [mkRow None (JNum 1) "number"]) (js "'123'")
       = Some merged /\
     JSON.parse merged = Some (JArr [JStr "123"]) /\
     node_rows (JStr "123") rows1 /\
     normalizeNodeData rows1 = "123"%string /\
     handleSave merged (node rows1) (normalizeNodeData rows1) = Some resaved /\
     JSON.parse resaved = Some (JArr [JNum 123]) /\
     JSON.parse resaved <> JSON.parse merged /\
     JSON.parse resaved <> JSON.parse (js "[1]")) /\
  (let json := js "{'a': 1, 'n': {'z': 9}}" in
   let root := JObj [("a"%string, JNum 1); ("n"%string, JObj [("z"%string, JNum 9)])] in
   let rows := [mkRow (Some "a"%string) (JNum 1) "number";
                mkRow (Some "n"%string) JNull "object"] in
   exists resaved,
     JSON.parse json = Some root /\
     get_path root [] = Some root /\
     node_rows root rows /\
     handleSave json (Some (mkNode rows (Some []))) (normalizeNodeData rows)
       = Some resaved /\
     JSON.parse resaved = Some (JObj [("a"%string, JNum 1)]) /\
     JSON.parse resaved <> JSON.parse json) /\
  (let json := js "{'x': {'': 'ab'}}" in
   let target := JObj [(""%string, JStr "ab")] in
   let rows := [mkRow (Some ""%string) (JStr "ab") "string"] in
   exists resaved,
     JSON.parse json = Some (JObj [("x"%string, target)]) /\
     node_rows target rows /\
     normalizeNodeData rows = "ab"%string /\
     handleSave json (Some (mkNode rows (Some [SKey "x"]))) (normalizeNodeData rows)
       = Some resaved /\
     JSON.parse resaved =
       Some (JObj [("x"%string,
                    JObj [("0"%string, JStr "a"); ("1"%string, JStr "b");
                          (""%string, JStr "ab")])]) /\
     JSON.parse resaved <> JSON.parse json).
Proof.
  split; [|split].
  - intros node rows1. eexists. eexists.
    split; [vm_compute; reflexivity|].
    split; [vm_compute; reflexivity|].
    split; [apply (rows_of_scalar (JStr "123")); reflexivity|].
    split; [reflexivity|].
    split; [vm_compute; reflexivity|].
    split; [vm_compute; reflexivity|].
    split; vm_compute; discriminate.
  - intros json root rows. eexists.
    split; [reflexivity|]. split; [reflexivity|].
    split; [apply rows_of_object; repeat constructor; discriminate|].
    split; [vm_compute; reflexivity|].
    split; [vm_compute; reflexivity|].
    vm_compute. discriminate.
  - intros json target rows. eexists.
    split; [reflexivity|].
    split; [apply rows_of_object; repeat constructor|].
    split; [reflexivity|].
    split; [vm_compute; reflexivity|].
    split; [vm_compute; reflexivity|].
    vm_compute. discriminate.
Qed.

(** C4, amended.  For a document that parses, a path that is not empty
    and leads to a node that reads back (a string that is not itself JSON
    text, any other scalar, or an object other than the one whose only
    key is the empty string), saving the node's unedited text stores the
    serialisation of the same tree, which parses to that tree. *)
Theorem round_trip_unedited (json : string) (doc : jsval) (p : list selector)
  (target : jsval) (rows : list NodeRow) :
  JSON.parse json = Some doc ->
  p <> [] ->
  get_path doc p = Some target ->
  node_rows target rows ->
  reads_back target = true ->
  handleSave json (Some (mkNode rows (Some p))) (normalizeNodeData rows)
    = Some (JSON.stringify doc) /\
  JSON.parse (JSON.stringify doc) = Some doc.
Proof.
  intros Hp Hne Hget Hrows Hrb.
  assert (Hwf : wf doc) by (eapply parse_is_wf, Hp).
  split; [|apply parse_of_stringify, Hwf].
  rewrite (handleSave_parses json doc) by assumption. f_equal.
  destruct (split_last p Hne) as (pre & k & ->).
  rewrite get_path_app in Hget.
  destruct (get_path doc pre) as [parent|] eqn:Hpre; [|discriminate].
  simpl in Hget. destruct (child parent k) as [c|] eqn:Hc; [|discriminate].
  inversion Hget; subst c.
  rewrite (update_walk json doc) by (assumption || destruct pre; discriminate).
  rewrite (navigate_along pre doc parent) by assumption.
  simpl navigate.
  rewrite (write_slot_unedited parent k target rows); try assumption.
  - simpl. rewrite (put_path_same pre doc parent) by assumption. reflexivity.
  - apply (wf_get_path pre doc); assumption.
Qed.

Lemma round_trip_unedited_witness :
  let json := js "{'x': {'a': 1, 'nested': {'z': 9}}}" in
  let target := JObj [("a"%string, JNum 1); ("nested"%string, JObj [("z"%string, JNum 9)])] in
  let doc := JObj [("x"%string, target)] in
  let rows := [mkRow (Some "a"%string) (JNum 1) "number";
               mkRow (Some "nested"%string) JNull "object"] in
  JSON.parse json = Some doc /\
  [SKey "x"] <> [] /\
  get_path doc [SKey "x"] = Some target /\
  node_rows target rows /\
  reads_back target = true /\
  handleSave json (Some (mkNode rows (Some [SKey "x"]))) (normalizeNodeData rows)
    = Some (JSON.stringify doc) /\
  JSON.parse (JSON.stringify doc) = Some doc.
Proof.
  intros json target doc rows.
  assert (Hrows : node_rows target rows).
  { apply rows_of_object. repeat constructor; discriminate. }
  split; [reflexivity|]. split; [discriminate|]. split; [reflexivity|].
  split; [exact Hrows|]. split; [reflexivity|].
  apply (round_trip_unedited json doc [SKey "x"] target rows);
    [reflexivity|discriminate|reflexivity|exact Hrows|reflexivity].
Defined.

(** ** The examples of the specification *)

Example normalize_no_rows : normalizeNodeData [] = "{}"%string.
Proof. reflexivity. Qed.

Example normalize_single_value :
  normalizeNodeData [mkRow None (JStr "hello") "string"] = "hello"%string.
Proof. reflexivity. Qed.

Example format_root : jsonPathToString (Some []) = "$"%string.
Proof. reflexivity. Qed.

Example format_nested :
  jsonPathToString (Some [SKey "a"; SIdx 0; SKey "b"]) = js "$['a'][0]['b']".
Proof. reflexivity. Qed.

Example replace_at_root :
  JSON.parse (updateJsonByPath (js "{'a':1}") (PathArray [])
                (JObj [("b"%string, JNum 2)]) None)
  = Some (JObj [("b"%string, JNum 2)]).
Proof. reflexivity. Qed.

Example create_missing_containers :
  JSON.parse (updateJsonByPath (js "{}") (PathArray [SKey "p"; SKey "q"])
                (JObj [("v"%string, JNum 1)]) None)
  = JSON.parse (js "{'p':{'q':{'v':1}}}").
Proof. reflexivity. Qed.

Example malformed_document_returned :
  updateJsonByPath (js "{'a':") (PathArray [SKey "a"]) (JNum 1) None = js "{'a':".
Proof. reflexivity. Qed.

(** * Further properties of the code *)

(** ** The path argument *)

Lemma path_string_as_array (json : string) (c : ascii) (s : string)
  (ef : jsval) (node : option NodeData) :
  updateJsonByPath json (PathString (String c s)) ef node =
  updateJsonByPath json (PathArray [SKey (String c s)]) ef node.
Proof. reflexivity. Qed.

Lemma path_empty_string (json : string) (ef : jsval) (node : option NodeData) :
  updateJsonByPath json (PathString EmptyString) ef node =
  updateJsonByPath json (PathArray []) ef node.
Proof. reflexivity. Qed.

Lemma update_selectors (json : string) (path : path_arg) (ef : jsval)
  (node : option NodeData) :
  updateJsonByPath json path ef node =
  updateJsonByPath json (PathArray (selectors path)) ef node.
Proof. destruct path as [[|c s]|l]; reflexivity. Qed.

(** ** The text returned is a document *)

(** X1. For a document that parses and edited fields that are a
    JavaScript value, the text [updateJsonByPath] returns parses, whatever
    the path. *)
Theorem update_keeps_json_valid (json : string) (obj : jsval) (path : path_arg)
  (editedFields : jsval) (node : option NodeData) :
  JSON.parse json = Some obj ->
  wf editedFields ->
  exists doc,
    JSON.parse (updateJsonByPath json path editedFields node) = Some doc /\ wf doc.
Proof.
  intros Hp Hef. rewrite update_selectors.
  rewrite (update_parses json obj) by assumption.
  eexists. split; [reflexivity|].
  pose proof (parse_is_wf _ _ Hp) as Hobj.
  destruct (selectors path) as [|k rest]; [assumption|].
  destruct (navigate obj k rest editedFields) as [obj'|] eqn:E; [|assumption].
  apply (wf_navigate rest obj k editedFields obj'); assumption.
Qed.

Lemma update_keeps_json_valid_witness :
  JSON.parse (js "{'a': [1, 2]}") = Some (JObj [("a"%string, JArr [JNum 1; JNum 2])]) /\
  wf (JStr "x") /\
  exists doc,
    JSON.parse (updateJsonByPath (js "{'a': [1, 2]}") (PathArray [SKey "a"; SIdx 5])
                  (JStr "x") None) = Some doc /\ wf doc.
Proof.
  split; [reflexivity|]. split; [exact I|].
  apply (update_keeps_json_valid (js "{'a': [1, 2]}")
           (JObj [("a"%string, JArr [JNum 1; JNum 2])])
           (PathArray [SKey "a"; SIdx 5]) (JStr "x") None); [reflexivity|exact I].
Defined.

(** X2. [handleSave] stores a text exactly when the current document
    parses: the validation of the updated text fails only for a document
    that is itself not JSON, and then nothing is stored. *)
Theorem handleSave_stores_iff (currentJson : string) (nodeData : option NodeData)
  (editedValue : string) :
  handleSave currentJson nodeData editedValue <> None <->
  JSON.parse currentJson <> None.
Proof.
  unfold handleSave, save_text.
  set (p := match nodeData with
            | Some node => match path node with Some p => p | None => [] end
            | None => []
            end).
  destruct (JSON.parse currentJson) as [obj|] eqn:Hp.
  - rewrite (update_parses currentJson obj) by (assumption || apply wf_parse_edited).
    split; congruence.
  - unfold updateJsonByPath, updateJsonByPath_try. rewrite Hp. simpl. rewrite Hp.
    split; congruence.
Qed.

(** ** Replacement *)

(** X3. Where the walk, along selectors that are plain names, ends on a
    slot it can write and that holds no object, the edited fields,
    whatever they are, become the value of the slot: the returned text
    parses to a document that holds them at the path. *)
Theorem slot_replaced_wholesale (json : string) (obj : jsval) (k : selector)
  (rest : list selector) (editedFields : jsval) (node : option NodeData) :
  JSON.parse json = Some obj ->
  wf editedFields ->
  forallb plain (k :: rest) = true ->
  replaces obj k rest = true ->
  exists doc,
    JSON.parse (updateJsonByPath json (PathArray (k :: rest)) editedFields node)
      = Some doc /\
    get_path doc (k :: rest) = Some editedFields.
Proof.
  intros Hp Hef _ Hrep.
  rewrite (update_parses json obj) by assumption.
  destruct (navigate_replaces rest obj k editedFields Hrep) as (obj' & -> & Hg).
  eauto.
Qed.

Lemma slot_replaced_wholesale_witness :
  let json := js "{'list': [1, 2], 'n': 3}" in
  let obj := JObj [("list"%string, JArr [JNum 1; JNum 2]); ("n"%string, JNum 3)] in
  let ef := JObj [("deep"%string, JArr [JNull])] in
  JSON.parse json = Some obj /\
  wf ef /\
  forallb plain [SKey "list"] = true /\
  replaces obj (SKey "list") [] = true /\
  exists doc,
    JSON.parse (updateJsonByPath json (PathArray [SKey "list"]) ef None) = Some doc /\
    get_path doc [SKey "list"] = Some ef.
Proof.
  intros json obj ef.
  assert (Hwf : wf ef).
  { simpl. repeat split; constructor; simpl; auto; constructor. }
  split; [reflexivity|]. split; [exact Hwf|]. split; [reflexivity|].
  split; [reflexivity|].
  apply (slot_replaced_wholesale json obj (SKey "list") [] ef None);
    [reflexivity|exact Hwf|reflexivity|reflexivity].
Defined.

(** ** What an update leaves alone *)

Lemma nth_error_array_store_other (n m : nat) (v y : jsval) (l : list jsval) :
  n <> m -> nth_error l m = Some y -> nth_error (array_store n v l) m = Some y.
Proof.
  revert m l. induction n as [|n IH]; intros [|m] [|x r] Hne H; simpl in *;
    try discriminate; try congruence; auto.
Qed.

Lemma child_set_prop_other (cur : jsval) (k k' : selector) (v y cur' : jsval) :
  set_prop cur k v = Ok cur' ->
  prop_name k <> prop_name k' ->
  child cur k' = Some y -> child cur' k' = Some y.
Proof.
  destruct cur as [| | | |l|ps]; simpl; try discriminate; intros H Hne Hc.
  - destruct (array_index (prop_name k)) as [n|] eqn:En;
      inversion H; subst; simpl; [|assumption].
    destruct (array_index (prop_name k')) as [m|] eqn:Em; [|discriminate].
    apply nth_error_array_store_other; [|assumption].
    intros E. apply N2Nat.inj in E. subst m.
    apply array_index_Some in En, Em. congruence.
  - inversion H; subst. simpl. rewrite lookup_define_other; assumption.
Qed.

(** Whatever the walk does under [k], the other children of the container
    it starts from stay. *)
Lemma navigate_other_child (cur : jsval) (k k' : selector) (rest : list selector)
  (ef cur' y : jsval) :
  navigate cur k rest ef = Ok cur' ->
  prop_name k <> prop_name k' ->
  child cur k' = Some y -> child cur' k' = Some y.
Proof.
  intros Hn Hne Hc. pose proof (child_container _ _ _ Hc) as Hcont.
  destruct rest as [|next rest].
  - simpl in Hn. rewrite write_slot_container in Hn by assumption.
    destruct (child cur k) as [[| | | | |ps]|];
      try (eapply child_set_prop_other; eassumption).
    apply bind_Ok in Hn as (es & _ & Hn). eapply child_set_prop_other; eassumption.
  - destruct (child cur k) as [c|] eqn:E.
    + rewrite (navigate_present _ _ _ _ _ _ E) in Hn.
      apply bind_Ok in Hn as (c' & _ & Hn). eapply child_set_prop_other; eassumption.
    + rewrite (navigate_missing _ _ _ _ _ Hcont E) in Hn.
      apply bind_Ok in Hn as (c' & _ & Hn). eapply child_set_prop_other; eassumption.
Qed.

(** X4. An update does not disturb what lies beside its path: a node of
    the document reached by a path that leaves the path of the update at
    some selector is still there, unchanged, in the document returned.
    The selector at which the update goes its own way is a plain name (a
    write to the [length] of an array would cut the array short). *)
Theorem siblings_untouched (json : string) (obj : jsval) (common : list selector)
  (k k' : selector) (rest q : list selector) (x editedFields : jsval)
  (node : option NodeData) :
  JSON.parse json = Some obj ->
  wf editedFields ->
  plain k = true ->
  prop_name k <> prop_name k' ->
  get_path obj (common ++ k' :: q) = Some x ->
  exists doc,
    JSON.parse (updateJsonByPath json (PathArray (common ++ k :: rest)) editedFields node)
      = Some doc /\
    get_path doc (common ++ k' :: q) = Some x.
Proof.
  intros Hp Hef _ Hne Hget.
  rewrite (update_parses json obj) by assumption.
  eexists. split; [reflexivity|].
  destruct (common ++ k :: rest) as [|k0 rest0] eqn:Epath.
  { destruct common; discriminate. }
  change (navigate obj k0 rest0 editedFields) with (walk obj (k0 :: rest0) editedFields).
  rewrite <- Epath.
  rewrite get_path_app in Hget.
  destruct (get_path obj common) as [c0|] eqn:Hc0; [|discriminate].
  rewrite (navigate_along common obj c0) by assumption.
  destruct (navigate c0 k rest editedFields) as [c0'|] eqn:En; simpl.
  - rewrite get_path_app, (get_put_path common obj c0 c0') by assumption.
    simpl in *. destruct (child c0 k') as [y|] eqn:Hy; [|discriminate].
    rewrite (navigate_other_child _ _ _ _ _ _ _ En Hne Hy). assumption.
  - rewrite get_path_app, Hc0. assumption.
Qed.

Lemma siblings_untouched_witness :
  let json := js "{'x': {'a': 1, 'b': {'c': [true]}}, 'y': 2}" in
  let obj := JObj [("x"%string,
                    JObj [("a"%string, JNum 1);
                          ("b"%string, JObj [("c"%string, JArr [JBool true])])]);
                   ("y"%string, JNum 2)] in
  JSON.parse json = Some obj /\
  wf (JNum 5) /\
  plain (SKey "a") = true /\
  prop_name (SKey "a") <> prop_name (SKey "b") /\
  get_path obj ([SKey "x"] ++ SKey "b" :: [SKey "c"; SIdx 0]) = Some (JBool true) /\
  exists doc,
    JSON.parse (updateJsonByPath json (PathArray ([SKey "x"] ++ SKey "a" :: []))
                  (JNum 5) None) = Some doc /\
    get_path doc ([SKey "x"] ++ SKey "b" :: [SKey "c"; SIdx 0]) = Some (JBool true).
Proof.
  intros json obj.
  assert (Hne : prop_name (SKey "a") <> prop_name (SKey "b")) by discriminate.
  split; [reflexivity|]. split; [exact I|]. split; [reflexivity|].
  split; [exact Hne|]. split; [reflexivity|].
  apply (siblings_untouched json obj [SKey "x"] (SKey "a") (SKey "b") []
           [SKey "c"; SIdx 0] (JBool true) (JNum 5) None);
    [reflexivity|exact I|reflexivity|exact Hne|reflexivity].
Defined.

(** ** The merge into an object *)

(** The text returned when the slot holds an object, for any edited
    fields. *)
Lemma update_object_slot (json : string) (obj : jsval) (p : list selector)
  (fields : props) (ef : jsval) (node : option NodeData) :
  JSON.parse json = Some obj ->
  p <> [] ->
  get_path obj p = Some (JObj fields) ->
  updateJsonByPath json (PathArray p) ef node =
  match own_entries ef with
  | Ok es => JSON.stringify (put_path obj p (JObj (merge_fields fields es)))
  | Throw _ => json
  end.
Proof.
  intros Hp Hne Hget.
  destruct (split_last p Hne) as (pre & k & ->).
  rewrite get_path_app in Hget.
  destruct (get_path obj pre) as [parent|] eqn:Hpre; [|discriminate].
  simpl in Hget. destruct (child parent k) as [c|] eqn:Hc; [|discriminate].
  inversion Hget; subst c.
  pose proof (child_container _ _ _ Hc) as Hcont.
  rewrite (update_walk json obj) by (assumption || destruct pre; discriminate).
  rewrite (navigate_along pre obj parent) by assumption.
  simpl navigate. rewrite write_slot_container, Hc by assumption.
  destruct (own_entries ef) as [es|]; simpl; [|reflexivity].
  destruct (set_prop_container parent k (JObj (merge_fields fields es)) Hcont)
    as (parent' & Hs & _).
  rewrite Hs. simpl.
  rewrite (put_path_app pre [k] obj parent) by assumption.
  simpl. rewrite Hc, Hs. reflexivity.
Qed.

(** X5. Edited fields that are not a mapping leave an object alone.  When
    the slot holds an object, a number or a boolean has no keys to merge
    and the unchanged tree is serialised again; [null] makes
    [Object.keys] throw and the input text is returned. *)
Theorem scalar_edit_leaves_object (json : string) (obj : jsval) (p : list selector)
  (fields : props) (editedFields : jsval) (node : option NodeData) :
  JSON.parse json = Some obj ->
  p <> [] ->
  get_path obj p = Some (JObj fields) ->
  match editedFields with
  | JNull | JNum _ | JBool _ => true
  | _ => false
  end = true ->
  updateJsonByPath json (PathArray p) editedFields node =
    match editedFields with
    | JNull => json
    | _ => JSON.stringify obj
    end /\
  JSON.parse (updateJsonByPath json (PathArray p) editedFields node) = Some obj.
Proof.
  intros Hp Hne Hget Hkind.
  pose proof (parse_is_wf _ _ Hp) as Hwf.
  rewrite (update_object_slot json obj p fields) by assumption.
  destruct editedFields; try discriminate; simpl;
    rewrite ?(put_path_same p obj (JObj fields)) by assumption;
    auto using parse_of_stringify.
Qed.

Lemma scalar_edit_leaves_object_witness :
  let json := js "{'x':{'a':1}}" in
  let obj := JObj [("x"%string, JObj [("a"%string, JNum 1)])] in
  JSON.parse json = Some obj /\
  [SKey "x"] <> [] /\
  get_path obj [SKey "x"] = Some (JObj [("a"%string, JNum 1)]) /\
  updateJsonByPath json (PathArray [SKey "x"]) JNull None = json /\
  JSON.parse (updateJsonByPath json (PathArray [SKey "x"]) JNull None) = Some obj.
Proof.
  intros json obj.
  split; [reflexivity|]. split; [discriminate|]. split; [reflexivity|].
  apply (scalar_edit_leaves_object json obj [SKey "x"] [("a"%string, JNum 1)] JNull None);
    [reflexivity|discriminate|reflexivity|reflexivity].
Defined.

Lemma keys_merge_fields (edits fields : props) :
  Forall (fun kv => is_leaf (snd kv) = true -> lookup (fst kv) fields <> None) edits ->
  map fst (merge_fields fields edits) = map fst fields.
Proof.
  unfold merge_fields. intros H. revert fields H.
  induction edits as [|[k v] r IH]; intros fields H; simpl; [reflexivity|].
  inversion H as [|? ? Hkv Hr]; subst. simpl in Hkv.
  destruct (is_leaf v) eqn:E.
  - rewrite assign_prop_present by auto.
    assert (Hk : map fst (define_prop k v fields) = map fst fields).
    { unfold define_prop. destruct (lookup k fields) eqn:El.
      - apply keys_replace_prop.
      - exfalso. apply Hkv; reflexivity. }
    rewrite IH, Hk; [reflexivity|].
    eapply Forall_impl; [|exact Hr]. intros [k0 v0] Hl Hleaf. simpl in *.
    rewrite lookup_define. destruct (String.eqb k0 k); [discriminate|auto].
  - apply IH. assumption.
Qed.

(** X6. An edit of fields the object already has neither adds, removes
    nor reorders keys: when every key the edited fields give a leaf value
    is a key of the object in the slot, the object written back has the
    same keys in the same order. *)
Theorem edit_keeps_key_order (json : string) (obj : jsval) (p : list selector)
  (fields edits : props) (node : option NodeData) :
  JSON.parse json = Some obj ->
  p <> [] ->
  get_path obj p = Some (JObj fields) ->
  Forall (fun kv => is_leaf (snd kv) = true -> lookup (fst kv) fields <> None) edits ->
  exists merged,
    JSON.parse (updateJsonByPath json (PathArray p) (JObj edits) node) =
      Some (put_path obj p (JObj merged)) /\
    get_path (put_path obj p (JObj merged)) p = Some (JObj merged) /\
    map fst merged = map fst fields.
Proof.
  intros Hp Hne Hget Hedits. exists (merge_fields fields edits).
  pose proof (parse_is_wf _ _ Hp) as Hwf.
  rewrite (update_object_slot json obj p fields) by assumption. simpl.
  split; [|split].
  - apply parse_of_stringify, wf_put_path; [assumption|].
    apply wf_merge_fields. apply (wf_get_path p obj); assumption.
  - apply (get_put_path p obj (JObj fields)). assumption.
  - apply keys_merge_fields. assumption.
Qed.

Lemma edit_keeps_key_order_witness :
  let json := js "{'x': {'b': 1, 'n': {}, 'a': 2}}" in
  let fields := [("b"%string, JNum 1); ("n"%string, JObj []); ("a"%string, JNum 2)] in
  let obj := JObj [("x"%string, JObj fields)] in
  let edits := [("a"%string, JNum 7); ("b"%string, JStr "z")] in
  JSON.parse json = Some obj /\
  [SKey "x"] <> [] /\
  get_path obj [SKey "x"] = Some (JObj fields) /\
  Forall (fun kv => is_leaf (snd kv) = true -> lookup (fst kv) fields <> None) edits /\
  exists merged,
    JSON.parse (updateJsonByPath json (PathArray [SKey "x"]) (JObj edits) None) =
      Some (put_path obj [SKey "x"] (JObj merged)) /\
    get_path (put_path obj [SKey "x"] (JObj merged)) [SKey "x"] = Some (JObj merged) /\
    map fst merged = map fst fields.
Proof.
  intros json fields obj edits.
  assert (He : Forall (fun kv => is_leaf (snd kv) = true ->
                                 lookup (fst kv) fields <> None) edits).
  { repeat constructor; simpl; discriminate. }
  split; [reflexivity|]. split; [discriminate|]. split; [reflexivity|].
  split; [exact He|].
  apply (edit_keeps_key_order json obj [SKey "x"] fields edits None);
    [reflexivity|discriminate|reflexivity|exact He].
Defined.

(** ** Arrays *)

Lemma array_store_past_end (n : nat) (v : jsval) (l : list jsval) :
  List.length l <= n ->
  array_store n v l = l ++ repeat JNull (n - List.length l) ++ [v].
Proof.
  revert l. induction n as [|n IH]; intros [|x r] H; simpl in *; try lia.
  - reflexivity.
  - rewrite (IH []) by (simpl; lia). simpl. rewrite Nat.sub_0_r. reflexivity.
  - rewrite IH by lia. reflexivity.
Qed.

(** X7. Writing at an index at or past the end of an array makes the
    array grow: the elements stay, the positions skipped read [null], and
    the edited fields come last. *)
Theorem index_past_end_pads_with_null (json : string) (obj : jsval)
  (pre : list selector) (l : list jsval) (n : N) (editedFields : jsval)
  (node : option NodeData) :
  JSON.parse json = Some obj ->
  wf editedFields ->
  get_path obj pre = Some (JArr l) ->
  List.length l <= N.to_nat n ->
  (n < 4294967295)%N ->
  JSON.parse (updateJsonByPath json (PathArray (pre ++ [SIdx n])) editedFields node) =
  Some (put_path obj pre
          (JArr (l ++ repeat JNull (N.to_nat n - List.length l) ++ [editedFields]))).
Proof.
  intros Hp Hef Hget Hlen Hn.
  rewrite (update_parses json obj) by assumption.
  destruct (pre ++ [SIdx n]) as [|k0 rest0] eqn:Epath.
  { destruct pre; discriminate. }
  change (navigate obj k0 rest0 editedFields) with (walk obj (k0 :: rest0) editedFields).
  rewrite <- Epath, (navigate_along pre obj (JArr l)) by assumption.
  change (navigate (JArr l) (SIdx n) [] editedFields)
    with (write_slot (JArr l) (SIdx n) editedFields).
  rewrite write_slot_container by reflexivity.
  unfold child, set_prop. change (prop_name (SIdx n)) with (N_to_string n).
  rewrite (array_index_N_to_string n Hn).
  assert (Hnone : nth_error l (N.to_nat n) = None) by (apply nth_error_None; lia).
  rewrite Hnone. simpl. rewrite array_store_past_end by assumption. reflexivity.
Qed.

Lemma index_past_end_pads_with_null_witness :
  let json := js "{'a': [1]}" in
  let obj := JObj [("a"%string, JArr [JNum 1])] in
  JSON.parse json = Some obj /\
  wf (JStr "x") /\
  get_path obj [SKey "a"] = Some (JArr [JNum 1]) /\
  List.length [JNum 1] <= N.to_nat 3 /\
  (3 < 4294967295)%N /\
  JSON.parse (updateJsonByPath json (PathArray ([SKey "a"] ++ [SIdx 3])) (JStr "x") None) =
  Some (put_path obj [SKey "a"]
          (JArr ([JNum 1] ++ repeat JNull (N.to_nat 3 - List.length [JNum 1])
                   ++ [JStr "x"]))).
Proof.
  intros json obj.
  assert (Hlen : List.length [JNum 1] <= N.to_nat 3) by (simpl; lia).
  split; [reflexivity|]. split; [exact I|]. split; [reflexivity|].
  split; [exact Hlen|]. split; [reflexivity|].
  apply (index_past_end_pads_with_null json obj [SKey "a"] [JNum 1] 3 (JStr "x") None);
    [reflexivity|exact I|reflexivity|exact Hlen|reflexivity].
Defined.

(** X8. A selector that is a plain name and not an index, applied to an
    array, changes nothing that is serialised: whatever plain selectors
    follow it in the path, the text returned is the serialisation of the
    unchanged tree. *)
Theorem named_key_on_array_is_lost (json : string) (obj : jsval)
  (pre : list selector) (l : list jsval) (k : selector) (rest : list selector)
  (editedFields : jsval) (node : option NodeData) :
  JSON.parse json = Some obj ->
  get_path obj pre = Some (JArr l) ->
  array_index (prop_name k) = None ->
  forallb plain (k :: rest) = true ->
  updateJsonByPath json (PathArray (pre ++ k :: rest)) editedFields node =
  JSON.stringify obj.
Proof.
  intros Hp Hget Hk _.
  rewrite (update_walk json obj) by (assumption || destruct pre; discriminate).
  rewrite (navigate_along pre obj (JArr l)) by assumption.
  assert (Hc : child (JArr l) k = None) by (simpl; rewrite Hk; reflexivity).
  assert (Hn : navigate (JArr l) k rest editedFields = Ok (JArr l)).
  { destruct rest as [|next rest].
    - change (navigate (JArr l) k [] editedFields)
        with (write_slot (JArr l) k editedFields).
      rewrite write_slot_container, Hc by reflexivity.
      simpl. rewrite Hk. reflexivity.
    - rewrite (navigate_missing (JArr l) k next rest editedFields eq_refl Hc).
      destruct (navigate_fresh rest next next editedFields) as (sub & ->).
      simpl. rewrite Hk. reflexivity. }
  rewrite Hn. simpl. rewrite (put_path_same pre obj (JArr l)) by assumption.
  reflexivity.
Qed.

Lemma named_key_on_array_is_lost_witness :
  let json := js "{'a': [1, 2]}" in
  let obj := JObj [("a"%string, JArr [JNum 1; JNum 2])] in
  JSON.parse json = Some obj /\
  get_path obj [SKey "a"] = Some (JArr [JNum 1; JNum 2]) /\
  array_index (prop_name (SKey "first")) = None /\
  forallb plain (SKey "first" :: [SKey "b"]) = true /\
  updateJsonByPath json (PathArray ([SKey "a"] ++ SKey "first" :: [SKey "b"]))
    (JNum 9) None = JSON.stringify obj.
Proof.
  intros json obj.
  split; [reflexivity|]. split; [reflexivity|]. split; [reflexivity|].
  split; [reflexivity|].
  apply (named_key_on_array_is_lost json obj [SKey "a"] [JNum 1; JNum 2] (SKey "first")
           [SKey "b"] (JNum 9) None); reflexivity.
Defined.

(** ** Paths through scalars *)

Lemma navigate_scalar (c : jsval) (k : selector) (rest : list selector) (ef : jsval) :
  match c with JBool _ | JNum _ | JStr _ => true | _ => false end = true ->
  navigate c k rest ef = Throw TypeError.
Proof.
  intros Hc. destruct rest as [|next rest].
  - destruct c as [|b|z|s| |]; try discriminate; try reflexivity.
    simpl. destruct (array_index (prop_name k)) as [n|]; [|reflexivity].
    destruct (String.get (N.to_nat n) s); reflexivity.
  - destruct c; try discriminate; reflexivity.
Qed.

(** X9. A path that runs through a boolean, a number or a string and
    goes on never changes the document: the operation on the scalar
    throws, the error is caught, and the input text is returned as it
    is.  When the scalar is met at the last selector, that selector is
    not [__proto__] (the one name a scalar can be assigned at without an
    error). *)
Theorem path_through_scalar_returns_input (json : string) (obj : jsval)
  (pre : list selector) (c : jsval) (k : selector) (rest : list selector)
  (editedFields : jsval) (node : option NodeData) :
  JSON.parse json = Some obj ->
  get_path obj pre = Some c ->
  match c with JBool _ | JNum _ | JStr _ => true | _ => false end = true ->
  rest <> [] \/ prop_name k <> "__proto__"%string ->
  updateJsonByPath json (PathArray (pre ++ k :: rest)) editedFields node = json.
Proof.
  intros Hp Hget Hc _.
  rewrite (update_walk json obj) by (assumption || destruct pre; discriminate).
  rewrite (navigate_along pre obj c), navigate_scalar by assumption.
  reflexivity.
Qed.

Lemma path_through_scalar_returns_input_witness :
  let json := js "{'a':5}" in
  JSON.parse json = Some (JObj [("a"%string, JNum 5)]) /\
  get_path (JObj [("a"%string, JNum 5)]) [SKey "a"] = Some (JNum 5) /\
  (@nil selector <> [] \/ prop_name (SKey "b") <> "__proto__"%string) /\
  updateJsonByPath json (PathArray ([SKey "a"] ++ SKey "b" :: [])) (JNum 1) None = json.
Proof.
  intros json.
  assert (Hk : @nil selector <> [] \/ prop_name (SKey "b") <> "__proto__"%string)
    by (right; discriminate).
  split; [reflexivity|]. split; [reflexivity|]. split; [exact Hk|].
  apply (path_through_scalar_returns_input json (JObj [("a"%string, JNum 5)])
           [SKey "a"] (JNum 5) (SKey "b") [] (JNum 1) None);
    [reflexivity|reflexivity|reflexivity|exact Hk].
Defined.

(** ** The root *)

Lemma type_name_kinds (a b : jsval) :
  is_container a = true ->
  is_array b = is_array a -> is_object b = is_object a ->
  type_name b = type_name a.
Proof.
  destruct a; try discriminate; destruct b; simpl; try discriminate; reflexivity.
Qed.

(** X10. With a path that is not empty the document keeps the type of its
    root: an object stays an object, an array an array, and a scalar
    document is returned as it is. *)
Theorem root_type_kept (json : string) (obj : jsval) (k : selector)
  (rest : list selector) (editedFields : jsval) (node : option NodeData) :
  JSON.parse json = Some obj ->
  wf editedFields ->
  exists doc,
    JSON.parse (updateJsonByPath json (PathArray (k :: rest)) editedFields node)
      = Some doc /\
    type_name doc = type_name obj /\
    (is_container obj = true \/ doc = obj).
Proof.
  intros Hp Hef. rewrite (update_parses json obj) by assumption.
  eexists. split; [reflexivity|].
  destruct (navigate obj k rest editedFields) as [obj'|] eqn:E; [|auto].
  destruct (is_container obj) eqn:Hc.
  - destruct (navigate_kind _ _ _ _ _ Hc E) as [Ha Ho].
    split; [apply type_name_kinds; assumption|left; reflexivity].
  - destruct obj as [|b|z|s| |]; try discriminate.
    + destruct rest; simpl in E; inversion E; auto.
    + rewrite navigate_scalar in E by reflexivity. discriminate.
    + rewrite navigate_scalar in E by reflexivity. discriminate.
    + rewrite navigate_scalar in E by reflexivity. discriminate.
Qed.

Lemma root_type_kept_witness :
  JSON.parse (js "[1]") = Some (JArr [JNum 1]) /\
  wf (JNum 2) /\
  exists doc,
    JSON.parse (updateJsonByPath (js "[1]") (PathArray (SKey "a" :: [SKey "b"]))
                  (JNum 2) None) = Some doc /\
    type_name doc = type_name (JArr [JNum 1]) /\
    (is_container (JArr [JNum 1]) = true \/ doc = JArr [JNum 1]).
Proof.
  split; [reflexivity|]. split; [exact I|].
  apply (root_type_kept (js "[1]") (JArr [JNum 1]) (SKey "a") [SKey "b"] (JNum 2) None);
    [reflexivity|exact I].
Defined.

(** ** The same update again *)

Lemma uint_chars_inj (d d' : uint) : uint_chars d = uint_chars d' -> d = d'.
Proof.
  intros H.
  pose proof (read_digits_uint_chars d [] I) as H1.
  pose proof (read_digits_uint_chars d' [] I) as H2.
  rewrite H in H1. congruence.
Qed.

Lemma N_to_string_inj (n m : N) : N_to_string n = N_to_string m -> n = m.
Proof.
  unfold N_to_string, N_digits. intros H.
  apply (f_equal list_ascii_of_string) in H.
  rewrite !list_ascii_of_string_of_list_ascii in H.
  apply uint_chars_inj, DecimalN.Unsigned.to_uint_inj in H. exact H.
Qed.

Lemma indexed_keys {A : Type} (l : list A) (i : N) (k : string) :
  In k (map fst (indexed i l)) -> exists j, (i <= j)%N /\ k = N_to_string j.
Proof.
  revert i. induction l as [|x r IH]; intros i; simpl; [contradiction|].
  intros [<-|H].
  - exists i. split; [lia|reflexivity].
  - destruct (IH _ H) as (j & Hj & ->). exists j. split; [lia|reflexivity].
Qed.

Lemma NoDup_indexed {A : Type} (l : list A) (i : N) :
  NoDup (map fst (indexed i l)).
Proof.
  revert i. induction l as [|x r IH]; intros i; simpl; constructor; [|apply IH].
  intros H. apply indexed_keys in H as (j & Hj & E).
  apply N_to_string_inj in E. lia.
Qed.

Lemma NoDup_own_entries (ef : jsval) (es : props) :
  wf ef -> own_entries ef = Ok es -> NoDup (map fst es).
Proof.
  destruct ef as [|b|z|s|l|ps]; simpl; intros Hwf H; inversion H; subst.
  - constructor.
  - constructor.
  - apply NoDup_indexed.
  - apply NoDup_indexed.
  - apply wf_JObj in Hwf as [[Hnd _] _]. exact Hnd.
Qed.

Lemma assign_prop_fixed (k : string) (v : jsval) (ps : props) :
  lookup k ps = Some v \/ (lookup k ps = None /\ k = "__proto__"%string) ->
  assign_prop k v ps = ps.
Proof.
  intros [H|[H ->]]; unfold assign_prop; rewrite H.
  - apply define_prop_same_value, H.
  - reflexivity.
Qed.

Lemma merge_fields_fixed (es acc : props) :
  Forall (fun kv => is_leaf (snd kv) = true ->
                    lookup (fst kv) acc = Some (snd kv) \/
                    (lookup (fst kv) acc = None /\ fst kv = "__proto__"%string)) es ->
  merge_fields acc es = acc.
Proof.
  unfold merge_fields. induction 1 as [|[k v] r Hkv Hr IH]; simpl in *.
  - reflexivity.
  - destruct (is_leaf v); [|exact IH].
    rewrite assign_prop_fixed by auto. exact IH.
Qed.

Lemma edited_leaf_key (k : string) (es : props) :
  edited_leaf k es <> None -> In k (map fst es).
Proof.
  induction es as [|[k0 v0] r IH]; simpl; [congruence|].
  destruct (edited_leaf k r).
  - intros _. right. apply IH. discriminate.
  - destruct (String.eqb_spec k k0); [left; auto|simpl; congruence].
Qed.

Lemma edited_leaf_In (k : string) (v : jsval) (es : props) :
  NoDup (map fst es) -> In (k, v) es -> is_leaf v = true ->
  edited_leaf k es = Some v.
Proof.
  induction es as [|[k' v'] r IH]; simpl; intros Hnd Hin Hleaf; [contradiction|].
  inversion Hnd as [|? ? Hnin Hnd']; subst.
  destruct Hin as [E|Hin].
  - inversion E; subst.
    assert (Hnone : edited_leaf k r = None).
    { destruct (edited_leaf k r) eqn:El; [|reflexivity]. exfalso. apply Hnin.
      apply (edited_leaf_key k r). congruence. }
    rewrite Hnone, String.eqb_refl, Hleaf. reflexivity.
  - rewrite (IH Hnd' Hin Hleaf). reflexivity.
Qed.

(** Merging the same entries a second time changes nothing. *)
Lemma merge_fields_again (ps es : props) :
  NoDup (map fst es) ->
  merge_fields (merge_fields ps es) es = merge_fields ps es.
Proof.
  intros Hnd. apply merge_fields_fixed. apply Forall_forall.
  intros [k v] Hin Hleaf. simpl in *.
  rewrite lookup_merge_fields. unfold merged_value.
  rewrite (edited_leaf_In k v es) by assumption.
  destruct (lookup k ps); [left; reflexivity|].
  destruct (String.eqb_spec k "__proto__"); [right|left]; auto.
Qed.

Lemma merge_fields_self (ps : props) :
  NoDup (map fst ps) -> merge_fields ps ps = ps.
Proof.
  intros Hnd. apply merge_fields_fixed. apply Forall_forall.
  intros [k v] Hin _. simpl. left. apply In_lookup; assumption.
Qed.

(** Writing the edited fields into a slot that already holds them. *)
Lemma write_slot_holding (cur : jsval) (k : selector) (ef : jsval) :
  wf ef -> child cur k = Some ef -> write_slot cur k ef = Ok cur.
Proof.
  intros Hef Hc. pose proof (child_container _ _ _ Hc) as Hcont.
  rewrite write_slot_container, Hc by assumption.
  destruct ef as [| | | | |ps]; try (apply set_prop_same; assumption).
  simpl. apply wf_JObj in Hef as [[Hnd _] _].
  rewrite merge_fields_self by assumption. apply set_prop_same. assumption.
Qed.

Lemma set_prop_not_addressable (cur : jsval) (k : selector) (x cur' : jsval) :
  addressable cur k = false -> set_prop cur k x = Ok cur' -> cur' = cur.
Proof.
  destruct cur as [| | | |l|ps]; simpl; try discriminate.
  destruct (array_index (prop_name k)); [discriminate|].
  intros _ H. inversion H. reflexivity.
Qed.

Lemma write_slot_again (cur : jsval) (k : selector) (ef cur' : jsval) :
  wf ef -> write_slot cur k ef = Ok cur' -> write_slot cur' k ef = Ok cur'.
Proof.
  intros Hef H. destruct (is_container cur) eqn:Hcont.
  - pose proof H as H0. rewrite write_slot_container in H by assumption.
    destruct (child cur k) as [c|] eqn:Hc.
    + assert (Hobj : (exists ps, c = JObj ps) \/
                     match c with JObj _ => False | _ => True end).
      { destruct c; eauto. }
      destruct Hobj as [[ps ->]|Hno].
      * apply bind_Ok in H as (es & Hes & Hs).
        pose proof (child_set_prop _ _ _ _ _ Hc Hs) as Hc'.
        rewrite write_slot_container, Hc', Hes
          by (eapply child_container; exact Hc').
        simpl. rewrite merge_fields_again by (eapply NoDup_own_entries; eassumption).
        apply set_prop_same. assumption.
      * assert (Hs : set_prop cur k ef = Ok cur') by (destruct c; tauto || exact H).
        apply write_slot_holding; [assumption|].
        eapply child_set_prop; eassumption.
    + destruct (addressable cur k) eqn:Ha.
      * apply write_slot_holding; [assumption|].
        eapply child_set_prop_addressable; eassumption.
      * apply set_prop_not_addressable in H; [|assumption]. subst cur'. exact H0.
  - change (write_slot cur k ef) with (navigate cur k [] ef) in H.
    destruct cur; try discriminate;
      try (rewrite navigate_scalar in H by reflexivity; discriminate).
    simpl in H. inversion H. reflexivity.
Qed.

(** The walk, run again on its own result, changes nothing. *)
Lemma navigate_again (rest : list selector) (cur : jsval) (k : selector)
  (ef cur' : jsval) :
  wf ef -> navigate cur k rest ef = Ok cur' -> navigate cur' k rest ef = Ok cur'.
Proof.
  intros Hef. revert cur k cur'.
  induction rest as [|next rest IH]; intros cur k cur' H.
  - exact (write_slot_again cur k ef cur' Hef H).
  - destruct (is_container cur) eqn:Hcont.
    + destruct (child cur k) as [c|] eqn:Hc.
      * rewrite (navigate_present _ _ _ _ _ _ Hc) in H.
        apply bind_Ok in H as (c' & Hn & Hs).
        pose proof (child_set_prop _ _ _ _ _ Hc Hs) as Hc'.
        rewrite (navigate_present _ _ _ _ _ _ Hc'), (IH _ _ _ Hn). simpl.
        apply set_prop_same. assumption.
      * pose proof H as H0. rewrite (navigate_missing _ _ _ _ _ Hcont Hc) in H.
        apply bind_Ok in H as (c' & Hn & Hs).
        destruct (addressable cur k) eqn:Ha.
        -- pose proof (child_set_prop_addressable _ _ _ _ Ha Hs) as Hc'.
           rewrite (navigate_present _ _ _ _ _ _ Hc'), (IH _ _ _ Hn). simpl.
           apply set_prop_same. assumption.
        -- apply set_prop_not_addressable in Hs; [|assumption]. subst cur'. exact H0.
    + destruct cur; try discriminate; simpl in H; discriminate.
Qed.

(** X11. [updateJsonByPath] is idempotent: for edited fields that are a
    JavaScript value, applying the same update to the text it returned
    returns that text again, whatever the document and the path. *)
Theorem update_twice_is_update_once (json : string) (path : path_arg)
  (editedFields : jsval) (node node' : option NodeData) :
  wf editedFields ->
  updateJsonByPath (updateJsonByPath json path editedFields node) path editedFields node'
  = updateJsonByPath json path editedFields node.
Proof.
  intros Hef. rewrite !(update_selectors _ path).
  destruct (JSON.parse json) as [obj|] eqn:Hp.
  - destruct (selectors path) as [|k rest] eqn:Es.
    + unfold updateJsonByPath, updateJsonByPath_try. rewrite Hp. simpl.
      rewrite parse_of_stringify by assumption. reflexivity.
    + rewrite (update_walk json obj (k :: rest)) by (assumption || discriminate).
      simpl walk. destruct (navigate obj k rest editedFields) as [obj'|] eqn:En.
      * assert (Hwf : wf obj').
        { apply (wf_navigate rest obj k editedFields obj'); try assumption.
          eapply parse_is_wf, Hp. }
        rewrite (update_walk _ obj' (k :: rest))
          by (apply parse_of_stringify, Hwf || discriminate).
        simpl walk. rewrite (navigate_again _ _ _ _ _ Hef En). reflexivity.
      * rewrite (update_walk json obj (k :: rest)) by (assumption || discriminate).
        simpl walk. rewrite En. reflexivity.
  - assert (Hu : forall p n, updateJsonByPath json (PathArray p) editedFields n = json).
    { intros p n. unfold updateJsonByPath, updateJsonByPath_try. rewrite Hp. reflexivity. }
    rewrite !Hu. reflexivity.
Qed.

Lemma update_twice_is_update_once_witness :
  let ef := JObj [("a"%string, JNum 2); ("n"%string, JArr [])] in
  wf ef /\
  updateJsonByPath
    (updateJsonByPath (js "{'x': {'a': 1}}") (PathArray [SKey "x"]) ef None)
    (PathArray [SKey "x"]) ef None
  = updateJsonByPath (js "{'x': {'a': 1}}") (PathArray [SKey "x"]) ef None.
Proof.
  intros ef.
  assert (Hwf : wf ef).
  { simpl. repeat split; repeat constructor; simpl; intuition discriminate. }
  split; [exact Hwf|].
  apply (update_twice_is_update_once (js "{'x': {'a': 1}}") (PathArray [SKey "x"])
           ef None None Hwf).
Defined.

(** ** Saving typed JSON text *)

(** X12. Saving a text that is the JSON of an object, however it is
    written, on a node that is an object stores the document in which the
    leaf fields of the text are merged into the node: a key the text
    gives a leaf value holds that value (the key [__proto__] only when
    the node owns it), every other key of the node keeps its value.  The
    rows the node was shown with play no part. *)
Theorem save_merges_typed_object (json : string) (doc : jsval) (p : list selector)
  (fields edits : props) (rows : list NodeRow) (editedValue : string) :
  JSON.parse json = Some doc ->
  p <> [] ->
  get_path doc p = Some (JObj fields) ->
  JSON.parse editedValue = Some (JObj edits) ->
  exists updated,
    handleSave json (Some (mkNode rows (Some p))) editedValue = Some updated /\
    JSON.parse updated = Some (put_path doc p (JObj (merge_fields fields edits))) /\
    stored_at json (Some (mkNode rows (Some p))) editedValue p
      = Some (JObj (merge_fields fields edits)) /\
    forall name,
      lookup name (merge_fields fields edits) = merged_value name fields edits.
Proof.
  intros Hp Hne Hget He.
  pose proof (parse_is_wf _ _ Hp) as Hdoc.
  pose proof (parse_is_wf _ _ He) as Hwf.
  assert (Hnew : wf (put_path doc p (JObj (merge_fields fields edits)))).
  { apply wf_put_path; [assumption|]. apply wf_merge_fields.
    apply (wf_get_path p doc); assumption. }
  assert (Hs : handleSave json (Some (mkNode rows (Some p))) editedValue
               = Some (JSON.stringify (put_path doc p (JObj (merge_fields fields edits))))).
  { rewrite (handleSave_parses json doc) by assumption.
    unfold parse_edited. rewrite He.
    rewrite (update_object_slot json doc p fields) by assumption. reflexivity. }
  eexists. split; [exact Hs|]. split; [|split].
  - apply parse_of_stringify, Hnew.
  - unfold stored_at. rewrite Hs, parse_of_stringify by assumption.
    apply (get_put_path p doc (JObj fields)). assumption.
  - intros name. apply lookup_merge_fields.
Qed.

Lemma save_merges_typed_object_witness :
  let json := js "{'x': {'a': 1, 'nested': {'z': 9}}}" in
  let fields := [("a"%string, JNum 1); ("nested"%string, JObj [("z"%string, JNum 9)])] in
  let doc := JObj [("x"%string, JObj fields)] in
  let editedValue := js "{ 'a':2,'__proto__' : null }" in
  let edits := [("a"%string, JNum 2); ("__proto__"%string, JNull)] in
  let node := Some (mkNode [] (Some [SKey "x"])) in
  JSON.parse json = Some doc /\
  [SKey "x"] <> [] /\
  get_path doc [SKey "x"] = Some (JObj fields) /\
  JSON.parse editedValue = Some (JObj edits) /\
  exists updated,
    handleSave json node editedValue = Some updated /\
    JSON.parse updated = Some (put_path doc [SKey "x"] (JObj (merge_fields fields edits))) /\
    stored_at json node editedValue [SKey "x"]
      = Some (JObj (merge_fields fields edits)) /\
    forall name,
      lookup name (merge_fields fields edits) = merged_value name fields edits.
Proof.
  intros json fields doc editedValue edits node.
  split; [reflexivity|]. split; [discriminate|]. split; [reflexivity|].
  split; [reflexivity|].
  apply (save_merges_typed_object json doc [SKey "x"] fields edits [] editedValue);
    [reflexivity|discriminate|reflexivity|reflexivity].
Defined.

(** X13. Saving a text that is the JSON of a value, however it is
    written, on a slot the walk can write along plain selectors and that
    holds no object stores that value in the slot: what is typed is what
    the document holds. *)
Theorem save_stores_typed_value (json : string) (doc : jsval) (k : selector)
  (rest : list selector) (v : jsval) (rows : list NodeRow) (editedValue : string) :
  JSON.parse json = Some doc ->
  JSON.parse editedValue = Some v ->
  forallb plain (k :: rest) = true ->
  replaces doc k rest = true ->
  stored_at json (Some (mkNode rows (Some (k :: rest)))) editedValue (k :: rest)
    = Some v.
Proof.
  intros Hp He _ Hrep. unfold stored_at.
  pose proof (parse_is_wf _ _ He) as Hv.
  rewrite (handleSave_parses json doc) by assumption.
  unfold parse_edited. rewrite He.
  rewrite (update_parses json doc) by assumption.
  destruct (navigate_replaces rest doc k v Hrep) as (doc' & -> & Hg). exact Hg.
Qed.

Lemma save_stores_typed_value_witness :
  let json := js "['a', 'b']" in
  let doc := JArr [JStr "a"; JStr "b"] in
  let editedValue := js " [true,{'n':1}]" in
  let v := JArr [JBool true; JObj [("n"%string, JNum 1)]] in
  JSON.parse json = Some doc /\
  JSON.parse editedValue = Some v /\
  forallb plain (SIdx 1 :: []) = true /\
  replaces doc (SIdx 1) [] = true /\
  stored_at json (Some (mkNode [] (Some (SIdx 1 :: [])))) editedValue
    (SIdx 1 :: []) = Some v.
Proof.
  intros json doc editedValue v.
  split; [reflexivity|]. split; [reflexivity|]. split; [reflexivity|].
  split; [reflexivity|].
  apply (save_stores_typed_value json doc (SIdx 1) [] v [] editedValue);
    reflexivity.
Defined.

(** ** The display of a longer path *)

Lemma string_app_nil_r (a : string) : (a ++ "")%string = a.
Proof. induction a as [|c a IH]; simpl; congruence. Qed.

Lemma concat_empty_cons (x : string) (l : list string) :
  String.concat "" (x :: l) = (x ++ String.concat "" l)%string.
Proof. destruct l; simpl; [rewrite string_app_nil_r|]; reflexivity. Qed.

Lemma concat_empty_app (l1 l2 : list string) :
  String.concat "" (l1 ++ l2) = (String.concat "" l1 ++ String.concat "" l2)%string.
Proof.
  induction l1 as [|x l1 IH]; [reflexivity|].
  rewrite <- app_comm_cons, !concat_empty_cons, IH, string_app_assoc. reflexivity.
Qed.

Lemma path_string_brackets (p : list selector) :
  jsonPathToString (Some p) = ("$" ++ String.concat "" (map bracketed p))%string.
Proof.
  destruct p as [|seg rest]; [reflexivity|]. unfold jsonPathToString.
  change ("$[" ++ String.concat "][" (map segment (seg :: rest)) ++ "]")%string
    with ("$" ++ ("[" ++ String.concat "][" (segment seg :: map segment rest) ++ "]"))%string.
  rewrite concat_brackets, <- map_cons, map_map. f_equal. f_equal.
  apply map_ext. intros a. symmetry. apply bracketed_segment.
Qed.

(** X14. The display of a path extends the display of each of its
    prefixes: the text for [p ++ q] is the text for [p] followed by the
    bracketed selectors of [q]. *)
Theorem jsonPathToString_app (p q : list selector) :
  jsonPathToString (Some (p ++ q)) =
  (jsonPathToString (Some p) ++ String.concat "" (map bracketed q))%string.
Proof.
  rewrite !path_string_brackets, map_app, concat_empty_app, string_app_assoc.
  reflexivity.
Qed.

(** ** The order of the fields shown *)

Lemma fold_add_row_in_order (rows : list NodeRow) (acc : props) :
  NoDup (map fst (acc ++ scalar_entries rows)) ->
  Forall (fun kv => array_index (fst kv) = None) (scalar_entries rows) ->
  fold_left add_row rows acc = acc ++ scalar_entries rows.
Proof.
  revert acc. induction rows as [|row r IH]; intros acc Hnd Hni; simpl.
  - rewrite List.app_nil_r. reflexivity.
  - rewrite add_row_entry. simpl in Hnd, Hni.
    destruct (scalar_entry row) as [[k v]|]; simpl in *.
    + inversion Hni as [|? ? Hk Hr]; subst. simpl in Hk.
      assert (Hdef : define_prop k v acc = acc ++ [(k, v)]).
      { unfold define_prop. rewrite map_app in Hnd. simpl in Hnd.
        apply NoDup_remove_2 in Hnd.
        assert (Hnone : lookup k acc = None).
        { apply lookup_None. intros Hin. apply Hnd, in_or_app. left. exact Hin. }
        rewrite Hnone, Hk. reflexivity. }
      rewrite Hdef, IH.
      * rewrite <- app_assoc. reflexivity.
      * rewrite <- app_assoc. exact Hnd.
      * exact Hr.
    + apply IH; assumption.
Qed.

(** X15. The fields are shown in the order of the rows: for rows that are
    not a single row without key, when the keys of the scalar rows are
    distinct, none is an array index and none is [__proto__], the object
    serialised has exactly those keys and values, in row order. *)
Theorem normalize_keeps_row_order (rows : list NodeRow) :
  rows <> [] ->
  ~ (exists row, rows = [row] /\ truthy_key (key row) = false) ->
  NoDup (map fst (scalar_entries rows)) ->
  Forall (fun kv => array_index (fst kv) = None) (scalar_entries rows) ->
  ~ In "__proto__"%string (map fst (scalar_entries rows)) ->
  normalizeNodeData rows = JSON.stringify (JObj (scalar_entries rows)).
Proof.
  intros Hne Hlone Hnd Hni _.
  rewrite normalize_object by assumption.
  rewrite (fold_add_row_in_order rows []) by assumption. reflexivity.
Qed.

Lemma normalize_keeps_row_order_witness :
  let rows := [mkRow (Some "zeta"%string) (JNum 1) "number";
               mkRow (Some "list"%string) JNull "array";
               mkRow (Some "alpha"%string) (JStr "y") "string"] in
  rows <> [] /\
  ~ (exists row, rows = [row] /\ truthy_key (key row) = false) /\
  NoDup (map fst (scalar_entries rows)) /\
  Forall (fun kv => array_index (fst kv) = None) (scalar_entries rows) /\
  ~ In "__proto__"%string (map fst (scalar_entries rows)) /\
  normalizeNodeData rows =
  JSON.stringify (JObj [("zeta"%string, JNum 1); ("alpha"%string, JStr "y")]).
Proof.
  intros rows.
  assert (H1 : rows <> []) by discriminate.
  assert (H2 : ~ (exists row, rows = [row] /\ truthy_key (key row) = false)).
  { intros (row & E & _). discriminate E. }
  assert (H3 : NoDup (map fst (scalar_entries rows))).
  { repeat constructor; simpl; intuition discriminate. }
  assert (H4 : Forall (fun kv => array_index (fst kv) = None) (scalar_entries rows)).
  { repeat constructor. }
  assert (H5 : ~ In "__proto__"%string (map fst (scalar_entries rows))).
  { simpl. intuition discriminate. }
  split; [exact H1|]. split; [exact H2|]. split; [exact H3|]. split; [exact H4|].
  split; [exact H5|].
  exact (normalize_keeps_row_order rows H1 H2 H3 H4 H5).
Defined.

(** ** The document over a session *)

Lemma save_into_valid (stored : string) (save : option NodeData * string) :
  JSON.parse stored <> None -> JSON.parse (save_into stored save) <> None.
Proof.
  intros H. unfold save_into.
  destruct (handleSave stored (fst save) (snd save)) as [u|] eqn:E; [|assumption].
  unfold handleSave in E.
  destruct (JSON.parse (save_text stored (fst save) (snd save))) eqn:Ep; [|discriminate].
  inversion E; subst. congruence.
Qed.

Lemma save_into_invalid (stored : string) (save : option NodeData * string) :
  JSON.parse stored = None -> save_into stored save = stored.
Proof.
  intros H. unfold save_into, handleSave, save_text, updateJsonByPath,
    updateJsonByPath_try.
  rewrite H. simpl. rewrite H. reflexivity.
Qed.

(** X16. Over any sequence of saves the document store keeps its state
    of health: a stored text that parses is always followed by one that
    parses, and a stored text that does not parse is never replaced, every
    save on it being refused. *)
Theorem document_stays_as_valid (stored : string)
  (saves : list (option NodeData * string)) :
  match JSON.parse stored with
  | Some _ => JSON.parse (document_after stored saves) <> None
  | None => document_after stored saves = stored
  end.
Proof.
  unfold document_after. revert stored.
  induction saves as [|save r IH]; intros stored; simpl.
  - destruct (JSON.parse stored); congruence.
  - destruct (JSON.parse stored) eqn:Hp.
    + assert (Hv : JSON.parse (save_into stored save) <> None).
      { apply save_into_valid. congruence. }
      specialize (IH (save_into stored save)).
      destruct (JSON.parse (save_into stored save)); [exact IH|congruence].
    + rewrite (save_into_invalid stored save Hp).
      specialize (IH stored). rewrite Hp in IH. exact IH.
Qed.

(** ** Undoing a replacement *)

Lemma replace_prop_twice (k : string) (x y : jsval) (ps : props) :
  replace_prop k y (replace_prop k x ps) = replace_prop k y ps.
Proof.
  induction ps as [|[k' v'] r IH]; simpl; [reflexivity|].
  destruct (String.eqb k k') eqn:E; simpl; rewrite E; [reflexivity|].
  rewrite IH. reflexivity.
Qed.

Lemma array_store_twice (n : nat) (x y : jsval) (l : list jsval) :
  array_store n y (array_store n x l) = array_store n y l.
Proof.
  revert l. induction n as [|n IH]; intros [|a r]; simpl; try reflexivity;
    rewrite IH; reflexivity.
Qed.

Lemma set_prop_twice (cur : jsval) (k : selector) (c x y cur1 : jsval) :
  child cur k = Some c ->
  set_prop cur k x = Ok cur1 ->
  set_prop cur1 k y = set_prop cur k y.
Proof.
  destruct cur as [| | | |l|ps]; simpl; try discriminate.
  - destruct (array_index (prop_name k)) as [n|] eqn:E; [|discriminate].
    intros _ H. inversion H; subst. simpl. rewrite E, array_store_twice. reflexivity.
  - intros Hc H. inversion H; subst. simpl. unfold define_prop at 1.
    rewrite lookup_define_same. unfold define_prop. rewrite Hc.
    rewrite replace_prop_twice. reflexivity.
Qed.

Lemma put_path_twice (pre : list selector) (obj c x y : jsval) :
  get_path obj pre = Some c ->
  put_path (put_path obj pre x) pre y = put_path obj pre y.
Proof.
  revert obj. induction pre as [|k pre IH]; intros obj H; simpl in *; [reflexivity|].
  destruct (child obj k) as [c0|] eqn:Hc; [|discriminate].
  destruct (set_prop_container obj k (put_path c0 pre x) (child_container _ _ _ Hc))
    as (o & Ho & _).
  rewrite Ho. rewrite (child_set_prop _ _ _ _ _ Hc Ho).
  rewrite (IH c0 H). rewrite (set_prop_twice _ _ _ _ _ _ Hc Ho).
  destruct (set_prop_container obj k (put_path c0 pre y) (child_container _ _ _ Hc))
    as (o' & -> & _).
  reflexivity.
Qed.

(** X17. A replacement can be undone.  When the slot holds a scalar and
    the edited fields are not an object, updating the returned text at
    the same path with the old scalar gives back the document: the second
    text parses to the tree of the first input. *)
Theorem replacement_undone (json : string) (obj : jsval) (p : list selector)
  (old editedFields : jsval) (node node' : option NodeData) :
  JSON.parse json = Some obj ->
  p <> [] ->
  get_path obj p = Some old ->
  is_leaf old = true ->
  is_object editedFields = false ->
  wf editedFields ->
  JSON.parse
    (updateJsonByPath (updateJsonByPath json (PathArray p) editedFields node)
       (PathArray p) old node')
  = Some obj.
Proof.
  intros Hp Hne Hget Hold Hef Hwf.
  pose proof (parse_is_wf _ _ Hp) as Hobj.
  destruct (split_last p Hne) as (pre & k & ->).
  rewrite get_path_app in Hget.
  destruct (get_path obj pre) as [parent|] eqn:Hpre; [|discriminate].
  simpl in Hget. destruct (child parent k) as [c|] eqn:Hc; [|discriminate].
  inversion Hget; subst c.
  pose proof (child_container _ _ _ Hc) as Hcont.
  destruct (set_prop_container parent k editedFields Hcont) as (parent1 & Hs1 & Hcont1).
  pose proof (child_set_prop _ _ _ _ _ Hc Hs1) as Hc1.
  assert (Hw1 : write_slot parent k editedFields = Ok parent1).
  { rewrite write_slot_container, Hc by assumption.
    destruct old; try discriminate; exact Hs1. }
  assert (Hw2 : write_slot parent1 k old = Ok parent).
  { rewrite write_slot_container, Hc1 by assumption.
    rewrite (set_prop_twice _ _ _ _ old _ Hc Hs1), (set_prop_same _ _ _ Hc).
    destruct editedFields; try discriminate; reflexivity. }
  assert (Hu1 : updateJsonByPath json (PathArray (pre ++ [k])) editedFields node =
                JSON.stringify (put_path obj pre parent1)).
  { rewrite (update_walk json obj) by (assumption || destruct pre; discriminate).
    rewrite (navigate_along pre obj parent) by assumption.
    change (navigate parent k [] editedFields) with (write_slot parent k editedFields).
    rewrite Hw1. reflexivity. }
  assert (Hwf1 : wf (put_path obj pre parent1)).
  { apply wf_put_path; [assumption|].
    apply (wf_set_prop parent k editedFields parent1); try assumption.
    apply (wf_get_path pre obj); assumption. }
  rewrite Hu1.
  rewrite (update_walk _ (put_path obj pre parent1))
    by (apply parse_of_stringify, Hwf1 || destruct pre; discriminate).
  rewrite (navigate_along pre _ parent1)
    by (apply (get_put_path pre obj parent); assumption).
  change (navigate parent1 k [] old) with (write_slot parent1 k old).
  rewrite Hw2. simpl.
  rewrite (put_path_twice pre obj parent) by assumption.
  rewrite (put_path_same pre obj parent) by assumption.
  apply parse_of_stringify, Hobj.
Qed.

Lemma replacement_undone_witness :
  let json := js "{'a': [1, 'two']}" in
  let obj := JObj [("a"%string, JArr [JNum 1; JStr "two"])] in
  let p := [SKey "a"; SIdx 1] in
  JSON.parse json = Some obj /\
  p <> [] /\
  get_path obj p = Some (JStr "two") /\
  is_leaf (JStr "two") = true /\
  is_object (JArr [JNull]) = false /\
  wf (JArr [JNull]) /\
  JSON.parse
    (updateJsonByPath (updateJsonByPath json (PathArray p) (JArr [JNull]) None)
       (PathArray p) (JStr "two") None)
  = Some obj.
Proof.
  intros json obj p.
  assert (Hwf : wf (JArr [JNull])) by (simpl; auto).
  split; [reflexivity|]. split; [discriminate|]. split; [reflexivity|].
  split; [reflexivity|]. split; [reflexivity|]. split; [exact Hwf|].
  apply (replacement_undone json obj p (JStr "two") (JArr [JNull]) None None);
    [reflexivity|discriminate|reflexivity|reflexivity|reflexivity|exact Hwf].
Defined.
